(** * The release catalog of ALT Media Writer: merge engine, registries, view

    A shallow embedding of [src/app/releasemanager.cpp] (classes
    [ReleaseArchitecture], [ReleaseImageType], [ReleaseVariant],
    [ReleaseVersion], [Release], [ReleaseListModel], [ReleaseManager]) and
    the properties of its merge operation [updateUrl], of the version
    ordering, of the selection setters and of the row filter.  The classes
    come first, one module each, then the notions the statements use and the
    sample catalogs, then the properties.  After these come the properties
    of the lookups of the two registries, the invariants of the catalog, the
    selection when versions come and go, the architecture filter, the file of
    the user, the download of a variant, the loader of the release images
    files with its chain of downloads and its cache, the rows at start-up,
    and the helper [RestoreJob::work] of [src/helper/linux/restorejob.cpp].
    The last two parts follow the order of the versions through every
    operation that writes the version list, and the records of the UNKNOWN
    architecture through the merge.

    Conventions of the embedding.
    - A [QString] is a [string]; the feed and the registries are ASCII, and
      the character functions below ([toLower], [isSpace]) are the ASCII
      restrictions of the Qt ones.  [operator<] on [QString] compares code
      units lexicographically, which on such strings is [String.ltb].
    - A C++ [int] or [int64_t] is a [Z]; the code does no arithmetic on sizes
      and only increments a selection index (the overflow of this
      increment, undefined in C++, is not modelled).
    - A [QDateTime] is an [option Z]: [None] is an invalid date, [Some t] a
      valid instant.
    - A [ReleaseArchitecture *] is an [option ReleaseArchitecture.Id]:
      [None] is [nullptr], [Some a] is the address of the entry of [a] in the
      static table [m_all].
    - A [QList<T*>] of owned children is a [list] of the children; a child
      pointer taken from the list is its position in the list.
    - [emit] is modelled by the list of signals a call raises, in order,
      including those re-raised through the [connect]ions of the constructors.
    - What the environment answers (the file system, the download manager,
      the media check, D-Bus) is an argument of the function that asks for
      it, and a call of a collaborator stands in the list of events that the
      function returns.  [None] as a result is a dereferenced null pointer,
      an index outside its list or an exception that is thrown.
*)

From Stdlib Require Import ZArith List Bool String Ascii Lia Sorted.
From Stdlib Require Import Orders OrdersEx.
Import ListNotations.

Local Open Scope string_scope.
Local Open Scope Z_scope.
Local Open Scope list_scope.

(** ** QString operations used by the catalog *)

Module QString.

Definition isEmpty (s : string) : bool :=
  match s with EmptyString => true | String _ _ => false end.

(** ASCII upper-case letters are mapped to lower case, other characters are kept. *)
Definition toLower_char (c : ascii) : ascii :=
  let n := N_of_ascii c in
  if ((65 <=? n) && (n <=? 90))%N then ascii_of_N (n + 32) else c.

Fixpoint toLower (s : string) : string :=
  match s with
  | EmptyString => EmptyString
  | String c s' => String (toLower_char c) (toLower s')
  end.

(** [s.contains(sub)] with the default [Qt::CaseSensitive]. *)
Fixpoint contains (s sub : string) : bool :=
  String.prefix sub s ||
  match s with
  | EmptyString => false
  | String _ s' => contains s' sub
  end.

(** [s.contains(sub, Qt::CaseInsensitive)]. *)
Definition contains_ci (s sub : string) : bool :=
  contains (toLower s) (toLower sub).

(** [QString::compare(a, b, Qt::CaseInsensitive) == 0]. *)
Definition eq_ci (a b : string) : bool :=
  String.eqb (toLower a) (toLower b).

(** [QStringList::contains(str, Qt::CaseInsensitive)]: some element equals [str]. *)
Definition list_contains_ci (l : list string) (str : string) : bool :=
  existsb (fun a => eq_ci a str) l.

(** White space of [trimmed()]: tab, line feed, vertical tab, form feed,
    carriage return and space. *)
Definition isSpace (c : ascii) : bool :=
  let n := N_of_ascii c in
  ((9 <=? n) && (n <=? 13) || (n =? 32))%N.

Fixpoint trim_left (s : string) : string :=
  match s with
  | EmptyString => EmptyString
  | String c s' => if isSpace c then trim_left s' else s
  end.

Fixpoint trim_right (s : string) : string :=
  match s with
  | EmptyString => EmptyString
  | String c s' =>
      let t := trim_right s' in
      if isSpace c && isEmpty t then EmptyString else String c t
  end.

Definition trimmed (s : string) : string := trim_right (trim_left s).

(** [operator<] *)
Definition lt (a b : string) : bool := String.ltb a b.

(** [s.endsWith(suffix)] with the default [Qt::CaseSensitive]. *)
Fixpoint endsWith (s suffix : string) : bool :=
  String.eqb s suffix ||
  match s with
  | EmptyString => false
  | String _ s' => endsWith s' suffix
  end.

(** [s.endsWith(suffix, Qt::CaseInsensitive)]. *)
Definition endsWith_ci (s suffix : string) : bool :=
  endsWith (toLower s) (toLower suffix).

(** [s.replace(before, after)] for a non-empty [before]: the occurrences of
    [before] are replaced from left to right, the search resuming behind each
    replaced occurrence.  [skip] counts the characters of the current
    occurrence that are still to be passed over. *)
Fixpoint replace_from (before after s : string) (skip : nat) : string :=
  match s with
  | EmptyString => EmptyString
  | String c s' =>
      match skip with
      | S k => replace_from before after s' k
      | O =>
          if String.prefix before s
          then after ++ replace_from before after s' (String.length before - 1)
          else String c (replace_from before after s' 0)
      end
  end.

Definition replace (before after s : string) : string :=
  replace_from before after s 0.

(** [s.replace(QRegExp("[.]part$"), "")]: the suffix ".part" is removed once. *)
Definition removePartSuffix (s : string) : string :=
  if endsWith s ".part" then String.substring 0 (String.length s - 5) s else s.

(** [s.lastIndexOf(c)] for a character: the position of its last occurrence,
    -1 when there is none.  [i] is the position of the head of [s] and
    [found] the last occurrence before it. *)
Fixpoint lastIndexOf_from (c : ascii) (s : string) (i found : Z) : Z :=
  match s with
  | EmptyString => found
  | String d s' => lastIndexOf_from c s' (i + 1) (if Ascii.eqb d c then i else found)
  end.

Definition lastIndexOf (c : ascii) (s : string) : Z := lastIndexOf_from c s 0 (-1).

(** [s.left(n)]: the whole string when [n] is negative or not less than the
    size. *)
Definition left (n : Z) (s : string) : string :=
  if (n <? 0) || (Z.of_nat (String.length s) <=? n) then s
  else String.substring 0 (Z.to_nat n) s.

End QString.

(** ** Signals *)

Inductive Signal : Type :=
(* ReleaseManager *)
| variantChanged
(* Release *)
| versionsChanged | selectedVersionChanged | prereleaseChanged
(* ReleaseVersion *)
| variantsChanged | selectedVariantChanged | statusChanged | releaseDateChanged
(* ReleaseVariant *)
| urlChanged | shaHashChanged | sizeChanged | realSizeChanged.

(** What the operations outside the merge emit or call: a [Signal] above, one
    of the other signals of the classes, or a call of a collaborator
    ([invalidateFilter] of the proxy model, [fetchPageAsync] of the download
    manager, [QTimer::singleShot]). *)
Inductive Event : Type :=
  | signal (s : Signal)
  (* ReleaseVariant *)
  | errorStringChanged | imageChanged
  (* ReleaseManager *)
  | frontPageChanged | filterTextChanged | filterArchitectureChanged
  | selectedChanged | beingUpdatedChanged
  (* collaborators *)
  | invalidateFilter
  | fetchPageAsync (url : string)
  | singleShot (msec : Z)
  | QFile_remove (path : string)
  | downloadFile (url : string).

Definition QDateTime : Type := option Z.

Definition isValid (d : QDateTime) : bool :=
match d with Some _ => true | None => false end.

Definition QDateTime_eqb (a b : QDateTime) : bool :=
match a, b with
| Some x, Some y => x =? y
| None, None => true
| _, _ => false
end.

(** ** ReleaseArchitecture: the static registry *)

Module ReleaseArchitecture.

Inductive Id : Type :=
  X86_64 | X86 | ARM | AARCH64 | MIPSEL_arch | RISCV64 | E2K | PPC64LE | UNKNOWN.

(** The sentinel that closes the enum. *)
Definition _ARCHCOUNT : Z := 9.

Record t : Type := mk {
  id : Id;
  m_abbreviation : list string;
  m_description : string
}.

Definition m_all : list t := [
  mk X86_64 ["x86-64"] "AMD 64bit";
  mk X86 ["x86"; "i386"; "i586"; "i686"] "Intel 32bit";
  mk ARM ["armv7hl"; "armhfp"; "armh"] "ARM v7";
  mk AARCH64 ["aarch64"] "AArch64";
  mk MIPSEL_arch ["mipsel"] "MIPS";
  mk RISCV64 ["riscv"; "riscv64"] "RiscV64";
  mk E2K ["e2k"] "Elbrus";
  mk PPC64LE ["ppc64le"] "PowerPC";
  mk UNKNOWN [""; "unknown"] "Unknown"
].

(** [this - m_all] *)
Definition index (a : Id) : Z :=
  match a with
  | X86_64 => 0 | X86 => 1 | ARM => 2 | AARCH64 => 3 | MIPSEL_arch => 4
  | RISCV64 => 5 | E2K => 6 | PPC64LE => 7 | UNKNOWN => 8
  end.

Definition fromId (i : Z) : option Id :=
  if (0 <=? i) && (i <? _ARCHCOUNT)
  then option_map id (nth_error m_all (Z.to_nat i))
  else None.

Fixpoint fromAbbreviation_loop (table : list t) (abbr : string) : option Id :=
  match table with
  | [] => None
  | a :: rest =>
      if QString.list_contains_ci (m_abbreviation a) abbr then Some (id a)
      else fromAbbreviation_loop rest abbr
  end.

Definition fromAbbreviation (abbr : string) : option Id :=
  fromAbbreviation_loop m_all abbr.

Fixpoint fromFilename_loop (table : list t) (filename : string) : option Id :=
  match table with
  | [] => None
  | a :: rest =>
      if existsb (fun ab => QString.contains_ci filename ab) (m_abbreviation a)
      then Some (id a)
      else fromFilename_loop rest filename
  end.

Definition fromFilename (filename : string) : option Id :=
  fromFilename_loop m_all filename.

Fixpoint isKnown_loop (table : list t) (abbr : string) : bool :=
  match table with
  | [] => false
  | a :: rest =>
      if QString.list_contains_ci (m_abbreviation a) abbr then true
      else isKnown_loop rest abbr
  end.

Definition isKnown (abbr : string) : bool := isKnown_loop m_all abbr.

Definition listAllDescriptions : list string := map m_description m_all.

(** Order of two pointers into [m_all]; [nullptr] is below every entry. *)
Definition ptr_rank (p : option Id) : Z :=
  match p with None => 0 | Some a => 1 + index a end.

Definition ptr_gtb (p q : option Id) : bool := ptr_rank q <? ptr_rank p.

Definition ptr_eqb (p q : option Id) : bool := ptr_rank p =? ptr_rank q.

(** [abbreviation()] and [description()] of the entry at [&m_all[index]]. *)
Definition abbreviation (a : Id) : list string :=
  match nth_error m_all (Z.to_nat (index a)) with
  | Some e => m_abbreviation e
  | None => []
  end.

Definition description (a : Id) : string :=
  match nth_error m_all (Z.to_nat (index a)) with
  | Some e => m_description e
  | None => ""
  end.

Definition listAll : list Id := map id m_all.

End ReleaseArchitecture.

(** ** ReleaseImageType *)

Module ReleaseImageType.

Inductive Id : Type :=
  ISO | TAR | TAR_GZ | TAR_XZ | IMG | IMG_GZ | IMG_XZ | RECOVERY_TAR | UNKNOWN | COUNT.

Definition is_UNKNOWN (i : Id) : bool :=
  match i with UNKNOWN => true | _ => false end.

(** [all()]: one object per identifier below [COUNT]. *)
Definition all : list Id :=
  [ISO; TAR; TAR_GZ; TAR_XZ; IMG; IMG_GZ; IMG_XZ; RECOVERY_TAR; UNKNOWN].

Definition abbreviation (i : Id) : list string :=
  match i with
  | ISO => ["iso"; "dvd"]
  | TAR => ["tar"]
  | TAR_GZ => ["tgz"; "tar.gz"]
  | TAR_XZ => ["archive"; "tar.xz"]
  | IMG => ["img"]
  | IMG_GZ => ["igz"; "img.gz"]
  | IMG_XZ => ["ixz"; "img.xz"]
  | RECOVERY_TAR => ["trc"; "recovery.tar"]
  | UNKNOWN => []
  | COUNT => []
  end.

(** [name()], untranslated. *)
Definition name (i : Id) : string :=
  match i with
  | ISO => "ISO DVD"
  | TAR => "TAR Archive"
  | TAR_GZ => "GZIP TAR Archive"
  | TAR_XZ => "LZMA TAR Archive"
  | IMG => "IMG"
  | IMG_GZ => "GZIP IMG"
  | IMG_XZ => "LZMA IMG"
  | RECOVERY_TAR => "Recovery TAR Archive"
  | UNKNOWN => "Unknown"
  | COUNT => ""
  end.

(** The loop of [fromFilename] over [all()]; at its end [all()[UNKNOWN]]. *)
Fixpoint fromFilename_loop (types : list Id) (filename : string) : Id :=
  match types with
  | [] => UNKNOWN
  | type :: rest =>
      if existsb (fun ab => QString.endsWith_ci filename ab) (abbreviation type)
      then type
      else fromFilename_loop rest filename
  end.

Definition fromFilename (filename : string) : Id :=
  fromFilename_loop all filename.

Definition supportedForWriting (i : Id) : bool :=
  match i with
  | TAR_GZ | TAR_XZ | IMG_GZ | RECOVERY_TAR | UNKNOWN | COUNT => false
  | _ => true
  end.

(** [canWriteWithRootfs()]; the argument tells whether the build is for
    macOS or Windows. *)
Definition canWriteWithRootfs (apple_or_win32 : bool) (i : Id) : bool :=
  if apple_or_win32 then false
  else match i with TAR_XZ => true | _ => false end.

Definition canMD5checkAfterWrite (i : Id) : bool :=
  match i with ISO => true | _ => false end.

End ReleaseImageType.

(** ** QList operations *)

Section QList.
Context {A : Type}.

(** [l.insert(i, x)] for [0 <= i <= l.count()] *)
Definition QList_insert (i : nat) (x : A) (l : list A) : list A :=
  firstn i l ++ x :: skipn i l.

(** [l.removeAt(i)] *)
Definition QList_removeAt (i : nat) (l : list A) : list A :=
  firstn i l ++ skipn (S i) l.

(** [l.count()] *)
Definition QList_count (l : list A) : Z := Z.of_nat (List.length l).
End QList.

(** ** ReleaseVariant *)

Module ReleaseVariant.

Inductive Status : Type :=
  PREPARING | DOWNLOADING | RESUMING | DOWNLOAD_VERIFYING | READY
| WRITING_NOT_POSSIBLE | WRITING | WRITE_VERIFYING | FINISHED
| FAILED_VERIFICATION | FAILED_DOWNLOAD | FAILED.

Record t : Type := mk {
  m_temporaryImage : string;
  m_image : string;
  m_arch : option ReleaseArchitecture.Id;
  m_image_type : ReleaseImageType.Id;
  m_board : string;
  m_url : string;
  m_shaHash : string;
  m_md5 : string;
  m_size : Z;
  m_realSize : Z;
  m_status : Status;
  m_error : string
}.

(** The constructor used by the merge. *)
Definition new (url shaHash md5 : string) (size : Z)
    (arch : option ReleaseArchitecture.Id) (imageType : ReleaseImageType.Id)
    (board : string) : t :=
  mk "" "" arch imageType board url shaHash md5 size 0 PREPARING "".

Definition set_url (v : t) (url : string) : t :=
  mk (m_temporaryImage v) (m_image v) (m_arch v) (m_image_type v) (m_board v)
     url (m_shaHash v) (m_md5 v) (m_size v) (m_realSize v) (m_status v) (m_error v).

Definition set_shaHash (v : t) (sha : string) : t :=
  mk (m_temporaryImage v) (m_image v) (m_arch v) (m_image_type v) (m_board v)
     (m_url v) sha (m_md5 v) (m_size v) (m_realSize v) (m_status v) (m_error v).

Definition set_size (v : t) (size : Z) : t :=
  mk (m_temporaryImage v) (m_image v) (m_arch v) (m_image_type v) (m_board v)
     (m_url v) (m_shaHash v) (m_md5 v) size (m_realSize v) (m_status v) (m_error v).

(** [ReleaseVariant::updateUrl]; [sizeChanged] is connected to [realSizeChanged]. *)
Definition updateUrl (v : t) (url sha256 : string) (size : Z)
    : t * bool * list Signal :=
  let '(v1, changed1, ev1) :=
    if negb (QString.isEmpty url)
       && negb (String.eqb (QString.trimmed (m_url v)) (QString.trimmed url))
    then (set_url v url, true, [urlChanged])
    else (v, false, []) in
  let '(v2, changed2, ev2) :=
    if negb (QString.isEmpty sha256)
       && negb (String.eqb (QString.trimmed (m_shaHash v1)) (QString.trimmed sha256))
    then (set_shaHash v1 sha256, true, ev1 ++ [shaHashChanged])
    else (v1, changed1, ev1) in
  if negb (size =? 0) && negb (m_size v2 =? size)
  then (set_size v2 size, true, ev2 ++ [sizeChanged; realSizeChanged])
  else (v2, changed2, ev2).

(** The enumerators' values. *)
Definition Status_value (s : Status) : Z :=
  match s with
  | PREPARING => 0 | DOWNLOADING => 1 | RESUMING => 2 | DOWNLOAD_VERIFYING => 3
  | READY => 4 | WRITING_NOT_POSSIBLE => 5 | WRITING => 6 | WRITE_VERIFYING => 7
  | FINISHED => 8 | FAILED_VERIFICATION => 9 | FAILED_DOWNLOAD => 10 | FAILED => 11
  end.

Definition Status_eqb (a b : Status) : bool := Status_value a =? Status_value b.

Definition set_temporaryImage (v : t) (s : string) : t :=
  mk s (m_image v) (m_arch v) (m_image_type v) (m_board v)
     (m_url v) (m_shaHash v) (m_md5 v) (m_size v) (m_realSize v) (m_status v) (m_error v).

Definition set_image (v : t) (s : string) : t :=
  mk (m_temporaryImage v) s (m_arch v) (m_image_type v) (m_board v)
     (m_url v) (m_shaHash v) (m_md5 v) (m_size v) (m_realSize v) (m_status v) (m_error v).

Definition set_realSize (v : t) (o : Z) : t :=
  mk (m_temporaryImage v) (m_image v) (m_arch v) (m_image_type v) (m_board v)
     (m_url v) (m_shaHash v) (m_md5 v) (m_size v) o (m_status v) (m_error v).

Definition set_status (v : t) (s : Status) : t :=
  mk (m_temporaryImage v) (m_image v) (m_arch v) (m_image_type v) (m_board v)
     (m_url v) (m_shaHash v) (m_md5 v) (m_size v) (m_realSize v) s (m_error v).

Definition set_error (v : t) (o : string) : t :=
  mk (m_temporaryImage v) (m_image v) (m_arch v) (m_image_type v) (m_board v)
     (m_url v) (m_shaHash v) (m_md5 v) (m_size v) (m_realSize v) (m_status v) o.

(** The constructor for a file of the user. *)
Definition new_local (file : string) (size : Z) : t :=
  mk "" file
     (ReleaseArchitecture.fromId (ReleaseArchitecture.index ReleaseArchitecture.X86_64))
     (ReleaseImageType.fromFilename file) "UNKNOWN BOARD" "" "" "" size 0 READY "".

Definition realSize (v : t) : Z :=
  if m_realSize v <=? 0 then m_size v else m_realSize v.

Definition setRealSize (v : t) (o : Z) : t * list Event :=
  if negb (m_realSize v =? o) then (set_realSize v o, [signal realSizeChanged])
  else (v, []).

(** [status()]; [isBackendBroken] is what the drive manager answers. *)
Definition status (v : t) (isBackendBroken : bool) : Status :=
  if Status_eqb (m_status v) READY && isBackendBroken then WRITING_NOT_POSSIBLE
  else m_status v.

(** The signals below are those of the variant. *)
Definition setStatus (v : t) (s : Status) : t * list Event :=
  if negb (Status_eqb (m_status v) s) then (set_status v s, [signal statusChanged])
  else (v, []).

Definition setErrorString (v : t) (o : string) : t * list Event :=
  if negb (String.eqb (m_error v) o) then (set_error v o, [errorStringChanged])
  else (v, []).

Definition onDownloadError (v : t) (message : string) : t * list Event :=
  let '(v1, ev1) := setErrorString v message in
  let '(v2, ev2) := setStatus v1 FAILED_DOWNLOAD in
  (v2, ev1 ++ ev2).

(** [resetStatus]; the progress object, which is not part of the state here,
    is set back to 0 on the PREPARING branch when it exists. *)
Definition resetStatus (v : t) : t * list Event :=
  let '(v1, ev1) :=
    if negb (QString.isEmpty (m_image v)) then setStatus v READY
    else setStatus v PREPARING in
  let '(v2, ev2) := setErrorString v1 "" in
  (v2, ev1 ++ ev2 ++ [signal statusChanged]).

(** What [mediaCheckFile] answers, as far as [onFileDownloaded] tells its
    answers apart. *)
Inductive MediaCheck : Type :=
  ISOMD5SUM_CHECK_FAILED | ISOMD5SUM_FILE_NOT_FOUND | ISOMD5SUM_CHECK_OTHER.

(** [onFileDownloaded(path, hash)].  The answers of the environment are
    arguments: [hasProgress] tells whether the progress object exists,
    [checkResult] is the answer of [mediaCheckFile], [renameOk] the one of
    [QFile::rename] and [fileSize] the size of the final file.  [None]: the
    progress object is used though it does not exist. *)
Definition onFileDownloaded (v : t) (hasProgress : bool) (path hash : string)
    (checkResult : MediaCheck) (renameOk : bool) (fileSize : Z)
    : option (t * list Event) :=
  let v0 := set_temporaryImage v "" in
  let '(v1, ev1) := setStatus v0 DOWNLOAD_VERIFYING in
  if negb hasProgress then None
  else if negb (QString.isEmpty (m_shaHash v1)) && negb (String.eqb (m_shaHash v1) hash)
  then
    let '(v2, ev2) := setErrorString v1 "The downloaded image is corrupted" in
    let '(v3, ev3) := setStatus v2 FAILED_DOWNLOAD in
    Some (v3, ev1 ++ ev2 ++ ev3)
  else
    match checkResult with
    | ISOMD5SUM_CHECK_FAILED =>
        let '(v2, ev2) := setErrorString v1 "The downloaded image is corrupted" in
        let '(v3, ev3) := setStatus v2 FAILED_DOWNLOAD in
        Some (v3, ev1 ++ [QFile_remove path] ++ ev2 ++ ev3)
    | ISOMD5SUM_FILE_NOT_FOUND =>
        let '(v2, ev2) := setErrorString v1 "The downloaded file is not readable." in
        let '(v3, ev3) := setStatus v2 FAILED_DOWNLOAD in
        Some (v3, ev1 ++ ev2 ++ ev3)
    | ISOMD5SUM_CHECK_OTHER =>
        let finalFilename := QString.removePartSuffix path in
        if negb (String.eqb finalFilename path) && negb renameOk then
          let '(v2, ev2) := setErrorString v1 "Unable to rename the temporary file." in
          let '(v3, ev3) := setStatus v2 FAILED_DOWNLOAD in
          Some (v3, ev1 ++ ev2 ++ ev3)
        else
          let v2 := set_image v1 finalFilename in
          let '(v3, ev3) := setStatus v2 READY in
          if negb (fileSize =? m_size v3)
          then Some (set_size v3 fileSize,
                     ev1 ++ [imageChanged] ++ ev3
                     ++ [signal sizeChanged; signal realSizeChanged])
          else Some (v3, ev1 ++ [imageChanged] ++ ev3)
    end.

(** [download()].  The answers of the environment are arguments:
    [hasProgress] tells whether the progress object exists, [ret] is the path
    that [DownloadManager::downloadFile] returns and [fileSize] the size of
    the file at this path.  The result tells the variant, whether the
    progress object exists afterwards, and what was emitted and called.
    [None]: the progress object is used though it does not exist. *)
Definition download (v : t) (hasProgress : bool) (ret : string) (fileSize : Z)
    : option (t * bool * list Event) :=
  if QString.isEmpty (m_url v) && negb (QString.isEmpty (m_image v)) then
    let '(v1, ev1) := setStatus v READY in
    Some (v1, hasProgress, ev1)
  else
    let '(v1, ev1) := resetStatus v in
    let '(v2, ev2) := setStatus v1 DOWNLOADING in
    if negb (m_size v2 =? 0) && negb hasProgress then None
    else
      let cutoffIndex := QString.lastIndexOf "/" (m_url v2) in
      let md5sumUrl := (QString.left cutoffIndex (m_url v2) ++ "/MD5SUM")%string in
      let ev3 := [fetchPageAsync md5sumUrl; downloadFile (m_url v2)] in
      if negb (QString.endsWith ret ".part") then
        let v3 := set_image (set_temporaryImage v2 "") ret in
        let '(v4, ev4) := setStatus v3 READY in
        if negb (fileSize =? m_size v4)
        then Some (set_size v4 fileSize, true,
                   ev1 ++ ev2 ++ ev3 ++ [imageChanged] ++ ev4
                   ++ [signal sizeChanged; signal realSizeChanged])
        else Some (v4, true, ev1 ++ ev2 ++ ev3 ++ [imageChanged] ++ ev4)
      else Some (set_temporaryImage v2 ret, true, ev1 ++ ev2 ++ ev3).

End ReleaseVariant.

(** ** ReleaseVersion *)

Module ReleaseVersion.

Inductive Status : Type := FINAL | RELEASE_CANDIDATE | BETA | ALPHA.

(** The enumerators' values. *)
Definition Status_value (s : Status) : Z :=
  match s with FINAL => 0 | RELEASE_CANDIDATE => 1 | BETA => 2 | ALPHA => 3 end.

Definition Status_leb (a b : Status) : bool := Status_value a <=? Status_value b.

Definition is_FINAL (s : Status) : bool :=
  match s with FINAL => true | _ => false end.

(** [status == "alpha" ? ALPHA : status == "beta" ? BETA : FINAL] *)
Definition statusOfText (status : string) : Status :=
  if String.eqb status "alpha" then ALPHA
  else if String.eqb status "beta" then BETA
  else FINAL.

Record t : Type := mk {
  m_number : string;
  m_status : Status;
  m_releaseDate : QDateTime;
  m_variants : list ReleaseVariant.t;
  m_selectedVariant : Z
}.

(** The constructor used by the merge, and what it emits on its parent. *)
Definition new (number : string) (status : Status) (releaseDate : QDateTime)
    : t * list Signal :=
  (mk number status releaseDate [] 0,
   if is_FINAL status then [] else [prereleaseChanged]).

Definition set_status (v : t) (s : Status) : t :=
  mk (m_number v) s (m_releaseDate v) (m_variants v) (m_selectedVariant v).

Definition set_releaseDate (v : t) (d : QDateTime) : t :=
  mk (m_number v) (m_status v) d (m_variants v) (m_selectedVariant v).

Definition set_variants (v : t) (l : list ReleaseVariant.t) : t :=
  mk (m_number v) (m_status v) (m_releaseDate v) l (m_selectedVariant v).

Definition set_selectedVariant (v : t) (o : Z) : t :=
  mk (m_number v) (m_status v) (m_releaseDate v) (m_variants v) o.

(** [selectedVariantChanged] is connected to the manager's
    [variantChangedFilter], which emits [variantChanged]. *)
Definition addVariant (v : t) (x : ReleaseVariant.t) : t * list Signal :=
  let l := m_variants v ++ [x] in
  (set_variants v l,
   variantsChanged ::
     (if QList_count l =? 1 then [selectedVariantChanged; variantChanged] else [])).

(** The first loop of [updateUrl]: the first variant of this architecture
    and board takes the update. [None]: the loop ran to its end. *)
Fixpoint updateUrl_find (vs : list ReleaseVariant.t)
    (arch : option ReleaseArchitecture.Id) (board url sha256 : string) (size : Z)
    : option (list ReleaseVariant.t * bool * list Signal) :=
  match vs with
  | [] => None
  | i :: rest =>
      if ReleaseArchitecture.ptr_eqb (ReleaseVariant.m_arch i) arch
         && String.eqb (ReleaseVariant.m_board i) board
      then
        let '(i', changed, ev) := ReleaseVariant.updateUrl i url sha256 size in
        Some (i' :: rest, changed, ev)
      else
        match updateUrl_find rest arch board url sha256 size with
        | Some (rest', changed, ev) => Some (i :: rest', changed, ev)
        | None => None
        end
  end.

(** The second loop of [updateUrl]: the position of the new variant. *)
Fixpoint updateUrl_order (vs : list ReleaseVariant.t)
    (arch : option ReleaseArchitecture.Id) (order : nat) : nat :=
  match vs with
  | [] => order
  | i :: rest =>
      if ReleaseArchitecture.ptr_gtb (ReleaseVariant.m_arch i) arch then order
      else updateUrl_order rest arch (S order)
  end.

Definition updateUrl (v : t) (status : string) (releaseDate : QDateTime)
    (architecture : string) (imageType : ReleaseImageType.Id)
    (board url sha256 md5 : string) (size : Z) : t * bool * list Signal :=
  let s := statusOfText status in
  if Status_leb s (m_status v) then
    let v1 := set_status v s in
    let ev1 := statusChanged :: (if is_FINAL s then [prereleaseChanged] else []) in
    let '(v2, ev2) :=
      if negb (QDateTime_eqb (m_releaseDate v1) releaseDate) && isValid releaseDate
      then (set_releaseDate v1 releaseDate, ev1 ++ [releaseDateChanged])
      else (v1, ev1) in
    let arch := ReleaseArchitecture.fromAbbreviation architecture in
    match updateUrl_find (m_variants v2) arch board url sha256 size with
    | Some (l, changed, ev) => (set_variants v2 l, changed, ev2 ++ ev)
    | None =>
        let order := updateUrl_order (m_variants v2) arch 0 in
        let x := ReleaseVariant.new url sha256 md5 size arch imageType board in
        (set_variants v2 (QList_insert order x (m_variants v2)), true, ev2)
    end
  else (v, false, []).

Definition selectedVariant (v : t) : option ReleaseVariant.t :=
  if (0 <=? m_selectedVariant v) && (m_selectedVariant v <? QList_count (m_variants v))
  then nth_error (m_variants v) (Z.to_nat (m_selectedVariant v))
  else None.

Definition setSelectedVariantIndex (v : t) (o : Z) : t * list Signal :=
  if negb (m_selectedVariant v =? o) && (0 <=? m_selectedVariant v)
     && (m_selectedVariant v <? QList_count (m_variants v))
  then (set_selectedVariant v o, [selectedVariantChanged; variantChanged])
  else (v, []).

(** The constructor for a file of the user: the number and the status are
    the defaults of the class. *)
Definition new_local (file : string) (size : Z) : t :=
  mk "0" FINAL None [ReleaseVariant.new_local file size] 0.

(** [name()], untranslated. *)
Definition name (v : t) : string :=
  match m_status v with
  | ALPHA => m_number v ++ " Alpha"
  | BETA => m_number v ++ " Beta"
  | RELEASE_CANDIDATE => m_number v ++ " Release Candidate"
  | FINAL => m_number v
  end.

End ReleaseVersion.

(** ** Release *)

Module Release.

Record t : Type := mk {
  m_name : string;
  m_displayName : string;
  m_summary : string;
  m_description : string;
  m_icon : string;
  m_screenshots : list string;
  m_versions : list ReleaseVersion.t;
  m_selectedVersion : Z
}.

(** The constructor: no version, selection index 0. *)
Definition new (name display_name summary description icon : string)
    (screenshots : list string) : t :=
  mk name display_name summary description icon screenshots [] 0.

Definition set_versions (r : t) (l : list ReleaseVersion.t) (sel : Z) : t :=
  mk (m_name r) (m_displayName r) (m_summary r) (m_description r) (m_icon r)
     (m_screenshots r) l sel.

Definition isLocal (r : t) : bool := String.eqb (m_name r) "custom".

(** The loop of [addVersion]: the first position whose version number is
    less than the new one. [None]: the loop ran to its end. *)
Fixpoint addVersion_pos (vs : list ReleaseVersion.t) (number : string) (i : nat)
    : option nat :=
  match vs with
  | [] => None
  | v :: rest =>
      if QString.lt (ReleaseVersion.m_number v) number then Some i
      else addVersion_pos rest number (S i)
  end.

(** [selectedVersionChanged] is connected to the manager's
    [variantChangedFilter], which emits [variantChanged]. *)
Definition addVersion (r : t) (version : ReleaseVersion.t) : t * list Signal :=
  match addVersion_pos (m_versions r) (ReleaseVersion.m_number version) 0 with
  | Some i =>
      let sel :=
        if negb (ReleaseVersion.is_FINAL (ReleaseVersion.m_status version))
           && (Z.of_nat i <=? m_selectedVersion r)
        then m_selectedVersion r + 1
        else m_selectedVersion r in
      (set_versions r (QList_insert i version (m_versions r)) sel,
       [versionsChanged; selectedVersionChanged; variantChanged])
  | None =>
      (set_versions r (m_versions r ++ [version]) (m_selectedVersion r),
       [versionsChanged; selectedVersionChanged; variantChanged])
  end.

(** [removeVersion]; the argument is the pointer found by the eviction scan:
    [None] for [nullptr], [Some idx] for the version at position [idx]. *)
Definition removeVersion (r : t) (version : option nat) : t * list Signal :=
  match version with
  | None => (r, [])
  | Some idx =>
      if (idx <? List.length (m_versions r))%nat then
        let '(sel, ev) :=
          if m_selectedVersion r =? Z.of_nat idx
          then (0, [selectedVersionChanged; variantChanged])
          else (m_selectedVersion r, []) in
        (set_versions r (QList_removeAt idx (m_versions r)) sel,
         ev ++ [versionsChanged])
      else (r, [])
  end.

(** The first loop of [updateUrl]: the first version with this number takes
    the update; otherwise the FINAL versions are counted. *)
Fixpoint updateUrl_scan (vs : list ReleaseVersion.t) (version status : string)
    (releaseDate : QDateTime) (architecture : string)
    (imageType : ReleaseImageType.Id) (board url sha256 md5 : string) (size : Z)
    (finalVersions : Z)
    : (list ReleaseVersion.t * bool * list Signal) + Z :=
  match vs with
  | [] => inr finalVersions
  | i :: rest =>
      if String.eqb (ReleaseVersion.m_number i) version then
        let '(i', ret, ev) :=
          ReleaseVersion.updateUrl i status releaseDate architecture imageType
            board url sha256 md5 size in
        inl (i' :: rest, ret, ev)
      else
        let finalVersions' :=
          if ReleaseVersion.is_FINAL (ReleaseVersion.m_status i)
          then finalVersions + 1 else finalVersions in
        match updateUrl_scan rest version status releaseDate architecture
                imageType board url sha256 md5 size finalVersions' with
        | inl (rest', ret, ev) => inl (i :: rest', ret, ev)
        | inr n => inr n
        end
  end.

(** The eviction scan of [updateUrl], started with [min = "0"] and
    [oldVer = nullptr]. *)
Fixpoint updateUrl_min (vs : list ReleaseVersion.t) (i : nat) (min : string)
    (oldVer : option nat) : option nat :=
  match vs with
  | [] => oldVer
  | v :: rest =>
      if QString.lt (ReleaseVersion.m_number v) min
      then updateUrl_min rest (S i) (ReleaseVersion.m_number v) (Some i)
      else updateUrl_min rest (S i) min oldVer
  end.

Definition updateUrl (r : t) (version status : string) (releaseDate : QDateTime)
    (architecture : string) (imageType : ReleaseImageType.Id)
    (board url sha256 md5 : string) (size : Z) : t * bool * list Signal :=
  match updateUrl_scan (m_versions r) version status releaseDate architecture
          imageType board url sha256 md5 size 0 with
  | inl (l, ret, ev) => (set_versions r l (m_selectedVersion r), ret, ev)
  | inr finalVersions =>
      let s := ReleaseVersion.statusOfText status in
      let '(ver0, ev0) := ReleaseVersion.new version s releaseDate in
      let variant :=
        ReleaseVariant.new url sha256 md5 size
          (ReleaseArchitecture.fromAbbreviation architecture) imageType board in
      let '(ver, ev1) := ReleaseVersion.addVariant ver0 variant in
      let '(r1, ev2) := addVersion r ver in
      let finalVersions' :=
        if ReleaseVersion.is_FINAL (ReleaseVersion.m_status ver)
        then finalVersions + 1 else finalVersions in
      if 2 <? finalVersions' then
        let oldVer := updateUrl_min (m_versions r1) 0 "0" None in
        let '(r2, ev3) := removeVersion r1 oldVer in
        (r2, true, ev0 ++ ev1 ++ ev2 ++ ev3)
      else (r1, true, ev0 ++ ev1 ++ ev2)
  end.

Definition selectedVersion (r : t) : option ReleaseVersion.t :=
  if (0 <=? m_selectedVersion r) && (m_selectedVersion r <? QList_count (m_versions r))
  then nth_error (m_versions r) (Z.to_nat (m_selectedVersion r))
  else None.

Definition setSelectedVersionIndex (r : t) (o : Z) : t * list Signal :=
  if negb (m_selectedVersion r =? o) && (0 <=? m_selectedVersion r)
     && (m_selectedVersion r <? QList_count (m_versions r))
  then (set_versions r (m_versions r) o, [selectedVersionChanged; variantChanged])
  else (r, []).

(** [setLocalFile(path)]; [localFile] is [QUrl(path).toLocalFile()], and
    [exists_] and [size] are what [QFileInfo] tells of it. *)
Definition setLocalFile (r : t) (localFile : string) (exists_ : bool) (size : Z)
    : t * list Signal :=
  if negb exists_ then (r, [])
  else
    let vs :=
      if QList_count (m_versions r) =? 1 then tl (m_versions r) else m_versions r in
    (set_versions r (vs ++ [ReleaseVersion.new_local localFile size])
       (m_selectedVersion r),
     [versionsChanged; selectedVersionChanged; variantChanged]).

Definition prerelease (r : t) : string :=
  match m_versions r with
  | [] => ""
  | first :: _ =>
      if ReleaseVersion.is_FINAL (ReleaseVersion.m_status first) then ""
      else ReleaseVersion.name first
  end.

Definition versionNames (r : t) : list string :=
  map ReleaseVersion.name (m_versions r).

End Release.

(** The number of rows of the front page. *)
Definition FRONTPAGE_ROW_COUNT : Z := 3.

(** ** ReleaseListModel: the catalog at start-up *)

Module ReleaseListModel.

(** A member of a sections file, as the constructor reads it: code, display
    name, summary, description and icon path (the files are resources of the
    application and are taken as a parameter here). *)
Record Member : Type := mkMember {
  code : string;
  display_name : string;
  summary : string;
  description : string;
  icon_path : string
}.

(** The loop of the constructor over the members: the workstation release
    goes to row 0, the server release to row 1, any other to the end. *)
Fixpoint load (members : list Member) (m_releases : list Release.t)
    : list Release.t :=
  match members with
  | [] => m_releases
  | e :: rest =>
      let release :=
        Release.new (code e) (display_name e) (summary e) (description e)
          (icon_path e) [] in
      let index :=
        if String.eqb (Release.m_name release) "alt-workstation" then 0%nat
        else if String.eqb (Release.m_name release) "alt-server" then 1%nat
        else List.length m_releases in
      load rest (QList_insert index release m_releases)
  end.

(** The custom release with its version and its variant (the constructor
    links the three objects after it has inserted the release; the catalog it
    leaves is the same). *)
Definition customRelease : Release.t :=
  let r :=
    Release.new "custom" "Custom image" "Pick a file from your drive(s)"
      "<p>Here you can choose a OS image from your hard drive to be written to your flash disk</p><p>Currently it is only supported to write raw disk images (.iso or .bin)</p>"
      "qrc:/logo/custom" [] in
  let customVersion := fst (ReleaseVersion.new "" ReleaseVersion.FINAL None) in
  let customVariant :=
    ReleaseVariant.new "" "" "" 0
      (ReleaseArchitecture.fromId (ReleaseArchitecture.index ReleaseArchitecture.UNKNOWN))
      ReleaseImageType.ISO "UNKNOWN BOARD" in
  fst (Release.addVersion r (fst (ReleaseVersion.addVariant customVersion customVariant))).

(** The constructor: the custom release is inserted at the end of the front page. *)
Definition new (members : list Member) : list Release.t :=
  QList_insert (Z.to_nat (FRONTPAGE_ROW_COUNT - 1)) customRelease (load members []).

End ReleaseListModel.

(** ** The release images files *)

Module YAML.

(** An entry of the sequence "entries" of a release images file, as
    [loadReleaseImages] reads it: the scalars under the keys it looks up,
    [None] for a key that the entry does not have. *)
Record Entry : Type := mkEntry {
  link : option string;
  solution : option string;
  arch : option string;
  board : option string;
  md5 : option string
}.

End YAML.

(** The line feed. *)
Definition LF : string := String (ascii_of_nat 10) EmptyString.

(** [ymlToQString] on the text of a scalar. *)
Definition ymlToQString (value_std : string) : string :=
  let out := QString.replace "&colon;" ":" value_std in
  let out := QString.replace "&nbsp;" " " out in
  QString.replace LF " " out.

Definition GETALT_IMAGES_LOCATION : string := "http://getalt.org/_data/images/".

(** ** ReleaseManager (with the list of its ReleaseListModel) *)

Module ReleaseManager.

Record t : Type := mk {
  m_releases : list Release.t;
  m_frontPage : bool;
  m_filterText : string;
  m_filterArchitecture : Z;
  m_selectedIndex : Z;
  m_beingUpdated : bool
}.

Definition set_releases (m : t) (l : list Release.t) : t :=
  mk l (m_frontPage m) (m_filterText m) (m_filterArchitecture m)
     (m_selectedIndex m) (m_beingUpdated m).

(** [ReleaseListModel::get] *)
Definition get (m : t) (index : Z) : option Release.t :=
  if (0 <=? index) && (index <? QList_count (m_releases m))
  then nth_error (m_releases m) (Z.to_nat index)
  else None.

(** The loop of [updateUrl] over the rows of the source model. *)
Fixpoint updateUrl_loop (rs : list Release.t) (name version status : string)
    (releaseDate : QDateTime) (architecture : string)
    (imageType : ReleaseImageType.Id) (board url sha256 md5 : string) (size : Z)
    : option (list Release.t * bool * list Signal) :=
  match rs with
  | [] => None
  | r :: rest =>
      if QString.contains (QString.toLower (Release.m_name r)) name then
        let '(r', ret, ev) :=
          Release.updateUrl r version status releaseDate architecture imageType
            board url sha256 md5 size in
        Some (r' :: rest, ret, ev)
      else
        match updateUrl_loop rest name version status releaseDate architecture
                imageType board url sha256 md5 size with
        | Some (rest', ret, ev) => Some (r :: rest', ret, ev)
        | None => None
        end
  end.

Definition updateUrl (m : t) (name version status : string)
    (releaseDate : QDateTime) (architecture : string)
    (imageType : ReleaseImageType.Id) (board url sha256 md5 : string) (size : Z)
    : t * bool * list Signal :=
  if negb (ReleaseArchitecture.isKnown architecture) then (m, false, [])
  else if ReleaseImageType.is_UNKNOWN imageType then (m, false, [])
  else
    match updateUrl_loop (m_releases m) name version status releaseDate
            architecture imageType board url sha256 md5 size with
    | Some (l, ret, ev) => (set_releases m l, ret, ev)
    | None => (m, false, [])
    end.

(** The inner loop of [filterAcceptsRow]; [None]: a variant without
    architecture was dereferenced. *)
Fixpoint filterAcceptsRow_variants (vs : list ReleaseVariant.t) (filter : Z)
    : option bool :=
  match vs with
  | [] => Some false
  | variant :: rest =>
      match ReleaseVariant.m_arch variant with
      | None => None
      | Some a =>
          if ReleaseArchitecture.index a =? filter then Some true
          else filterAcceptsRow_variants rest filter
      end
  end.

(** The outer loop of [filterAcceptsRow]. *)
Fixpoint filterAcceptsRow_versions (vs : list ReleaseVersion.t) (filter : Z)
    : option bool :=
  match vs with
  | [] => Some false
  | version :: rest =>
      match filterAcceptsRow_variants (ReleaseVersion.m_variants version) filter with
      | None => None
      | Some true => Some true
      | Some false => filterAcceptsRow_versions rest filter
      end
  end.

(** [filterAcceptsRow]; [None]: a null pointer was dereferenced (a row
    outside the model, or a variant without architecture). *)
Definition filterAcceptsRow (m : t) (source_row : Z) : option bool :=
  if m_frontPage m then Some (source_row <? FRONTPAGE_ROW_COUNT)
  else
    match get m source_row with
    | None => None
    | Some r =>
        match filterAcceptsRow_versions (Release.m_versions r) (m_filterArchitecture m) with
        | None => None
        | Some containsArch =>
            Some (Release.isLocal r
                  || (containsArch
                      && QString.contains_ci (Release.m_displayName r) (m_filterText m)))
        end
    end.

Definition set_frontPage (m : t) (o : bool) : t :=
  mk (m_releases m) o (m_filterText m) (m_filterArchitecture m) (m_selectedIndex m)
     (m_beingUpdated m).

Definition set_filterText (m : t) (o : string) : t :=
  mk (m_releases m) (m_frontPage m) o (m_filterArchitecture m) (m_selectedIndex m)
     (m_beingUpdated m).

Definition set_filterArchitecture (m : t) (o : Z) : t :=
  mk (m_releases m) (m_frontPage m) (m_filterText m) o (m_selectedIndex m)
     (m_beingUpdated m).

Definition set_selectedIndex (m : t) (o : Z) : t :=
  mk (m_releases m) (m_frontPage m) (m_filterText m) (m_filterArchitecture m) o
     (m_beingUpdated m).

Definition set_beingUpdated (m : t) (o : bool) : t :=
  mk (m_releases m) (m_frontPage m) (m_filterText m) (m_filterArchitecture m)
     (m_selectedIndex m) o.

Definition setFrontPage (m : t) (o : bool) : t * list Event :=
  if negb (Bool.eqb (m_frontPage m) o)
  then (set_frontPage m o, [frontPageChanged; invalidateFilter])
  else (m, []).

Definition setFilterText (m : t) (o : string) : t * list Event :=
  if negb (String.eqb (m_filterText m) o)
  then (set_filterText m o, [filterTextChanged; invalidateFilter])
  else (m, []).

(** [selectedChanged] is connected to [variantChangedFilter]. *)
Definition setSelectedIndex (m : t) (o : Z) : t * list Event :=
  if negb (m_selectedIndex m =? o)
  then (set_selectedIndex m o, [selectedChanged; signal variantChanged])
  else (m, []).

Definition selected (m : t) : option Release.t :=
  if (0 <=? m_selectedIndex m) && (m_selectedIndex m <? QList_count (m_releases m))
  then get m (m_selectedIndex m)
  else None.

(** [variant()] *)
Definition variant (m : t) : option ReleaseVariant.t :=
  match selected m with
  | Some r =>
      match Release.selectedVersion r with
      | Some v => ReleaseVersion.selectedVariant v
      | None => None
      end
  | None => None
  end.

(** The loop of [setFilterArchitecture] over the variants of a version: the
    position of the first variant of the architecture of index [o], counted
    from [j].  [None]: a variant without architecture was dereferenced;
    [Some None]: the loop ran to its end. *)
Fixpoint setFilterArchitecture_variants (vs : list ReleaseVariant.t) (o j : Z)
    : option (option Z) :=
  match vs with
  | [] => Some None
  | variant :: rest =>
      match ReleaseVariant.m_arch variant with
      | None => None
      | Some a =>
          if ReleaseArchitecture.index a =? o then Some (Some j)
          else setFilterArchitecture_variants rest o (j + 1)
      end
  end.

(** The loop over the versions of a release. *)
Fixpoint setFilterArchitecture_versions (vs : list ReleaseVersion.t) (o : Z)
    : option (list ReleaseVersion.t * list Signal) :=
  match vs with
  | [] => Some ([], [])
  | v :: rest =>
      match setFilterArchitecture_variants (ReleaseVersion.m_variants v) o 0 with
      | None => None
      | Some found =>
          let '(v', ev) :=
            match found with
            | Some j => ReleaseVersion.setSelectedVariantIndex v j
            | None => (v, [])
            end in
          match setFilterArchitecture_versions rest o with
          | None => None
          | Some (rest', ev') => Some (v' :: rest', ev ++ ev')
          end
      end
  end.

(** The loop over the rows of the source model. *)
Fixpoint setFilterArchitecture_releases (rs : list Release.t) (o : Z)
    : option (list Release.t * list Signal) :=
  match rs with
  | [] => Some ([], [])
  | r :: rest =>
      match setFilterArchitecture_versions (Release.m_versions r) o with
      | None => None
      | Some (vs, ev) =>
          match setFilterArchitecture_releases rest o with
          | None => None
          | Some (rest', ev') =>
              Some (Release.set_versions r vs (Release.m_selectedVersion r) :: rest',
                    ev ++ ev')
          end
      end
  end.

(** [setFilterArchitecture]; [None]: a null pointer was dereferenced. *)
Definition setFilterArchitecture (m : t) (o : Z) : option (t * list Event) :=
  if negb (m_filterArchitecture m =? o) && (0 <=? m_filterArchitecture m)
     && (m_filterArchitecture m <? ReleaseArchitecture._ARCHCOUNT)
  then
    match setFilterArchitecture_releases (m_releases m) o with
    | None => None
    | Some (rs, ev) =>
        Some (set_releases (set_filterArchitecture m o) rs,
              filterArchitectureChanged :: map signal ev ++ [invalidateFilter])
    end
  else Some (m, []).

(** The body of the loop of [loadReleaseImages] for one entry.  [None]: the
    entry has no link or no solution and the conversion of the missing node
    throws.  [abbreviation()[0]] is the head of the list of abbreviations:
    every entry of [m_all] has one. *)
Definition loadReleaseImages_entry (m : t) (e : YAML.Entry)
    : option (t * list Signal) :=
  match YAML.link e, YAML.solution e with
  | Some link, Some solution =>
      let url := ymlToQString link in
      let name := ymlToQString solution in
      let arch :=
        match YAML.arch e with
        | Some a => ymlToQString a
        | None =>
            match ReleaseArchitecture.fromFilename url with
            | Some fileNameArch => hd "" (ReleaseArchitecture.abbreviation fileNameArch)
            | None => "unknown"
            end
        end in
      let board :=
        match YAML.board e with Some b => ymlToQString b | None => "PC" end in
      let md5 :=
        match YAML.md5 e with Some h => ymlToQString h | None => "" end in
      let sha256 := "" in
      let releaseDate : QDateTime := None in
      let size := 0 in
      let version := "9" in
      let status := "0" in
      let imageType := ReleaseImageType.fromFilename url in
      if negb (QString.isEmpty name) && negb (QString.isEmpty url)
         && negb (QString.isEmpty arch)
      then
        let '(m', _, ev) :=
          updateUrl m name version status releaseDate arch imageType board url
            sha256 md5 size in
        Some (m', ev)
      else Some (m, [])
  | _, _ => None
  end.

(** [loadReleaseImages] on the entries of the file. *)
Fixpoint loadReleaseImages (m : t) (entries : list YAML.Entry)
    : option (t * list Signal) :=
  match entries with
  | [] => Some (m, [])
  | e :: rest =>
      match loadReleaseImages_entry m e with
      | None => None
      | Some (m1, ev1) =>
          match loadReleaseImages m1 rest with
          | None => None
          | Some (m2, ev2) => Some (m2, ev1 ++ ev2)
          end
      end
  end.

(** The manager with the index of the file that is being downloaded and the
    files of the cache directory (path and contents, the last written first). *)
Record Fetching : Type := mkFetching {
  manager : t;
  currentDownloadingReleaseIndex : Z;
  cache : list (string * string)
}.

(** [fetchReleases]; [releaseImagesList] is what [getReleaseImagesFiles]
    lists.  [None]: the list is empty and its first element is taken. *)
Definition fetchReleases (f : Fetching) (releaseImagesList : list string)
    : option (Fetching * list Event) :=
  match releaseImagesList with
  | [] => None
  | first :: _ =>
      Some (mkFetching (set_beingUpdated (manager f) true) 0 (cache f),
            [beingUpdatedChanged; fetchPageAsync (GETALT_IMAGES_LOCATION ++ first)])
  end.

(** [onStringDownloaded(text)]; [cacheDir] is what [releaseImagesCacheDir]
    answers and [Load] gives the entries of a text ([None]: the entries
    cannot be read).  [None]: the index is outside the list, or
    [loadReleaseImages] throws. *)
Definition onStringDownloaded (f : Fetching) (releaseImagesList : list string)
    (cacheDir : string) (Load : string -> option (list YAML.Entry))
    (text : string) : option (Fetching * list Event) :=
  let i := currentDownloadingReleaseIndex f in
  if (0 <=? i) && (i <? QList_count releaseImagesList) then
    match nth_error releaseImagesList (Z.to_nat i) with
    | None => None
    | Some file =>
        let cache' := ((cacheDir ++ file)%string, text) :: cache f in
        match Load text with
        | None => None
        | Some entries =>
            match loadReleaseImages (manager f) entries with
            | None => None
            | Some (m1, ev) =>
                let i1 := i + 1 in
                if i1 <? QList_count releaseImagesList then
                  match nth_error releaseImagesList (Z.to_nat i1) with
                  | None => None
                  | Some next =>
                      Some (mkFetching m1 i1 cache',
                            map signal ev
                            ++ [fetchPageAsync (GETALT_IMAGES_LOCATION ++ next)])
                  end
                else if i1 =? QList_count releaseImagesList then
                  Some (mkFetching (set_beingUpdated m1 false) 0 cache',
                        map signal ev ++ [beingUpdatedChanged])
                else Some (mkFetching m1 i1 cache', map signal ev)
            end
        end
    end
  else None.

(** [onDownloadError]: [fetchReleases] is called again in ten seconds. *)
Definition onDownloadError (f : Fetching) (message : string)
    : Fetching * list Event :=
  (f, [singleShot 10000]).

(** The file of the cache directory at [path]: what was written there last.
    [None]: there is no such file. *)
Fixpoint cacheFile (cache : list (string * string)) (path : string) : option string :=
  match cache with
  | [] => None
  | (p, contents) :: rest =>
      if String.eqb p path then Some contents else cacheFile rest path
  end.

(** The first loop of the constructor: the release images files are loaded
    from the cache until one is missing.  The flag tells whether all were
    there.  [None]: [Load] or [loadReleaseImages] throws. *)
Fixpoint new_cached (cacheDir : string) (cache : list (string * string))
    (Load : string -> option (list YAML.Entry)) (m : t)
    (releaseImagesList : list string) : option (t * bool) :=
  match releaseImagesList with
  | [] => Some (m, true)
  | release :: rest =>
      match cacheFile cache (cacheDir ++ release) with
      | None => Some (m, false)
      | Some text =>
          match Load text with
          | None => None
          | Some entries =>
              match loadReleaseImages m entries with
              | None => None
              | Some (m1, _) => new_cached cacheDir cache Load m1 rest
              end
          end
      end
  end.

(** The second loop of the constructor: the built-in release images files;
    [builtIn] gives the text of the resource of a file. *)
Fixpoint new_builtIn (builtIn : string -> string)
    (Load : string -> option (list YAML.Entry)) (m : t)
    (releaseImagesList : list string) : option t :=
  match releaseImagesList with
  | [] => Some m
  | release :: rest =>
      match Load (builtIn release) with
      | None => None
      | Some entries =>
          match loadReleaseImages m entries with
          | None => None
          | Some (m1, _) => new_builtIn builtIn Load m1 rest
          end
      end
  end.

(** The constructor, with the defaults of the class: the list model is built
    from the members of the sections files, the release images files are
    loaded, and [fetchReleases] is set to run at once. *)
Definition new (members : list ReleaseListModel.Member)
    (releaseImagesList : list string) (cacheDir : string)
    (cache : list (string * string)) (builtIn : string -> string)
    (Load : string -> option (list YAML.Entry)) : option (t * list Event) :=
  let m := mk (ReleaseListModel.new members) true "" 0 0 true in
  match new_cached cacheDir cache Load m releaseImagesList with
  | None => None
  | Some (m1, true) => Some (m1, [singleShot 0])
  | Some (m1, false) =>
      match new_builtIn builtIn Load m1 releaseImagesList with
      | None => None
      | Some m2 => Some (m2, [singleShot 0])
      end
  end.

End ReleaseManager.

(** ** RestoreJob: the helper that restores a drive *)

Module RestoreJob.

(** An object of the reply to "GetManagedObjects", as [work] reads it: its
    path, whether it has the interface "org.freedesktop.UDisks2.Filesystem",
    and the path of the property "Drive" of its interface
    "org.freedesktop.UDisks2.Block" (empty when there is none). *)
Record Object : Type := mkObject {
  path : string;
  Filesystem : bool;
  Drive : string
}.

(** The methods that [work] calls over D-Bus, with their object and their
    arguments; [options] are the properties that are passed. *)
Inductive Call : Type :=
  | GetManagedObjects
  | Unmount (partition : string) (options : list (string * bool))
  | Format (object type : string) (options : list (string * bool))
  | CreatePartition (table : string) (offset size : Z) (type name : string)
      (options : list (string * bool)).

(** A reply without value: valid, or an error with its message, of the type
    [QDBusError::NoReply] or of another type. *)
Inductive Reply : Type :=
  | valid
  | error (NoReply : bool) (message : string).

(** The reply to "CreatePartition": the path of the partition, or the message
    of an error. *)
Inductive PartitionReply : Type :=
  | created (partition : string)
  | failed (message : string).

(** The loop of [work] over the managed objects: the file systems of the
    drive are unmounted. *)
Fixpoint work_unmount (objects : list Object) (drivePath : string) : list Call :=
  match objects with
  | [] => []
  | i :: rest =>
      if Filesystem i && String.eqb (Drive i) drivePath
      then Unmount (path i) [("force", true)] :: work_unmount rest drivePath
      else work_unmount rest drivePath
  end.

(** [work()] for the device [where_] (the member [where]).  The answers of UDisks2 are arguments:
    the path of the drive of the device, the managed objects ([None]: the
    reply has not one argument), the size of the device and the replies to
    the three calls.  The result tells the exit code, the calls in order,
    and what was written to the standard error. *)
Definition work (where_ drivePath : string) (managed : option (list Object))
    (Size : Z) (formatReply : Reply) (partitionReply : PartitionReply)
    (formatPartitionReply : Reply) : Z * list Call * string :=
  let unmounts :=
    match managed with
    | Some objects => work_unmount objects drivePath
    | None => []
    end in
  let calls1 := GetManagedObjects :: unmounts ++ [Format where_ "dos" []] in
  match formatReply with
  | error false message => (1, calls1, (message ++ LF)%string)
  | _ =>
      let calls2 := calls1 ++ [CreatePartition where_ 0 Size "" "" []] in
      match partitionReply with
      | failed message => (2, calls2, message)
      | created partitionPath =>
          let calls3 := calls2 ++ [Format partitionPath "vfat" [("update-partition-type", true)]] in
          match formatPartitionReply with
          | error false message => (3, calls3, (message ++ LF)%string)
          | _ => (0, calls3, "")
          end
      end
  end.

End RestoreJob.

(** * Specification-side notions and sample catalogs *)

(** The test of the release loop of [ReleaseManager::updateUrl]: the key
    occurs, as it is written, in the lower-cased name of the release. *)
Definition matchesKey (name : string) (r : Release.t) : bool :=
  QString.contains (QString.toLower (Release.m_name r)) name.

(** The test of the variant loop of [ReleaseVersion::updateUrl]: same
    architecture and same board. *)
Definition variantMatches (arch : option ReleaseArchitecture.Id) (board : string)
    (x : ReleaseVariant.t) : bool :=
  ReleaseArchitecture.ptr_eqb (ReleaseVariant.m_arch x) arch
  && String.eqb (ReleaseVariant.m_board x) board.

(** The number of versions of a release whose status is FINAL. *)
Definition finalCount (r : Release.t) : nat :=
  List.length
    (filter (fun v => ReleaseVersion.is_FINAL (ReleaseVersion.m_status v))
       (Release.m_versions r)).

(** The version numbers of a release, in stored order. *)
Definition versionNumbers (r : Release.t) : list string :=
  map ReleaseVersion.m_number (Release.m_versions r).

(** Descending order of version numbers: no version is below a later one. *)
Definition descending (vs : list ReleaseVersion.t) : Prop :=
  StronglySorted (fun a b => QString.lt a b = false)
    (map ReleaseVersion.m_number vs).

(** A FINAL version numbered [number], without variant, as the constructor makes it. *)
Definition finalVersion (number : string) : ReleaseVersion.t :=
  fst (ReleaseVersion.new number ReleaseVersion.FINAL None).

(** The workstation release as the list model builds it: no version yet. *)
Definition emptyRelease : Release.t :=
  Release.new "alt-workstation" "ALT Workstation" "" "" "" [].

(** Some variant of some version of the release has the architecture of
    index [filter]. *)
Definition hasArchitecture (r : Release.t) (filter : Z) : bool :=
  existsb
    (fun version =>
       existsb
         (fun variant =>
            match ReleaseVariant.m_arch variant with
            | Some a => ReleaseArchitecture.index a =? filter
            | None => false
            end)
         (ReleaseVersion.m_variants version))
    (Release.m_versions r).

(** Every variant of the release has an architecture. *)
Definition archsNonNull (r : Release.t) : Prop :=
  Forall
    (fun version =>
       Forall (fun variant => ReleaseVariant.m_arch variant <> None)
         (ReleaseVersion.m_variants version))
    (Release.m_versions r).

(** A version with its status and release date blanked, and the same for a
    release: what is left is everything but the status and the release date
    of the versions. *)
Definition eraseVersion (v : ReleaseVersion.t) : ReleaseVersion.t :=
  ReleaseVersion.set_releaseDate (ReleaseVersion.set_status v ReleaseVersion.FINAL) None.


(** The version after the first two steps of an accepted
    [ReleaseVersion::updateUrl]: status set, release date taken when it is
    valid and not the stored one. *)
Definition afterStatusAndDate (v : ReleaseVersion.t) (status : string)
    (releaseDate : QDateTime) : ReleaseVersion.t :=
  let v1 := ReleaseVersion.set_status v (ReleaseVersion.statusOfText status) in
  if negb (QDateTime_eqb (ReleaseVersion.m_releaseDate v1) releaseDate)
     && isValid releaseDate
  then ReleaseVersion.set_releaseDate v1 releaseDate
  else v1.

(** The signals of these two steps. *)
Definition statusAndDateSignals (v : ReleaseVersion.t) (status : string)
    (releaseDate : QDateTime) : list Signal :=
  let s := ReleaseVersion.statusOfText status in
  (statusChanged :: (if ReleaseVersion.is_FINAL s then [prereleaseChanged] else []))
  ++ (if negb (QDateTime_eqb (ReleaseVersion.m_releaseDate v) releaseDate)
         && isValid releaseDate
      then [releaseDateChanged] else []).

(** The version that [Release::updateUrl] builds for a number it does not hold. *)
Definition newVersion (version status : string) (releaseDate : QDateTime)
    (architecture : string) (imageType : ReleaseImageType.Id)
    (board url sha256 md5 : string) (size : Z) : ReleaseVersion.t :=
  fst (ReleaseVersion.addVariant
         (fst (ReleaseVersion.new version (ReleaseVersion.statusOfText status)
                 releaseDate))
         (ReleaseVariant.new url sha256 md5 size
            (ReleaseArchitecture.fromAbbreviation architecture) imageType board)).

(** The catalog at start-up for a sections file with the server and the
    workstation release: workstation, server and custom release, in this
    order; the front page is left. *)
Definition sampleCatalog : ReleaseManager.t :=
  ReleaseManager.mk
    (ReleaseListModel.new
       [ReleaseListModel.mkMember "alt-server" "ALT Server" "" "" "";
        ReleaseListModel.mkMember "alt-workstation" "ALT Workstation" "" "" ""])
    false "" 0 0 true.

(** One record of the feed for the workstation release, as
    [loadReleaseImages] passes it (no date, no hash, no size). *)
Definition feed (m : ReleaseManager.t) (version status architecture : string)
    : ReleaseManager.t * bool * list Signal :=
  ReleaseManager.updateUrl m "alt-workstation" version status None architecture
    ReleaseImageType.ISO "PC" "http://getalt.org/alt.iso" "" "" 0.

Definition firstRelease (m : ReleaseManager.t) : option Release.t :=
  ReleaseManager.get m 0.

(** The catalog after the FINAL versions "38" and "39" of the workstation
    release were merged, in this order. *)
Definition catalog3839 : ReleaseManager.t :=
  fst (fst (feed (fst (fst (feed sampleCatalog "38" "0" "x86-64"))) "39" "0" "x86-64")).

(** The catalog after the FINAL version "9" of the workstation release was merged. *)
Definition catalog9 : ReleaseManager.t :=
  fst (fst (feed sampleCatalog "9" "0" "x86-64")).

(** A version with one variant and the selection on it. *)
Definition oneVariantVersion : ReleaseVersion.t :=
  ReleaseVersion.mk "9" ReleaseVersion.FINAL None
    [ReleaseVariant.new "http://getalt.org/alt.iso" "" "" 0
       (Some ReleaseArchitecture.X86_64) ReleaseImageType.ISO "PC"] 0.

(** A release with one version and the selection on it. *)
Definition oneVersionRelease : Release.t :=
  Release.set_versions emptyRelease [oneVariantVersion] 0.

(** The key of a variant in its version: the architecture and the board. *)
Definition variantKey (x : ReleaseVariant.t) : option ReleaseArchitecture.Id * string :=
  (ReleaseVariant.m_arch x, ReleaseVariant.m_board x).

(** No two versions of the release have the same number. *)
Definition numbersUnique (r : Release.t) : Prop := NoDup (versionNumbers r).

(** No two variants of a version have the same architecture and board. *)
Definition keysUnique (v : ReleaseVersion.t) : Prop :=
  NoDup (map variantKey (ReleaseVersion.m_variants v)).

(** The variants of a version follow the order of the architecture registry. *)
Definition variantsOrdered (v : ReleaseVersion.t) : Prop :=
  StronglySorted
    (fun a b => ReleaseArchitecture.ptr_rank a <= ReleaseArchitecture.ptr_rank b)
    (map ReleaseVariant.m_arch (ReleaseVersion.m_variants v)).

(** The version has a variant of the architecture of index [o]. *)
Definition offers (o : Z) (v : ReleaseVersion.t) : bool :=
  existsb
    (fun variant =>
       match ReleaseVariant.m_arch variant with
       | Some a => ReleaseArchitecture.index a =? o
       | None => false
       end)
    (ReleaseVersion.m_variants v).

(** The selection index of the version is the position of a variant. *)
Definition selectionValid (v : ReleaseVersion.t) : bool :=
  (0 <=? ReleaseVersion.m_selectedVariant v)
  && (ReleaseVersion.m_selectedVariant v <? QList_count (ReleaseVersion.m_variants v)).

(** What [setFilterArchitecture] with the index [o] makes of a version: only
    the selection index may differ; a version that offers the architecture and
    whose selection was valid has a variant of the architecture selected; a
    version that does not offer it is as it was. *)
Definition followsFilter (o : Z) (v v' : ReleaseVersion.t) : Prop :=
  ReleaseVersion.set_selectedVariant v' (ReleaseVersion.m_selectedVariant v) = v /\
  (offers o v = true -> selectionValid v = true ->
   exists x, ReleaseVersion.selectedVariant v' = Some x /\
             option_map ReleaseArchitecture.index (ReleaseVariant.m_arch x) = Some o) /\
  (offers o v = false -> v' = v).



(** A version as the loader of the release images files leaves it: FINAL,
    without release date, its variants without expected hash and size. *)
Definition asLoaded (v : ReleaseVersion.t) : Prop :=
  ReleaseVersion.m_status v = ReleaseVersion.FINAL /\
  ReleaseVersion.m_releaseDate v = None /\
  Forall (fun x => ReleaseVariant.m_shaHash x = "" /\ ReleaseVariant.m_size x = 0)
    (ReleaseVersion.m_variants v).

(** What a release is to the user, apart from its versions. *)
Definition identity (r : Release.t)
    : string * string * string * string * string * list string :=
  (Release.m_name r, Release.m_displayName r, Release.m_summary r,
   Release.m_description r, Release.m_icon r, Release.m_screenshots r).

(** The state of the view: front page, filters, selected row, update flag. *)
Definition view (m : ReleaseManager.t) : bool * string * Z * Z * bool :=
  (ReleaseManager.m_frontPage m, ReleaseManager.m_filterText m,
   ReleaseManager.m_filterArchitecture m, ReleaseManager.m_selectedIndex m,
   ReleaseManager.m_beingUpdated m).

(** The rows of the catalog: the releases as the user knows them, in order. *)
Definition rows (m : ReleaseManager.t) : list (string * string * string * string * string * list string) :=
  map identity (ReleaseManager.m_releases m).

(** The texts that arrive one after the other while the release images files
    are fetched, each handled by [onStringDownloaded]. *)
Fixpoint downloads (files : list string) (cacheDir : string)
    (Load : string -> option (list YAML.Entry)) (f : ReleaseManager.Fetching)
    (texts : list string) : option (ReleaseManager.Fetching * list Event) :=
  match texts with
  | [] => Some (f, [])
  | text :: rest =>
      match ReleaseManager.onStringDownloaded f files cacheDir Load text with
      | None => None
      | Some (f1, ev1) =>
          match downloads files cacheDir Load f1 rest with
          | None => None
          | Some (f2, ev2) => Some (f2, ev1 ++ ev2)
          end
      end
  end.

(** The same texts loaded into a catalog one after the other. *)
Fixpoint loadTexts (Load : string -> option (list YAML.Entry))
    (m : ReleaseManager.t) (texts : list string) : option ReleaseManager.t :=
  match texts with
  | [] => Some m
  | text :: rest =>
      match Load text with
      | None => None
      | Some entries =>
          match ReleaseManager.loadReleaseImages m entries with
          | None => None
          | Some (m1, _) => loadTexts Load m1 rest
          end
      end
  end.

(** The pages that a list of events asks the download manager for. *)
Definition requests (ev : list Event) : list string :=
  flat_map (fun e => match e with fetchPageAsync url => [url] | _ => [] end) ev.

(** The text can be read as a release images file whose entries all have a
    link and a solution. *)
Definition readable (Load : string -> option (list YAML.Entry)) (text : string) : Prop :=
  exists entries,
    Load text = Some entries /\
    Forall (fun e => YAML.link e <> None /\ YAML.solution e <> None) entries.

(** The release that the list model makes of a member of the sections file. *)
Definition releaseOf (e : ReleaseListModel.Member) : Release.t :=
  Release.new (ReleaseListModel.code e) (ReleaseListModel.display_name e)
    (ReleaseListModel.summary e) (ReleaseListModel.description e)
    (ReleaseListModel.icon_path e) [].

(** The manager as its constructor has it before the release images files
    are loaded. *)
Definition freshManager (members : list ReleaseListModel.Member) : ReleaseManager.t :=
  ReleaseManager.mk (ReleaseListModel.new members) true "" 0 0 true.

(** The cache has, for each file, the text that stands at the same place. *)
Definition cached (cacheDir : string) (cache : list (string * string))
    (files texts : list string) : Prop :=
  Forall2
    (fun file text => ReleaseManager.cacheFile cache (cacheDir ++ file) = Some text)
    files texts.

(** The calls of the download manager among the events. *)
Definition calls (ev : list Event) : list Event :=
  filter
    (fun e => match e with fetchPageAsync _ | downloadFile _ => true | _ => false end)
    ev.

(** A reply without value that [RestoreJob::work] goes on after: a valid
    one, or an error of the type [QDBusError::NoReply]. *)
Definition accepted (r : RestoreJob.Reply) : bool :=
  match r with
  | RestoreJob.error false _ => false
  | _ => true
  end.

Definition isUnmount (c : RestoreJob.Call) : bool :=
  match c with RestoreJob.Unmount _ _ => true | _ => false end.

(** * Properties *)

(** ** Facts on QString operations *)

Section QStringFacts.

Lemma prefix_empty (s : string) : String.prefix "" s = true.
Proof. destruct s; reflexivity. Qed.

Lemma contains_empty (s : string) : QString.contains s "" = true.
Proof. destruct s; simpl; reflexivity. Qed.

Lemma contains_ci_empty (s : string) : QString.contains_ci s "" = true.
Proof. unfold QString.contains_ci. simpl. apply contains_empty. Qed.

Lemma compare_as_OT (a b : string) :
  String.compare a b = String_as_OT.compare a b.
Proof. reflexivity. Qed.

Lemma lt_irrefl (a : string) : QString.lt a a = false.
Proof.
  unfold QString.lt, String.ltb. rewrite compare_as_OT.
  destruct (String_as_OT.compare a a) eqn:E; auto.
  exfalso. exact (StrictOrder_Irreflexive (R := String_as_OT.lt) a E).
Qed.

Lemma lt_true_iff (a b : string) :
  QString.lt a b = true <-> String_as_OT.lt a b.
Proof.
  unfold QString.lt, String.ltb, String_as_OT.lt. rewrite compare_as_OT.
  destruct (String_as_OT.compare a b); split; congruence.
Qed.

Lemma lt_trans (a b c : string) :
  QString.lt a b = true -> QString.lt b c = true -> QString.lt a c = true.
Proof.
  rewrite !lt_true_iff. apply (StrictOrder_Transitive (R := String_as_OT.lt)).
Qed.

(** The order is total: two strings neither of which is below the other are equal. *)
Lemma lt_total (a b : string) :
  QString.lt a b = false -> QString.lt b a = false -> a = b.
Proof.
  unfold QString.lt, String.ltb. rewrite (String.compare_antisym b a).
  destruct (String.compare a b) eqn:E; simpl; try discriminate.
  intros _ _. now apply String.compare_eq_iff.
Qed.

End QStringFacts.

(** ** Facts on the architecture registry *)

Section RegistryFacts.
Import ReleaseArchitecture.

Lemma ptr_eqb_eq (p q : option Id) : ptr_eqb p q = true <-> p = q.
Proof.
  unfold ptr_eqb. rewrite Z.eqb_eq.
  destruct p as [[]|], q as [[]|]; simpl; split; intro H;
    try reflexivity; try discriminate H; try lia.
Qed.

Lemma ptr_eqb_refl (p : option Id) : ptr_eqb p p = true.
Proof. now apply ptr_eqb_eq. Qed.

(** [isKnown] is the test that [fromAbbreviation] finds an entry. *)
Lemma isKnown_fromAbbreviation (abbr : string) :
  isKnown abbr = true <-> exists a, fromAbbreviation abbr = Some a.
Proof.
  unfold isKnown, fromAbbreviation.
  induction m_all as [|e l IH]; simpl.
  - split; [discriminate | intros [a H]; discriminate].
  - destruct (QString.list_contains_ci (m_abbreviation e) abbr).
    + split; eauto.
    + exact IH.
Qed.

Lemma fromFilename_loop_total (table : list t) (filename : string) :
  Exists (fun e => In "" (m_abbreviation e)) table ->
  exists a, fromFilename_loop table filename = Some a.
Proof.
  induction 1 as [e l H | e l _ IH]; simpl.
  - assert (E : existsb (fun ab => QString.contains_ci filename ab)
                  (m_abbreviation e) = true).
    { apply existsb_exists. exists "". split; [exact H | apply contains_ci_empty]. }
    rewrite E. eauto.
  - destruct (existsb _ (m_abbreviation e)); eauto.
Qed.

End RegistryFacts.

(** ** The UNKNOWN architecture accepts the empty abbreviation *)

Lemma updateUrl_known_passes (m : ReleaseManager.t) (name version status : string)
    (releaseDate : QDateTime) (architecture : string)
    (imageType : ReleaseImageType.Id) (board url sha256 md5 : string) (size : Z) :
  ReleaseArchitecture.isKnown architecture = true ->
  ReleaseImageType.is_UNKNOWN imageType = false ->
  ReleaseManager.updateUrl m name version status releaseDate architecture
    imageType board url sha256 md5 size =
  match ReleaseManager.updateUrl_loop (ReleaseManager.m_releases m) name version
          status releaseDate architecture imageType board url sha256 md5 size with
  | Some (l, ret, ev) => (ReleaseManager.set_releases m l, ret, ev)
  | None => (m, false, [])
  end.
Proof.
  intros Hk Ht. unfold ReleaseManager.updateUrl. now rewrite Hk, Ht.
Qed.


(** ** The row filter *)

Section Filter.
Import ReleaseManager.

Lemma filterAcceptsRow_variants_spec (vs : list ReleaseVariant.t) (filter : Z) :
  Forall (fun variant => ReleaseVariant.m_arch variant <> None) vs ->
  filterAcceptsRow_variants vs filter =
  Some (existsb
          (fun variant =>
             match ReleaseVariant.m_arch variant with
             | Some a => ReleaseArchitecture.index a =? filter
             | None => false
             end) vs).
Proof.
  induction 1 as [|x l Hx _ IH]; simpl; [reflexivity|].
  destruct (ReleaseVariant.m_arch x) as [a|]; [|congruence].
  destruct (ReleaseArchitecture.index a =? filter); [reflexivity | exact IH].
Qed.

Lemma filterAcceptsRow_versions_spec (r : Release.t) (filter : Z) :
  archsNonNull r ->
  filterAcceptsRow_versions (Release.m_versions r) filter =
  Some (hasArchitecture r filter).
Proof.
  unfold archsNonNull, hasArchitecture.
  induction 1 as [|v l Hv _ IH]; simpl; [reflexivity|].
  rewrite (filterAcceptsRow_variants_spec _ filter Hv).
  destruct (existsb _ (ReleaseVersion.m_variants v)); [reflexivity | exact IH].
Qed.

Lemma filterAcceptsRow_catalog (m : t) (row : Z) (r : Release.t) :
  m_frontPage m = false ->
  get m row = Some r ->
  archsNonNull r ->
  filterAcceptsRow m row =
  Some (Release.isLocal r
        || (hasArchitecture r (m_filterArchitecture m)
            && QString.contains_ci (Release.m_displayName r) (m_filterText m))).
Proof.
  intros Hf Hg Hn. unfold filterAcceptsRow.
  now rewrite Hf, Hg, (filterAcceptsRow_versions_spec r _ Hn).
Qed.

(** The constructor of the list model leaves the custom release on one of
    the first three rows. *)
Lemma customRelease_row (members : list ReleaseListModel.Member) :
  exists row : nat,
    (row < 3)%nat /\
    nth_error (ReleaseListModel.new members) row = Some ReleaseListModel.customRelease.
Proof.
  unfold ReleaseListModel.new, QList_insert.
  set (l := ReleaseListModel.load members []).
  change (Z.to_nat (FRONTPAGE_ROW_COUNT - 1)) with 2%nat.
  exists (List.length (firstn 2 l)). split.
  - rewrite length_firstn. lia.
  - now rewrite nth_error_app2, Nat.sub_diag by lia.
Qed.

Lemma customRelease_accepted (members : list ReleaseListModel.Member) (m : t) :
  m_releases m = ReleaseListModel.new members ->
  exists row,
    0 <= row < 3 /\ get m row = Some ReleaseListModel.customRelease /\
    filterAcceptsRow m row = Some true.
Proof.
  intro Hm. destruct (customRelease_row members) as (row & Hrow & Hnth).
  assert (Hget : get m (Z.of_nat row) = Some ReleaseListModel.customRelease).
  { unfold get, QList_count. rewrite Hm.
    assert (Hlen : (row < List.length (ReleaseListModel.new members))%nat).
    { apply nth_error_Some. congruence. }
    destruct (Z.leb_spec 0 (Z.of_nat row)); [|lia].
    destruct (Z.ltb_spec (Z.of_nat row)
                (Z.of_nat (List.length (ReleaseListModel.new members)))); [|lia].
    simpl. now rewrite Nat2Z.id. }
  exists (Z.of_nat row). split; [lia|]. split; [exact Hget|].
  destruct (m_frontPage m) eqn:Hf.
  - unfold filterAcceptsRow. rewrite Hf. f_equal. apply Z.ltb_lt.
    unfold FRONTPAGE_ROW_COUNT. lia.
  - rewrite (filterAcceptsRow_catalog m _ _ Hf Hget); [reflexivity|].
    repeat constructor. discriminate.
Qed.

End Filter.

(** ** Ordering of the versions of a release *)

Section QListFacts.
Context {A : Type}.

Lemma QList_insert_app (pre post : list A) (x : A) :
  QList_insert (List.length pre) x (pre ++ post) = pre ++ x :: post.
Proof.
  unfold QList_insert.
  rewrite firstn_app, skipn_app, Nat.sub_diag, firstn_all, skipn_all.
  simpl. now rewrite app_nil_r.
Qed.

Lemma QList_removeAt_app (pre post : list A) (x : A) :
  QList_removeAt (List.length pre) (pre ++ x :: post) = pre ++ post.
Proof.
  unfold QList_removeAt. induction pre as [|a pre IH].
  - reflexivity.
  - change (a :: (firstn (List.length pre) (pre ++ x :: post)
                  ++ skipn (S (List.length pre)) (pre ++ x :: post))
            = a :: (pre ++ post)).
    now rewrite IH.
Qed.

Lemma split_at (i : nat) (l : list A) :
  (i < List.length l)%nat ->
  exists pre x post, l = pre ++ x :: post /\ List.length pre = i.
Proof.
  revert l; induction i as [|i IH]; intros [|a l] Hi; simpl in Hi; try lia.
  - exists [], a, l. split; reflexivity.
  - destruct (IH l) as (pre & x & post & -> & Hlen); [lia|].
    exists (a :: pre), x, post. split; [reflexivity | simpl; lia].
Qed.

Variable R : A -> A -> Prop.

Lemma StronglySorted_app_iff (l1 l2 : list A) :
  StronglySorted R (l1 ++ l2) <->
  StronglySorted R l1 /\ StronglySorted R l2 /\
  Forall (fun x => Forall (R x) l2) l1.
Proof.
  induction l1 as [|a l1 IH]; simpl.
  - split; [intro H; repeat split; auto; constructor | tauto].
  - split.
    + intro H. apply StronglySorted_inv in H. destruct H as [Hs Hf].
      apply IH in Hs. destruct Hs as (H1 & H2 & H3).
      apply Forall_app in Hf. destruct Hf as [Hf1 Hf2].
      repeat split; auto; constructor; auto.
    + intros (H1 & H2 & H3).
      apply StronglySorted_inv in H1. destruct H1 as [H1 Hf1].
      inversion H3 as [|? ? Hf2 H3']; subst.
      constructor; [apply IH; auto | apply Forall_app; auto].
Qed.

Lemma StronglySorted_removeAt (i : nat) (l : list A) :
  StronglySorted R l -> StronglySorted R (QList_removeAt i l).
Proof.
  intro H. destruct (Nat.lt_ge_cases i (List.length l)) as [Hi | Hi].
  - destruct (split_at i l Hi) as (pre & x & post & -> & <-).
    rewrite QList_removeAt_app.
    apply StronglySorted_app_iff in H. destruct H as (H1 & H2 & H3).
    apply StronglySorted_inv in H2. destruct H2 as [H2 _].
    apply StronglySorted_app_iff. repeat split; auto.
    eapply Forall_impl; [|exact H3].
    intros a Ha. now inversion Ha.
  - unfold QList_removeAt.
    rewrite firstn_all2, skipn_all2, app_nil_r by lia. exact H.
Qed.

End QListFacts.

Section VersionOrder.
Import Release.

Local Abbreviation number := ReleaseVersion.m_number.

Lemma addVersion_pos_Some (vs : list ReleaseVersion.t) (n : string) (i k : nat) :
  addVersion_pos vs n i = Some k ->
  exists pre y post,
    vs = pre ++ y :: post /\ k = (i + List.length pre)%nat /\
    Forall (fun x => QString.lt (number x) n = false) pre /\
    QString.lt (number y) n = true.
Proof.
  revert i; induction vs as [|v vs IH]; intros i H; simpl in H; [discriminate|].
  destruct (QString.lt (number v) n) eqn:E.
  - injection H as <-. exists [], v, vs. simpl. repeat split; auto.
  - destruct (IH _ H) as (pre & y & post & -> & -> & Hpre & Hy).
    exists (v :: pre), y, post. simpl. repeat split; auto; lia.
Qed.

Lemma addVersion_pos_None (vs : list ReleaseVersion.t) (n : string) (i : nat) :
  addVersion_pos vs n i = None ->
  Forall (fun x => QString.lt (number x) n = false) vs.
Proof.
  revert i; induction vs as [|v vs IH]; intros i H; simpl in H; [constructor|].
  destruct (QString.lt (number v) n) eqn:E; [discriminate|].
  constructor; eauto.
Qed.

(** Where [addVersion] puts the new version. *)
Lemma addVersion_versions (r : t) (v : ReleaseVersion.t) :
  exists pre post,
    m_versions r = pre ++ post /\
    m_versions (fst (addVersion r v)) = pre ++ v :: post /\
    Forall (fun x => QString.lt (number x) (number v) = false) pre /\
    match post with
    | [] => True
    | y :: _ => QString.lt (number y) (number v) = true
    end.
Proof.
  unfold addVersion.
  destruct (addVersion_pos (m_versions r) (number v) 0) as [k|] eqn:E.
  - destruct (addVersion_pos_Some _ _ _ _ E) as (pre & y & post & Hvs & -> & Hpre & Hy).
    exists pre, (y :: post). simpl. rewrite Hvs. repeat split; auto.
    apply QList_insert_app.
  - exists (m_versions r), []. simpl. rewrite app_nil_r. repeat split; auto.
    eapply addVersion_pos_None; eauto.
Qed.

Lemma addVersion_descending (r : t) (v : ReleaseVersion.t) :
  descending (m_versions r) -> descending (m_versions (fst (addVersion r v))).
Proof.
  destruct (addVersion_versions r v) as (pre & post & -> & -> & Hpre & Hpost).
  unfold descending. rewrite !map_app. simpl map. intro H.
  apply StronglySorted_app_iff in H. destruct H as (H1 & H2 & H3).
  assert (Hv : Forall (fun b => QString.lt (number v) b = false) (map number post)).
  { destruct post as [|y post]; [constructor|]. simpl in *.
    apply StronglySorted_inv in H2. destruct H2 as [_ Hy].
    constructor.
    - destruct (QString.lt (number v) (number y)) eqn:E; auto.
      pose proof (lt_trans _ _ _ E Hpost) as Hc. rewrite lt_irrefl in Hc. discriminate.
    - eapply Forall_impl; [|exact Hy]. intros b Hb.
      destruct (QString.lt (number v) b) eqn:E; auto.
      pose proof (lt_trans _ _ _ Hpost E). congruence. }
  apply StronglySorted_app_iff. repeat split; auto.
  - constructor; auto.
  - clear H1. induction pre as [|x pre IH]; [constructor|].
    inversion Hpre; subst. inversion H3; subst.
    constructor; auto.
Qed.

Lemma removeVersion_descending (r : t) (k : option nat) :
  descending (m_versions r) -> descending (m_versions (fst (removeVersion r k))).
Proof.
  intro H. unfold removeVersion. destruct k as [idx|]; [|exact H].
  destruct (idx <? List.length (m_versions r))%nat; [|exact H].
  destruct (m_selectedVersion r =? Z.of_nat idx); simpl;
    unfold descending, QList_removeAt;
    rewrite map_app, <- firstn_map, <- skipn_map;
    now apply StronglySorted_removeAt.
Qed.

Lemma ReleaseVersion_updateUrl_number (v : ReleaseVersion.t) (status : string)
    (releaseDate : QDateTime) (architecture : string)
    (imageType : ReleaseImageType.Id) (board url sha256 md5 : string) (size : Z) :
  number (fst (fst (ReleaseVersion.updateUrl v status releaseDate architecture
                      imageType board url sha256 md5 size))) = number v.
Proof.
  unfold ReleaseVersion.updateUrl.
  destruct (ReleaseVersion.Status_leb _ _); [|reflexivity].
  destruct (negb _ && isValid releaseDate);
    destruct (ReleaseVersion.updateUrl_find _ _ _ _ _ _) as [[[l c] ev]|];
    reflexivity.
Qed.

Lemma updateUrl_scan_numbers (vs : list ReleaseVersion.t) (version status : string)
    (releaseDate : QDateTime) (architecture : string)
    (imageType : ReleaseImageType.Id) (board url sha256 md5 : string) (size n : Z)
    l ret ev :
  updateUrl_scan vs version status releaseDate architecture imageType board url
    sha256 md5 size n = inl (l, ret, ev) ->
  map number l = map number vs.
Proof.
  revert n l ret ev; induction vs as [|v vs IH]; intros n l ret ev H; simpl in H;
    [discriminate|].
  destruct (String.eqb (number v) version).
  - pose proof (ReleaseVersion_updateUrl_number v status releaseDate architecture
                  imageType board url sha256 md5 size) as Hn.
    destruct (ReleaseVersion.updateUrl v _ _ _ _ _ _ _ _ _) as [[v' b] e].
    injection H as <- _ _. simpl in *. now rewrite Hn.
  - destruct (updateUrl_scan vs _ _ _ _ _ _ _ _ _ _ _) as [[[l' b] e]|] eqn:E;
      [|discriminate].
    injection H as <- _ _. simpl. f_equal. eapply IH; eauto.
Qed.

Lemma updateUrl_descending (r : t) (version status : string)
    (releaseDate : QDateTime) (architecture : string)
    (imageType : ReleaseImageType.Id) (board url sha256 md5 : string) (size : Z) :
  descending (m_versions r) ->
  descending (m_versions (fst (fst (updateUrl r version status releaseDate
                architecture imageType board url sha256 md5 size)))).
Proof.
  intro H. unfold updateUrl.
  destruct (updateUrl_scan _ _ _ _ _ _ _ _ _ _ _ _) as [[[l b] e]|n] eqn:E.
  - simpl. unfold descending. erewrite updateUrl_scan_numbers; eauto.
  - cbn [ReleaseVersion.new ReleaseVersion.addVariant].
    match goal with |- context [addVersion r ?v] => set (ver := v) end.
    pose proof (addVersion_descending r ver H) as H1.
    destruct (addVersion r ver) as [r1 ev2]. simpl in H1.
    destruct (2 <? _); [|exact H1].
    pose proof (removeVersion_descending r1 (updateUrl_min (m_versions r1) 0 "0" None) H1) as H2.
    destruct (removeVersion r1 _) as [r2 ev3]. exact H2.
Qed.

End VersionOrder.

(** ** Targeting of the release *)

Section Targeting.
Import ReleaseManager.

Variables (name version status : string) (releaseDate : QDateTime)
  (architecture : string) (imageType : ReleaseImageType.Id)
  (board url sha256 md5 : string) (size : Z).

Lemma updateUrl_loop_Some (rs l : list Release.t) (ret : bool) (ev : list Signal) :
  updateUrl_loop rs name version status releaseDate architecture imageType board
    url sha256 md5 size = Some (l, ret, ev) ->
  exists pre r post r',
    rs = pre ++ r :: post /\ l = pre ++ r' :: post /\
    Forall (fun x => matchesKey name x = false) pre /\
    matchesKey name r = true /\
    Release.updateUrl r version status releaseDate architecture imageType board
      url sha256 md5 size = (r', ret, ev).
Proof.
  revert l; induction rs as [|x rs IH]; intros l H; simpl in H; [discriminate|].
  fold (matchesKey name x) in H.
  destruct (matchesKey name x) eqn:E.
  - destruct (Release.updateUrl x _ _ _ _ _ _ _ _ _ _) as [[r' b] e] eqn:Er.
    injection H as <- <- <-.
    exists [], x, rs, r'. repeat split; auto.
  - destruct (updateUrl_loop rs _ _ _ _ _ _ _ _ _ _ _) as [[[l' b] e]|] eqn:El;
      [|discriminate].
    injection H as <- <- <-.
    destruct (IH _ eq_refl) as (pre & r & post & r' & -> & -> & Hpre & Hr & Hu).
    exists (x :: pre), r, post, r'. repeat split; auto.
Qed.

Lemma updateUrl_loop_None (rs : list Release.t) :
  updateUrl_loop rs name version status releaseDate architecture imageType board
    url sha256 md5 size = None <->
  Forall (fun x => matchesKey name x = false) rs.
Proof.
  induction rs as [|x rs IH]; simpl.
  - split; auto.
  - fold (matchesKey name x).
    destruct (matchesKey name x) eqn:E.
    + destruct (Release.updateUrl x _ _ _ _ _ _ _ _ _ _) as [[r' b] e].
      split; [discriminate|]. intro H. inversion H; congruence.
    + destruct (updateUrl_loop rs _ _ _ _ _ _ _ _ _ _ _) as [[[l' b] e]|].
      * split; [discriminate|]. intro H. inversion H; subst.
        apply IH in H3. discriminate.
      * split; auto. intros _. constructor; auto. now apply IH.
Qed.

(** The loop applied to a catalog whose first matching release is [r]. *)
Lemma updateUrl_loop_first (pre post : list Release.t) (r : Release.t) :
  Forall (fun x => matchesKey name x = false) pre ->
  matchesKey name r = true ->
  updateUrl_loop (pre ++ r :: post) name version status releaseDate architecture
    imageType board url sha256 md5 size =
  let '(r', ret, ev) :=
    Release.updateUrl r version status releaseDate architecture imageType board
      url sha256 md5 size in
  Some (pre ++ r' :: post, ret, ev).
Proof.
  intros Hpre Hr. induction Hpre as [|x pre Hx _ IH]; simpl.
  - fold (matchesKey name r). rewrite Hr.
    now destruct (Release.updateUrl r _ _ _ _ _ _ _ _ _ _) as [[r' b] e].
  - fold (matchesKey name x). rewrite Hx, IH.
    now destruct (Release.updateUrl r _ _ _ _ _ _ _ _ _ _) as [[r' b] e].
Qed.

Lemma updateUrl_cases (m : t) :
  let res := updateUrl m name version status releaseDate architecture imageType
               board url sha256 md5 size in
  res = (m, false, []) \/
  exists pre r post r',
    m_releases m = pre ++ r :: post /\
    Forall (fun x => matchesKey name x = false) pre /\
    matchesKey name r = true /\
    fst (fst res) = set_releases m (pre ++ r' :: post) /\
    Release.updateUrl r version status releaseDate architecture imageType board
      url sha256 md5 size = (r', snd (fst res), snd res).
Proof.
  unfold updateUrl.
  destruct (negb _); [left; reflexivity|].
  destruct (ReleaseImageType.is_UNKNOWN _); [left; reflexivity|].
  destruct (updateUrl_loop _ _ _ _ _ _ _ _ _ _ _ _) as [[[l b] e]|] eqn:E;
    [|left; reflexivity].
  right. destruct (updateUrl_loop_Some _ _ _ _ E) as (pre & r & post & r' & H1 & -> & H3 & H4 & H5).
  exists pre, r, post, r'. simpl. repeat split; auto.
Qed.

End Targeting.

(** All releases of the catalog keep their versions in descending order. *)
Lemma ReleaseManager_updateUrl_descending (m : ReleaseManager.t)
    (name version status : string) (releaseDate : QDateTime)
    (architecture : string) (imageType : ReleaseImageType.Id)
    (board url sha256 md5 : string) (size : Z) :
  Forall (fun r => descending (Release.m_versions r)) (ReleaseManager.m_releases m) ->
  Forall (fun r => descending (Release.m_versions r))
    (ReleaseManager.m_releases
       (fst (fst (ReleaseManager.updateUrl m name version status releaseDate
                    architecture imageType board url sha256 md5 size)))).
Proof.
  intro H.
  destruct (updateUrl_cases name version status releaseDate architecture imageType
              board url sha256 md5 size m)
    as [-> | (pre & r & post & r' & Hm & _ & _ & -> & Hu)]; [exact H|].
  simpl. rewrite Hm in H. apply Forall_app in H. destruct H as [H1 H2].
  inversion H2; subst. apply Forall_app. split; auto. constructor; auto.
  pose proof (updateUrl_descending r version status releaseDate architecture
                imageType board url sha256 md5 size) as Hd.
  rewrite Hu in Hd. simpl in Hd. auto.
Qed.


(** ** Rejection of a status regression *)

Section Regression.

Variables (version status : string) (releaseDate : QDateTime)
  (architecture : string) (imageType : ReleaseImageType.Id)
  (board url sha256 md5 : string) (size : Z).

Lemma set_versions_same (r : Release.t) :
  Release.set_versions r (Release.m_versions r) (Release.m_selectedVersion r) = r.
Proof. now destruct r. Qed.

Lemma set_releases_same (m : ReleaseManager.t) :
  ReleaseManager.set_releases m (ReleaseManager.m_releases m) = m.
Proof. now destruct m. Qed.

(** The version loop applied to a list whose first version of this number is [v]. *)
Lemma updateUrl_scan_first (vpre vpost : list ReleaseVersion.t)
    (v : ReleaseVersion.t) (n : Z) :
  Forall (fun x => ReleaseVersion.m_number x <> version) vpre ->
  ReleaseVersion.m_number v = version ->
  Release.updateUrl_scan (vpre ++ v :: vpost) version status releaseDate
    architecture imageType board url sha256 md5 size n =
  let '(v', ret, ev) :=
    ReleaseVersion.updateUrl v status releaseDate architecture imageType board
      url sha256 md5 size in
  inl (vpre ++ v' :: vpost, ret, ev).
Proof.
  intros Hpre Hv. revert n. induction Hpre as [|x vpre Hx _ IH]; intro n; simpl.
  - rewrite (proj2 (String.eqb_eq _ _) Hv).
    now destruct (ReleaseVersion.updateUrl v _ _ _ _ _ _ _ _ _) as [[v' b] e].
  - rewrite (proj2 (String.eqb_neq _ _) Hx), IH.
    now destruct (ReleaseVersion.updateUrl v _ _ _ _ _ _ _ _ _) as [[v' b] e].
Qed.

Lemma ReleaseVersion_updateUrl_rejects (v : ReleaseVersion.t) :
  ReleaseVersion.Status_value (ReleaseVersion.m_status v)
    < ReleaseVersion.Status_value (ReleaseVersion.statusOfText status) ->
  ReleaseVersion.updateUrl v status releaseDate architecture imageType board url
    sha256 md5 size = (v, false, []).
Proof.
  intro H. unfold ReleaseVersion.updateUrl, ReleaseVersion.Status_leb.
  destruct (Z.leb_spec (ReleaseVersion.Status_value (ReleaseVersion.statusOfText status))
              (ReleaseVersion.Status_value (ReleaseVersion.m_status v)));
    [lia | reflexivity].
Qed.

Lemma Release_updateUrl_rejects (r : Release.t)
    (vpre vpost : list ReleaseVersion.t) (v : ReleaseVersion.t) :
  Release.m_versions r = vpre ++ v :: vpost ->
  Forall (fun x => ReleaseVersion.m_number x <> version) vpre ->
  ReleaseVersion.m_number v = version ->
  ReleaseVersion.Status_value (ReleaseVersion.m_status v)
    < ReleaseVersion.Status_value (ReleaseVersion.statusOfText status) ->
  Release.updateUrl r version status releaseDate architecture imageType board url
    sha256 md5 size = (r, false, []).
Proof.
  intros Hr Hpre Hv Hs. unfold Release.updateUrl.
  rewrite Hr, (updateUrl_scan_first vpre vpost v 0 Hpre Hv),
    (ReleaseVersion_updateUrl_rejects v Hs), <- Hr.
  now rewrite set_versions_same.
Qed.

End Regression.

(** C3. An update whose status text is less final than the current status
    of the version it targets is rejected as a whole: [ReleaseVersion::updateUrl]
    returns false, emits nothing and leaves the version, its status and all
    its variants as they were; in particular "alpha" (and "beta") on a FINAL
    version.  Through [ReleaseManager::updateUrl] the same holds of the whole
    catalog when the targeted version (the first of this number in the first
    matching release) is more final than the update. *)
Theorem status_regression_rejected :
  (forall v status releaseDate architecture imageType board url sha256 md5 size,
      ReleaseVersion.Status_value (ReleaseVersion.m_status v)
        < ReleaseVersion.Status_value (ReleaseVersion.statusOfText status) ->
      ReleaseVersion.updateUrl v status releaseDate architecture imageType board
        url sha256 md5 size = (v, false, [])) /\
  (forall v releaseDate architecture imageType board url sha256 md5 size,
      ReleaseVersion.m_status v = ReleaseVersion.FINAL ->
      ReleaseVersion.updateUrl v "alpha" releaseDate architecture imageType board
        url sha256 md5 size = (v, false, []) /\
      ReleaseVersion.updateUrl v "beta" releaseDate architecture imageType board
        url sha256 md5 size = (v, false, [])) /\
  (forall m pre r post vpre v vpost name version status releaseDate architecture
          imageType board url sha256 md5 size,
      ReleaseManager.m_releases m = pre ++ r :: post ->
      Forall (fun x => matchesKey name x = false) pre ->
      matchesKey name r = true ->
      Release.m_versions r = vpre ++ v :: vpost ->
      Forall (fun x => ReleaseVersion.m_number x <> version) vpre ->
      ReleaseVersion.m_number v = version ->
      ReleaseVersion.Status_value (ReleaseVersion.m_status v)
        < ReleaseVersion.Status_value (ReleaseVersion.statusOfText status) ->
      ReleaseManager.updateUrl m name version status releaseDate architecture
        imageType board url sha256 md5 size = (m, false, [])).
Proof.
  split; [|split].
  - intros. now apply ReleaseVersion_updateUrl_rejects.
  - intros v releaseDate architecture imageType board url sha256 md5 size Hf.
    split; apply ReleaseVersion_updateUrl_rejects; rewrite Hf; simpl; lia.
  - intros m pre r post vpre v vpost name version status releaseDate architecture
      imageType board url sha256 md5 size Hm Hpre Hr Hvs Hvpre Hv Hs.
    unfold ReleaseManager.updateUrl.
    destruct (negb _); [reflexivity|].
    destruct (ReleaseImageType.is_UNKNOWN _); [reflexivity|].
    rewrite Hm, (updateUrl_loop_first _ _ _ _ _ _ _ _ _ _ _ _ _ _ Hpre Hr),
      (Release_updateUrl_rejects _ _ _ _ _ _ _ _ _ _ _ _ _ _ Hvs Hvpre Hv Hs), <- Hm.
    now rewrite set_releases_same.
Qed.

Lemma status_regression_rejected_witness :
  let m := fst (fst (feed sampleCatalog "9" "0" "x86-64")) in
  feed m "9" "alpha" "x86-64" = (m, false, []).
Proof.
  destruct status_regression_rejected as (_ & _ & H).
  intro m. unfold feed.
  refine (H m [] _ _ [] _ _ "alt-workstation" "9" "alpha" None "x86-64"
            ReleaseImageType.ISO "PC" "http://getalt.org/alt.iso" "" "" 0
            eq_refl _ eq_refl eq_refl _ eq_refl _).
  - constructor.
  - constructor.
  - simpl. lia.
Defined.

(** ** Which release an update targets *)

Section KeyCase.

Lemma toLower_char_idem (c : ascii) :
  QString.toLower_char (QString.toLower_char c) = QString.toLower_char c.
Proof. destruct c as [[] [] [] [] [] [] [] []]; reflexivity. Qed.

(** A prefix of a lower-cased string is in lower case. *)
Lemma prefix_toLower (s sub : string) :
  String.prefix sub (QString.toLower s) = true -> QString.toLower sub = sub.
Proof.
  revert s; induction sub as [|c sub IH]; intros [|d s] H; simpl in *;
    try reflexivity; try discriminate.
  destruct (ascii_dec c (QString.toLower_char d)) as [-> | _]; [|discriminate].
  now rewrite toLower_char_idem, (IH s H).
Qed.

(** A substring of a lower-cased string is in lower case. *)
Lemma contains_toLower (s sub : string) :
  QString.contains (QString.toLower s) sub = true -> QString.toLower sub = sub.
Proof.
  induction s as [|d s IH]; simpl; intro H.
  - apply orb_true_iff in H. destruct H as [H | H]; [|discriminate].
    now apply (prefix_toLower "").
  - apply orb_true_iff in H. destruct H as [H | H]; [|now apply IH].
    now apply (prefix_toLower (String d s)).
Qed.

End KeyCase.

(** C6, the code at a key with an upper-case letter.
    [ReleaseManager::updateUrl] takes the first release, in catalog order,
    whose lower-cased name contains the key as the key is written: the case
    of the release name is ignored, the case of the key is not.  So a key in
    lower case matches exactly the releases whose name contains it without
    regard to case, a key with an upper-case letter matches no release, and
    an update whose key matches no release returns false, emits nothing and
    leaves the catalog as it was.  The key "ALT-Workstation", which the
    name "alt-workstation" contains up to case, is not matched: the update
    returns false, and the same update under the key in lower case is
    merged. *)
Theorem release_targeting :
  (forall m pre r post name version status releaseDate architecture imageType
          board url sha256 md5 size,
      ReleaseArchitecture.isKnown architecture = true ->
      ReleaseImageType.is_UNKNOWN imageType = false ->
      ReleaseManager.m_releases m = pre ++ r :: post ->
      Forall (fun x => matchesKey name x = false) pre ->
      matchesKey name r = true ->
      ReleaseManager.updateUrl m name version status releaseDate architecture
        imageType board url sha256 md5 size =
      let '(r', ret, ev) :=
        Release.updateUrl r version status releaseDate architecture imageType
          board url sha256 md5 size in
      (ReleaseManager.set_releases m (pre ++ r' :: post), ret, ev)) /\
  (forall m name version status releaseDate architecture imageType board url
          sha256 md5 size,
      Forall (fun x => matchesKey name x = false) (ReleaseManager.m_releases m) ->
      ReleaseManager.updateUrl m name version status releaseDate architecture
        imageType board url sha256 md5 size = (m, false, [])) /\
  (forall name r,
      QString.toLower name = name ->
      matchesKey name r = QString.contains_ci (Release.m_name r) name) /\
  (forall name r,
      QString.toLower name <> name -> matchesKey name r = false) /\
  (QString.contains_ci "alt-workstation" "ALT-Workstation" = true /\
   ReleaseManager.updateUrl sampleCatalog "ALT-Workstation" "9" "0" None "x86-64"
     ReleaseImageType.ISO "PC" "http://getalt.org/alt.iso" "" "" 0
   = (sampleCatalog, false, []) /\
   snd (fst (ReleaseManager.updateUrl sampleCatalog "alt-workstation" "9" "0" None
               "x86-64" ReleaseImageType.ISO "PC" "http://getalt.org/alt.iso" ""
               "" 0)) = true).
Proof.
  split; [|split; [|split; [|split; [|repeat split]]]].
  - intros m pre r post name version status releaseDate architecture imageType
      board url sha256 md5 size Hk Ht Hm Hpre Hr.
    rewrite (updateUrl_known_passes _ _ _ _ _ _ _ _ _ _ _ _ Hk Ht), Hm,
      (updateUrl_loop_first _ _ _ _ _ _ _ _ _ _ _ _ _ _ Hpre Hr).
    now destruct (Release.updateUrl r _ _ _ _ _ _ _ _ _ _) as [[r' b] e].
  - intros m name version status releaseDate architecture imageType board url
      sha256 md5 size H.
    unfold ReleaseManager.updateUrl.
    destruct (negb _); [reflexivity|].
    destruct (ReleaseImageType.is_UNKNOWN _); [reflexivity|].
    apply updateUrl_loop_None with (version := version) (status := status)
      (releaseDate := releaseDate) (architecture := architecture)
      (imageType := imageType) (board := board) (url := url) (sha256 := sha256)
      (md5 := md5) (size := size) in H.
    now rewrite H.
  - intros name r H. unfold matchesKey, QString.contains_ci. now rewrite H.
  - intros name r H. unfold matchesKey.
    destruct (QString.contains _ name) eqn:E; [|reflexivity].
    apply contains_toLower in E. contradiction.
Qed.

Lemma release_targeting_witness :
  feed sampleCatalog "9" "0" "x86-64" =
  let '(r', ret, ev) :=
    Release.updateUrl emptyRelease "9" "0" None "x86-64" ReleaseImageType.ISO
      "PC" "http://getalt.org/alt.iso" "" "" 0 in
  (ReleaseManager.set_releases sampleCatalog
     ([] ++ r' :: [Release.new "alt-server" "ALT Server" "" "" "" [];
                   ReleaseListModel.customRelease]),
   ret, ev).
Proof.
  destruct release_targeting as (H & _).
  unfold feed.
  refine (H sampleCatalog [] emptyRelease _ "alt-workstation" "9" "0" None
            "x86-64" ReleaseImageType.ISO "PC" "http://getalt.org/alt.iso" "" "" 0
            eq_refl eq_refl eq_refl _ eq_refl).
  constructor.
Defined.

(** ** What the return value of the merge reports *)

Section ReturnValue.




Lemma QList_insert_length {A : Type} (i : nat) (x : A) (l : list A) :
  List.length (QList_insert i x l) = S (List.length l).
Proof.
  unfold QList_insert. rewrite length_app. simpl.
  rewrite <- (firstn_skipn i l) at 3. rewrite length_app. lia.
Qed.

(** An accepted [ReleaseVersion::updateUrl], step by step. *)
Lemma ReleaseVersion_updateUrl_accepted (v : ReleaseVersion.t) (status : string)
    (releaseDate : QDateTime) (architecture : string)
    (imageType : ReleaseImageType.Id) (board url sha256 md5 : string) (size : Z) :
  ReleaseVersion.Status_leb (ReleaseVersion.statusOfText status)
    (ReleaseVersion.m_status v) = true ->
  let v2 := afterStatusAndDate v status releaseDate in
  let ev2 := statusAndDateSignals v status releaseDate in
  let arch := ReleaseArchitecture.fromAbbreviation architecture in
  ReleaseVersion.updateUrl v status releaseDate architecture imageType board url
    sha256 md5 size =
  match ReleaseVersion.updateUrl_find (ReleaseVersion.m_variants v) arch board
          url sha256 size with
  | Some (l, changed, ev) => (ReleaseVersion.set_variants v2 l, changed, ev2 ++ ev)
  | None =>
      (ReleaseVersion.set_variants v2
         (QList_insert (ReleaseVersion.updateUrl_order (ReleaseVersion.m_variants v) arch 0)
            (ReleaseVariant.new url sha256 md5 size arch imageType board)
            (ReleaseVersion.m_variants v)),
       true, ev2)
  end.
Proof.
  intro Hs. unfold ReleaseVersion.updateUrl, afterStatusAndDate, statusAndDateSignals.
  rewrite Hs. cbn [ReleaseVersion.set_status ReleaseVersion.m_releaseDate].
  destruct (negb _ && isValid releaseDate);
    cbn [ReleaseVersion.set_releaseDate ReleaseVersion.m_variants];
    destruct (ReleaseVersion.updateUrl_find _ _ _ _ _ _) as [[[l b] e]|];
    rewrite ?app_nil_r; reflexivity.
Qed.

Lemma afterStatusAndDate_frame (v : ReleaseVersion.t) (status : string)
    (releaseDate : QDateTime) :
  let v2 := afterStatusAndDate v status releaseDate in
  eraseVersion v2 = eraseVersion v /\
  ReleaseVersion.m_variants v2 = ReleaseVersion.m_variants v /\
  ReleaseVersion.m_number v2 = ReleaseVersion.m_number v /\
  ReleaseVersion.m_selectedVariant v2 = ReleaseVersion.m_selectedVariant v /\
  ReleaseVersion.m_status v2 = ReleaseVersion.statusOfText status.
Proof.
  unfold afterStatusAndDate. destruct (negb _ && isValid releaseDate); repeat split.
Qed.



Lemma QList_removeAt_keeps {A : Type} (l : list A) (idx p : nat) (x : A) :
  nth_error l p = Some x -> idx <> p -> In x (QList_removeAt idx l).
Proof.
  intros Hx Hne. destruct (Nat.lt_ge_cases idx (List.length l)) as [Hi | Hi].
  - destruct (split_at idx l Hi) as (pre & y & post & -> & <-).
    rewrite QList_removeAt_app. apply in_or_app.
    destruct (Nat.lt_ge_cases p (List.length pre)) as [Hp | Hp].
    + left. rewrite nth_error_app1 in Hx by exact Hp. eapply nth_error_In; eauto.
    + right. rewrite nth_error_app2 in Hx by exact Hp.
      destruct (p - List.length pre)%nat as [|q] eqn:Eq; [lia|].
      simpl in Hx. eapply nth_error_In; eauto.
  - unfold QList_removeAt. rewrite firstn_all2, skipn_all2, app_nil_r by lia.
    eapply nth_error_In; eauto.
Qed.

(** The eviction scan returns the pointer it was started with, or a version
    whose number is below the minimum it was started with. *)
Lemma updateUrl_min_spec (vs : list ReleaseVersion.t) (i : nat) (min : string)
    (oldVer : option nat) (k : nat) :
  Release.updateUrl_min vs i min oldVer = Some k ->
  oldVer = Some k \/
  exists j v, k = (i + j)%nat /\ nth_error vs j = Some v /\
              QString.lt (ReleaseVersion.m_number v) min = true.
Proof.
  revert i min oldVer; induction vs as [|v vs IH]; intros i min oldVer H; simpl in H.
  - now left.
  - destruct (QString.lt (ReleaseVersion.m_number v) min) eqn:E.
    + right. destruct (IH _ _ _ H) as [Hk | (j & w & -> & Hw & Hlt)].
      * injection Hk as <-. exists 0%nat, v. repeat split; auto; lia.
      * exists (S j), w. split; [lia|]. split; [exact Hw|]. eapply lt_trans; eauto.
    + destruct (IH _ _ _ H) as [Hk | (j & w & -> & Hw & Hlt)]; [now left|].
      right. exists (S j), w. repeat split; auto; lia.
Qed.

Section ReleaseReturn.

Variables (version status : string) (releaseDate : QDateTime)
  (architecture : string) (imageType : ReleaseImageType.Id)
  (board url sha256 md5 : string) (size : Z).

Lemma updateUrl_scan_inr (vs : list ReleaseVersion.t) (n k : Z) :
  Release.updateUrl_scan vs version status releaseDate architecture imageType
    board url sha256 md5 size n = inr k ->
  Forall (fun x => ReleaseVersion.m_number x <> version) vs.
Proof.
  revert n; induction vs as [|v vs IH]; intros n H; simpl in H; [constructor|].
  destruct (String.eqb (ReleaseVersion.m_number v) version) eqn:E.
  - now destruct (ReleaseVersion.updateUrl v _ _ _ _ _ _ _ _ _) as [[v' b] e].
  - destruct (Release.updateUrl_scan vs _ _ _ _ _ _ _ _ _ _ _) as [[[l' b] e]|k'] eqn:El;
      [discriminate|].
    injection H as <-.
    constructor; [now apply String.eqb_neq | eapply IH; exact El].
Qed.




(** A record that names a number which the release does not hold returns true. *)
Lemma Release_updateUrl_created (r r' : Release.t) (n : Z) (ret : bool)
    (ev : list Signal) :
  Release.updateUrl_scan (Release.m_versions r) version status releaseDate
    architecture imageType board url sha256 md5 size 0 = inr n ->
  Release.updateUrl r version status releaseDate architecture imageType board url
    sha256 md5 size = (r', ret, ev) ->
  ret = true.
Proof.
  intros E. unfold Release.updateUrl. rewrite E.
  cbn [ReleaseVersion.new ReleaseVersion.addVariant].
  destruct (Release.addVersion r _) as [r1 ev2].
  destruct (2 <? _).
  - destruct (Release.removeVersion r1 _) as [r2 ev3].
    intro H. now injection H as _ <- _.
  - intro H. now injection H as _ <- _.
Qed.

End ReleaseReturn.

End ReturnValue.




(** The other direction of the return value: a record that names a version
    below "0" (here the empty number) on a release with two FINAL versions
    returns true and leaves the catalog as it was, the new version being
    evicted by the call that created it. *)
Example merge_returns_true_without_change :
  let '(m, ret, _) := feed catalog3839 "" "0" "x86-64" in
  ret = true /\ m = catalog3839.
Proof. split; reflexivity. Qed.

(** ** Retention of FINAL versions *)

(** The eviction scan starts from the minimum "0": it selects nothing when
    no version number is string-less than "0". *)
Lemma updateUrl_min_nothing (vs : list ReleaseVersion.t) (i : nat) :
  Forall (fun v => QString.lt (ReleaseVersion.m_number v) "0" = false) vs ->
  Release.updateUrl_min vs i "0" None = None.
Proof.
  intro H. revert i. induction H as [|v vs Hv _ IH]; intro i; simpl.
  - reflexivity.
  - rewrite Hv. apply IH.
Qed.

(** ** Signals of a repeated or partial update *)

(** An accepted update of a version emits [statusChanged] first, whether or
    not the status changes. *)
Lemma ReleaseVersion_updateUrl_emits_statusChanged (v : ReleaseVersion.t)
    (status : string) (releaseDate : QDateTime) (architecture : string)
    (imageType : ReleaseImageType.Id) (board url sha256 md5 : string) (size : Z) :
  ReleaseVersion.Status_leb (ReleaseVersion.statusOfText status)
    (ReleaseVersion.m_status v) = true ->
  exists ev,
    snd (ReleaseVersion.updateUrl v status releaseDate architecture imageType
           board url sha256 md5 size) = statusChanged :: ev.
Proof.
  intro Hs.
  rewrite (ReleaseVersion_updateUrl_accepted v status releaseDate architecture
             imageType board url sha256 md5 size Hs).
  unfold statusAndDateSignals.
  destruct (ReleaseVersion.updateUrl_find _ _ _ _ _ _) as [[[l b] e]|];
    simpl; eauto.
Qed.

(** [ReleaseVariant::updateUrl] on an update that brings a new hash only:
    the hash is taken, the other fields stay, one signal is emitted. *)
Lemma ReleaseVariant_updateUrl_hash_only (x : ReleaseVariant.t)
    (url sha256 : string) (size : Z) :
  QString.isEmpty url = true \/ QString.trimmed (ReleaseVariant.m_url x) = QString.trimmed url ->
  size = 0 \/ ReleaseVariant.m_size x = size ->
  QString.isEmpty sha256 = false ->
  QString.trimmed (ReleaseVariant.m_shaHash x) <> QString.trimmed sha256 ->
  ReleaseVariant.updateUrl x url sha256 size
  = (ReleaseVariant.set_shaHash x sha256, true, [shaHashChanged]).
Proof.
  intros Hurl Hsize Hne Hsha. unfold ReleaseVariant.updateUrl.
  assert (E1 : negb (QString.isEmpty url)
               && negb (String.eqb (QString.trimmed (ReleaseVariant.m_url x))
                          (QString.trimmed url)) = false).
  { destruct Hurl as [-> | ->]; [reflexivity|].
    rewrite String.eqb_refl. apply andb_false_r. }
  rewrite E1, Hne. apply String.eqb_neq in Hsha. rewrite Hsha. simpl.
  assert (E3 : negb (size =? 0) && negb (ReleaseVariant.m_size x =? size) = false).
  { destruct Hsize as [-> | ->]; [reflexivity|].
    rewrite Z.eqb_refl. apply andb_false_r. }
  now rewrite E3.
Qed.

(** C9, the code at an update that brings a new hash only.  The variant
    keeps its url and its size and [ReleaseVariant::updateUrl] emits
    [shaHashChanged] alone; the update as a whole, through
    [ReleaseVersion::updateUrl], emits [statusChanged] and
    [prereleaseChanged] before it, although the status does not change. *)
Theorem hash_only_update_signals :
  (forall x url sha256 size,
      QString.isEmpty url = true
        \/ QString.trimmed (ReleaseVariant.m_url x) = QString.trimmed url ->
      size = 0 \/ ReleaseVariant.m_size x = size ->
      QString.isEmpty sha256 = false ->
      QString.trimmed (ReleaseVariant.m_shaHash x) <> QString.trimmed sha256 ->
      ReleaseVariant.updateUrl x url sha256 size
      = (ReleaseVariant.set_shaHash x sha256, true, [shaHashChanged])) /\
  (forall v status releaseDate architecture imageType board url sha256 md5 size,
      ReleaseVersion.Status_leb (ReleaseVersion.statusOfText status)
        (ReleaseVersion.m_status v) = true ->
      exists ev,
        snd (ReleaseVersion.updateUrl v status releaseDate architecture imageType
               board url sha256 md5 size) = statusChanged :: ev) /\
  (let '(m, ret, ev) :=
     ReleaseManager.updateUrl catalog9 "alt-workstation" "9" "0" None "x86-64"
       ReleaseImageType.ISO "PC" "http://getalt.org/alt.iso" "3a7b" "" 0 in
   ret = true /\
   ev = [statusChanged; prereleaseChanged; shaHashChanged] /\
   option_map
     (fun r =>
        map (fun v =>
               (ReleaseVersion.m_status v,
                map (fun x => (ReleaseVariant.m_url x, ReleaseVariant.m_shaHash x,
                               ReleaseVariant.m_size x))
                  (ReleaseVersion.m_variants v)))
          (Release.m_versions r))
     (firstRelease m)
   = Some [(ReleaseVersion.FINAL, [("http://getalt.org/alt.iso", "3a7b", 0)])]).
Proof.
  split; [exact ReleaseVariant_updateUrl_hash_only|].
  split; [exact ReleaseVersion_updateUrl_emits_statusChanged|].
  repeat split.
Qed.

Lemma hash_only_update_signals_witness :
  ReleaseVariant.updateUrl
    (ReleaseVariant.new "http://getalt.org/alt.iso" "" "" 0
       (Some ReleaseArchitecture.X86_64) ReleaseImageType.ISO "PC")
    "" "3a7b" 0
  = (ReleaseVariant.new "http://getalt.org/alt.iso" "3a7b" "" 0
       (Some ReleaseArchitecture.X86_64) ReleaseImageType.ISO "PC",
     true, [shaHashChanged]).
Proof.
  apply (proj1 hash_only_update_signals
           (ReleaseVariant.new "http://getalt.org/alt.iso" "" "" 0
              (Some ReleaseArchitecture.X86_64) ReleaseImageType.ISO "PC")
           "" "3a7b" 0).
  - left. reflexivity.
  - left. reflexivity.
  - reflexivity.
  - simpl. discriminate.
Defined.

(** ** The selection setters *)

(** C7, the code at an index outside the list.  The two setters test that the
    stored index is in range, not the new one: from a valid selection any
    integer is accepted.  On a version with one variant, selected,
    [setSelectedVariantIndex(5)] stores 5 and [selectedVariant] is null
    though the list is not empty; the same on a release with
    [setSelectedVersionIndex(-1)]. *)
Theorem selection_setters_unchecked :
  (forall v o,
      0 <= ReleaseVersion.m_selectedVariant v
        < QList_count (ReleaseVersion.m_variants v) ->
      ReleaseVersion.m_selectedVariant
        (fst (ReleaseVersion.setSelectedVariantIndex v o)) = o) /\
  (forall r o,
      0 <= Release.m_selectedVersion r < QList_count (Release.m_versions r) ->
      Release.m_selectedVersion (fst (Release.setSelectedVersionIndex r o)) = o) /\
  (let v := fst (ReleaseVersion.setSelectedVariantIndex oneVariantVersion 5) in
   ReleaseVersion.m_selectedVariant v = 5 /\
   ReleaseVersion.m_variants v <> [] /\
   ReleaseVersion.selectedVariant v = None) /\
  (let r := fst (Release.setSelectedVersionIndex oneVersionRelease (-1)) in
   Release.m_selectedVersion r = -1 /\
   Release.m_versions r <> [] /\
   Release.selectedVersion r = None).
Proof.
  split; [|split; [|split]].
  - intros v o [H0 H1]. unfold ReleaseVersion.setSelectedVariantIndex.
    apply Z.leb_le in H0. apply Z.ltb_lt in H1. rewrite H0, H1.
    destruct (Z.eqb_spec (ReleaseVersion.m_selectedVariant v) o); simpl; auto.
  - intros r o [H0 H1]. unfold Release.setSelectedVersionIndex.
    apply Z.leb_le in H0. apply Z.ltb_lt in H1. rewrite H0, H1.
    destruct (Z.eqb_spec (Release.m_selectedVersion r) o); simpl; auto.
  - repeat split. discriminate.
  - repeat split. discriminate.
Qed.

Lemma selection_setters_unchecked_witness :
  ReleaseVersion.m_selectedVariant
    (fst (ReleaseVersion.setSelectedVariantIndex oneVariantVersion 1000)) = 1000.
Proof.
  apply (proj1 selection_setters_unchecked). simpl. unfold QList_count. simpl. lia.
Defined.

(** ** Applying a record twice *)

Section Idempotence.

Lemma Status_leb_refl (s : ReleaseVersion.Status) : ReleaseVersion.Status_leb s s = true.
Proof. unfold ReleaseVersion.Status_leb. apply Z.leb_refl. Qed.

Lemma QDateTime_eqb_refl (d : QDateTime) : QDateTime_eqb d d = true.
Proof. destruct d; simpl; [apply Z.eqb_refl | reflexivity]. Qed.

(** A second [ReleaseVariant::updateUrl] with the same arguments changes nothing. *)
Lemma ReleaseVariant_updateUrl_twice (x x1 : ReleaseVariant.t) (url sha256 : string)
    (size : Z) (ret : bool) (ev : list Signal) :
  ReleaseVariant.updateUrl x url sha256 size = (x1, ret, ev) ->
  ReleaseVariant.updateUrl x1 url sha256 size = (x1, false, []) /\
  ReleaseVariant.m_arch x1 = ReleaseVariant.m_arch x /\
  ReleaseVariant.m_board x1 = ReleaseVariant.m_board x.
Proof.
  destruct x as [ti im ar ty bo ur sh md sz rs st er].
  unfold ReleaseVariant.updateUrl, ReleaseVariant.set_url,
    ReleaseVariant.set_shaHash, ReleaseVariant.set_size. simpl.
  destruct (negb (QString.isEmpty url) && _) eqn:E1; simpl;
    destruct (negb (QString.isEmpty sha256) && _) eqn:E2; simpl;
    destruct (negb (size =? 0) && _) eqn:E3; simpl;
    intro H; injection H as <- _ _; simpl;
    rewrite ?String.eqb_refl, ?Z.eqb_refl, ?andb_false_r, ?E1, ?E2, ?E3; simpl;
    rewrite ?String.eqb_refl, ?Z.eqb_refl, ?andb_false_r, ?E1, ?E2, ?E3; simpl;
    rewrite ?String.eqb_refl, ?Z.eqb_refl, ?andb_false_r, ?E1, ?E2, ?E3; simpl;
    repeat split.
Qed.

(** The variant built from the arguments of an update is left alone by this update. *)
Lemma ReleaseVariant_updateUrl_new (url sha256 md5 : string) (size : Z)
    (arch : option ReleaseArchitecture.Id) (imageType : ReleaseImageType.Id)
    (board : string) :
  ReleaseVariant.updateUrl
    (ReleaseVariant.new url sha256 md5 size arch imageType board) url sha256 size
  = (ReleaseVariant.new url sha256 md5 size arch imageType board, false, []).
Proof.
  unfold ReleaseVariant.updateUrl, ReleaseVariant.new.
  cbn [ReleaseVariant.m_url]. rewrite String.eqb_refl, andb_false_r.
  cbn [ReleaseVariant.m_shaHash]. rewrite String.eqb_refl, andb_false_r.
  cbn [ReleaseVariant.m_size]. now rewrite Z.eqb_refl, andb_false_r.
Qed.

Section Variants.

Variables (arch : option ReleaseArchitecture.Id) (board url sha256 : string)
  (size : Z).

Local Abbreviation variantMatches := (variantMatches arch board).

Lemma updateUrl_find_None (vs : list ReleaseVariant.t) :
  ReleaseVersion.updateUrl_find vs arch board url sha256 size = None ->
  Forall (fun x => variantMatches x = false) vs.
Proof.
  induction vs as [|x vs IH]; simpl; intro H; [constructor|].
  fold (variantMatches x) in H. destruct (variantMatches x) eqn:E.
  - now destruct (ReleaseVariant.updateUrl x url sha256 size) as [[x' b] e].
  - destruct (ReleaseVersion.updateUrl_find vs _ _ _ _ _) as [[[l b] e]|];
      [discriminate|].
    constructor; auto.
Qed.

Lemma updateUrl_find_first (pre post : list ReleaseVariant.t) (x : ReleaseVariant.t) :
  Forall (fun y => variantMatches y = false) pre ->
  variantMatches x = true ->
  ReleaseVersion.updateUrl_find (pre ++ x :: post) arch board url sha256 size =
  let '(x', changed, ev) := ReleaseVariant.updateUrl x url sha256 size in
  Some (pre ++ x' :: post, changed, ev).
Proof.
  intros Hpre Hx. induction Hpre as [|y pre Hy _ IH]; simpl.
  - fold (variantMatches x). rewrite Hx.
    now destruct (ReleaseVariant.updateUrl x url sha256 size) as [[x' b] e].
  - fold (variantMatches y). rewrite Hy, IH.
    now destruct (ReleaseVariant.updateUrl x url sha256 size) as [[x' b] e].
Qed.

Lemma updateUrl_find_twice (vs l : list ReleaseVariant.t) (ret : bool)
    (ev : list Signal) :
  ReleaseVersion.updateUrl_find vs arch board url sha256 size = Some (l, ret, ev) ->
  ReleaseVersion.updateUrl_find l arch board url sha256 size = Some (l, false, []).
Proof.
  revert l ret ev; induction vs as [|x vs IH]; intros l ret ev H; simpl in H;
    [discriminate|].
  fold (variantMatches x) in H. destruct (variantMatches x) eqn:E.
  - destruct (ReleaseVariant.updateUrl x url sha256 size) as [[x' b] e] eqn:Ex.
    injection H as <- _ _.
    destruct (ReleaseVariant_updateUrl_twice _ _ _ _ _ _ _ Ex) as (H1 & Ha & Hb).
    simpl. fold (variantMatches x').
    assert (E' : variantMatches x' = true).
    { unfold variantMatches in *. now rewrite Ha, Hb. }
    now rewrite E', H1.
  - destruct (ReleaseVersion.updateUrl_find vs _ _ _ _ _) as [[[l' b] e]|] eqn:El;
      [|discriminate].
    injection H as <- _ _. simpl. fold (variantMatches x).
    now rewrite E, (IH _ _ _ eq_refl).
Qed.

End Variants.

Lemma afterStatusAndDate_twice (v : ReleaseVersion.t) (status : string)
    (releaseDate : QDateTime) (l : list ReleaseVariant.t) :
  afterStatusAndDate
    (ReleaseVersion.set_variants (afterStatusAndDate v status releaseDate) l)
    status releaseDate
  = ReleaseVersion.set_variants (afterStatusAndDate v status releaseDate) l.
Proof.
  destruct v as [nu st da va se]. unfold afterStatusAndDate. simpl.
  destruct (negb (QDateTime_eqb da releaseDate) && isValid releaseDate) eqn:E;
    simpl; rewrite ?QDateTime_eqb_refl, ?E; reflexivity.
Qed.

(** A second [ReleaseVersion::updateUrl] with the same arguments leaves the
    version as the first one made it, and returns false. *)
Lemma ReleaseVersion_updateUrl_twice (v v1 : ReleaseVersion.t) (status : string)
    (releaseDate : QDateTime) (architecture : string)
    (imageType : ReleaseImageType.Id) (board url sha256 md5 : string) (size : Z)
    (ret : bool) (ev : list Signal) :
  ReleaseVersion.updateUrl v status releaseDate architecture imageType board url
    sha256 md5 size = (v1, ret, ev) ->
  exists ev',
    ReleaseVersion.updateUrl v1 status releaseDate architecture imageType board
      url sha256 md5 size = (v1, false, ev').
Proof.
  destruct (ReleaseVersion.Status_leb (ReleaseVersion.statusOfText status)
              (ReleaseVersion.m_status v)) eqn:Hs.
  - rewrite (ReleaseVersion_updateUrl_accepted v status releaseDate architecture
               imageType board url sha256 md5 size Hs).
    destruct (afterStatusAndDate_frame v status releaseDate) as (_ & _ & _ & _ & Hst).
    set (arch := ReleaseArchitecture.fromAbbreviation architecture).
    assert (Hacc : forall l,
      ReleaseVersion.Status_leb (ReleaseVersion.statusOfText status)
        (ReleaseVersion.m_status
           (ReleaseVersion.set_variants (afterStatusAndDate v status releaseDate) l))
      = true).
    { intro l. cbn [ReleaseVersion.set_variants ReleaseVersion.m_status].
      rewrite Hst. apply Status_leb_refl. }
    destruct (ReleaseVersion.updateUrl_find _ _ _ _ _ _) as [[[l b] e]|] eqn:E.
    + intro H; injection H as <- _ _.
      rewrite (ReleaseVersion_updateUrl_accepted _ status releaseDate architecture
                 imageType board url sha256 md5 size (Hacc l)).
      rewrite afterStatusAndDate_twice.
      cbn [ReleaseVersion.set_variants ReleaseVersion.m_variants]. fold arch.
      rewrite (updateUrl_find_twice _ _ _ _ _ _ _ _ _ E).
      eexists. reflexivity.
    + intro H; injection H as <- _ _.
      rewrite (ReleaseVersion_updateUrl_accepted _ status releaseDate architecture
                 imageType board url sha256 md5 size (Hacc _)).
      rewrite afterStatusAndDate_twice.
      cbn [ReleaseVersion.set_variants ReleaseVersion.m_variants]. fold arch.
      apply updateUrl_find_None in E.
      rewrite <- (firstn_skipn (ReleaseVersion.updateUrl_order
                     (ReleaseVersion.m_variants v) arch 0)
                    (ReleaseVersion.m_variants v)) in E.
      apply Forall_app in E. destruct E as [E _].
      unfold QList_insert at 1.
      rewrite (updateUrl_find_first arch board url sha256 size _ _ _ E).
      * rewrite ReleaseVariant_updateUrl_new. eexists. reflexivity.
      * unfold variantMatches, ReleaseVariant.new. simpl.
        now rewrite ptr_eqb_refl, String.eqb_refl.
  - unfold ReleaseVersion.updateUrl at 1. rewrite Hs.
    intro H; injection H as <- _ _.
    unfold ReleaseVersion.updateUrl. rewrite Hs. eexists. reflexivity.
Qed.

(** The version built from the arguments of an update is left alone by this update. *)
Lemma ReleaseVersion_updateUrl_new (version status : string)
    (releaseDate : QDateTime) (architecture : string)
    (imageType : ReleaseImageType.Id) (board url sha256 md5 : string) (size : Z) :
  let ver :=
    fst (ReleaseVersion.addVariant
           (fst (ReleaseVersion.new version (ReleaseVersion.statusOfText status)
                   releaseDate))
           (ReleaseVariant.new url sha256 md5 size
              (ReleaseArchitecture.fromAbbreviation architecture) imageType board)) in
  exists ev',
    ReleaseVersion.updateUrl ver status releaseDate architecture imageType board
      url sha256 md5 size = (ver, false, ev').
Proof.
  intro ver.
  assert (Hs : ReleaseVersion.Status_leb (ReleaseVersion.statusOfText status)
                 (ReleaseVersion.m_status ver) = true) by apply Status_leb_refl.
  rewrite (ReleaseVersion_updateUrl_accepted ver status releaseDate architecture
             imageType board url sha256 md5 size Hs).
  assert (Hv2 : afterStatusAndDate ver status releaseDate = ver).
  { unfold afterStatusAndDate, ver. simpl. now rewrite QDateTime_eqb_refl. }
  rewrite Hv2. unfold ver at 1. simpl.
  rewrite ptr_eqb_refl, String.eqb_refl. simpl.
  rewrite ReleaseVariant_updateUrl_new. eexists. reflexivity.
Qed.

Lemma QList_removeAt_cons {A : Type} (i : nat) (a : A) (l : list A) :
  QList_removeAt (S i) (a :: l) = a :: QList_removeAt i l.
Proof. reflexivity. Qed.

Lemma QList_removeAt_skip {A : Type} (pre l : list A) (k : nat) :
  QList_removeAt (List.length pre + k) (pre ++ l) = pre ++ QList_removeAt k l.
Proof.
  induction pre as [|a pre IH]; [reflexivity|].
  change (QList_removeAt (S (List.length pre + k)) (a :: (pre ++ l))
          = a :: (pre ++ QList_removeAt k l)).
  now rewrite QList_removeAt_cons, IH.
Qed.

(** Removing another position than that of [x] keeps [x], after a prefix
    that is a part of the old one. *)
Lemma QList_removeAt_other {A : Type} (pre post : list A) (x : A) (idx : nat) :
  idx <> List.length pre ->
  exists pre' post',
    QList_removeAt idx (pre ++ x :: post) = pre' ++ x :: post' /\
    forall P : A -> Prop, Forall P pre -> Forall P pre'.
Proof.
  intro Hne. destruct (Nat.lt_ge_cases idx (List.length pre)) as [Hlt | Hge].
  - destruct (split_at idx pre Hlt) as (p1 & y & p2 & -> & <-).
    rewrite <- app_assoc. simpl. rewrite QList_removeAt_app.
    exists (p1 ++ p2), post. rewrite <- app_assoc. split; [reflexivity|].
    intros P HP. apply Forall_app in HP. destruct HP as [H1 H2].
    inversion H2; subst. apply Forall_app; auto.
  - replace idx with (List.length pre + S (idx - List.length pre - 1))%nat by lia.
    rewrite QList_removeAt_skip, QList_removeAt_cons.
    exists pre, (QList_removeAt (idx - List.length pre - 1) post). auto.
Qed.

(** A pointer that the eviction scan holds at the end was never replaced:
    no later version is below the minimum. *)
Lemma updateUrl_min_kept (post : list ReleaseVersion.t) (i j : nat) (min : string) :
  (i < j)%nat ->
  Release.updateUrl_min post j min (Some i) = Some i ->
  Forall (fun w => QString.lt (ReleaseVersion.m_number w) min = false) post.
Proof.
  revert j; induction post as [|w post IH]; intros j Hij H; simpl in H; [constructor|].
  destruct (QString.lt (ReleaseVersion.m_number w) min) eqn:E.
  - exfalso. destruct (updateUrl_min_spec _ _ _ _ _ H) as [Hk | (q & _ & Hq & _)].
    + injection Hk as Hk. lia.
    + lia.
  - constructor; [exact E|]. apply (IH (S j)); [lia | exact H].
Qed.

(** When the scan ends on the version at a position, the versions after it
    are not below it. *)
Lemma updateUrl_min_evicts (pre post : list ReleaseVersion.t) (v : ReleaseVersion.t)
    (i : nat) (min : string) (oldVer : option nat) :
  (forall k, oldVer = Some k -> (k < i)%nat) ->
  Release.updateUrl_min (pre ++ v :: post) i min oldVer = Some (i + List.length pre)%nat ->
  Forall (fun w => QString.lt (ReleaseVersion.m_number w) (ReleaseVersion.m_number v) = false)
    post.
Proof.
  revert i min oldVer; induction pre as [|a pre IH]; intros i min oldVer Hold H.
  - simpl in H. rewrite Nat.add_0_r in H.
    destruct (QString.lt (ReleaseVersion.m_number v) min) eqn:E.
    + apply (updateUrl_min_kept post i (S i)); [lia | exact H].
    + exfalso. destruct (updateUrl_min_spec _ _ _ _ _ H) as [Hk | (q & _ & Hq & _)].
      * specialize (Hold _ Hk). lia.
      * lia.
  - simpl in H.
    replace (i + S (List.length pre))%nat with (S i + List.length pre)%nat in H by lia.
    destruct (QString.lt (ReleaseVersion.m_number a) min).
    + apply (IH (S i) (ReleaseVersion.m_number a) (Some i)); [|exact H].
      intros k Hk. injection Hk as <-. lia.
    + apply (IH (S i) min oldVer); [|exact H].
      intros k Hk. specialize (Hold _ Hk). lia.
Qed.

Lemma addVersion_pos_append (vs : list ReleaseVersion.t) (n : string) (i : nat) :
  Forall (fun x => QString.lt (ReleaseVersion.m_number x) n = false) vs ->
  Release.addVersion_pos vs n i = None.
Proof.
  intro H. revert i. induction H as [|x vs Hx _ IH]; intro i; simpl; [reflexivity|].
  rewrite Hx. apply IH.
Qed.

Section Releases.

Variables (version status : string) (releaseDate : QDateTime)
  (architecture : string) (imageType : ReleaseImageType.Id)
  (board url sha256 md5 : string) (size : Z).

Local Abbreviation ver :=
  (newVersion version status releaseDate architecture imageType board url sha256
     md5 size).

Local Abbreviation Release_updateUrl r :=
  (Release.updateUrl r version status releaseDate architecture imageType board
     url sha256 md5 size).

Lemma updateUrl_scan_twice (vs l : list ReleaseVersion.t) (n n' : Z) (ret : bool)
    (ev : list Signal) :
  Release.updateUrl_scan vs version status releaseDate architecture imageType
    board url sha256 md5 size n = inl (l, ret, ev) ->
  exists ev',
    Release.updateUrl_scan l version status releaseDate architecture imageType
      board url sha256 md5 size n' = inl (l, false, ev').
Proof.
  revert l n n' ret ev; induction vs as [|v vs IH]; intros l n n' ret ev H;
    simpl in H; [discriminate|].
  destruct (String.eqb (ReleaseVersion.m_number v) version) eqn:E.
  - pose proof (ReleaseVersion_updateUrl_number v status releaseDate architecture
                  imageType board url sha256 md5 size) as Hn.
    destruct (ReleaseVersion.updateUrl v _ _ _ _ _ _ _ _ _) as [[v' b] e] eqn:Ev.
    injection H as <- _ _. simpl in Hn. simpl. rewrite Hn, E.
    destruct (ReleaseVersion_updateUrl_twice _ _ _ _ _ _ _ _ _ _ _ _ _ Ev) as [ev' ->].
    eexists. reflexivity.
  - destruct (Release.updateUrl_scan vs _ _ _ _ _ _ _ _ _ _ _) as [[[l' b] e]|k] eqn:El;
      [|discriminate].
    injection H as <- _ _. simpl. rewrite E.
    destruct (IH _ _ (if ReleaseVersion.is_FINAL (ReleaseVersion.m_status v)
                      then n' + 1 else n') _ _ El) as [ev' ->].
    eexists. reflexivity.
Qed.

(** The update of a release that holds the version this update builds. *)
Lemma Release_updateUrl_holds_new (r : Release.t) (pre post : list ReleaseVersion.t) :
  Release.m_versions r = pre ++ ver :: post ->
  Forall (fun x => ReleaseVersion.m_number x <> version) pre ->
  exists ev', Release_updateUrl r = (r, false, ev').
Proof.
  intros Hr Hpre. unfold Release.updateUrl.
  rewrite Hr, (updateUrl_scan_first version status releaseDate architecture
                 imageType board url sha256 md5 size pre post ver 0 Hpre eq_refl).
  destruct (ReleaseVersion_updateUrl_new version status releaseDate architecture
              imageType board url sha256 md5 size) as [ev' Hv].
  fold ver in Hv. rewrite Hv, <- Hr, set_versions_same. eexists. reflexivity.
Qed.

(** The update of a release that does not hold the version number. *)
Lemma Release_updateUrl_fresh (r : Release.t) (n : Z) :
  Release.updateUrl_scan (Release.m_versions r) version status releaseDate
    architecture imageType board url sha256 md5 size 0 = inr n ->
  fst (fst (Release_updateUrl r)) =
  let r1 := fst (Release.addVersion r ver) in
  if 2 <? (if ReleaseVersion.is_FINAL (ReleaseVersion.statusOfText status)
           then n + 1 else n)
  then fst (Release.removeVersion r1
              (Release.updateUrl_min (Release.m_versions r1) 0 "0" None))
  else r1.
Proof.
  intro E. unfold Release.updateUrl. rewrite E. unfold newVersion.
  cbn [ReleaseVersion.new ReleaseVersion.addVariant fst].
  match goal with
  | |- context [Release.addVersion r ?v] =>
      destruct (Release.addVersion r v) as [r1 ev2]
  end.
  simpl. destruct (2 <? _); [|reflexivity].
  now destruct (Release.removeVersion r1 _) as [r2 ev3].
Qed.

Lemma addVersion_append (r : Release.t) (v : ReleaseVersion.t) :
  Forall (fun x => QString.lt (ReleaseVersion.m_number x) (ReleaseVersion.m_number v) = false)
    (Release.m_versions r) ->
  fst (Release.addVersion r v) =
  Release.set_versions r (Release.m_versions r ++ [v]) (Release.m_selectedVersion r).
Proof.
  intro H. unfold Release.addVersion.
  now rewrite (addVersion_pos_append _ _ 0%nat H).
Qed.

(** A second [Release::updateUrl] with the same arguments leaves the release
    as the first one made it. *)
Lemma Release_updateUrl_twice (r r1 : Release.t) :
  r1 = fst (fst (Release_updateUrl r)) ->
  fst (fst (Release_updateUrl r1)) = r1.
Proof.
  intro Hdef.
  destruct (Release.updateUrl_scan (Release.m_versions r) version status
              releaseDate architecture imageType board url sha256 md5 size 0)
    as [[[l b] e]|n] eqn:E.
  - assert (Hr1 : r1 = Release.set_versions r l (Release.m_selectedVersion r)).
    { rewrite Hdef. unfold Release.updateUrl. now rewrite E. }
    rewrite Hr1. unfold Release.updateUrl at 1. simpl.
    destruct (updateUrl_scan_twice _ _ _ 0 _ _ E) as [ev' ->]. reflexivity.
  - pose proof (Release_updateUrl_fresh r n E) as Hr1. rewrite <- Hdef in Hr1.
    cbv zeta in Hr1.
    pose proof (updateUrl_scan_inr _ _ _ _ _ _ _ _ _ _ _ _ _ E) as Hfresh.
    destruct (addVersion_versions r ver) as (pre & post & Hvs & Hvs1 & Hpre & Hpost).
    rewrite Hvs in Hfresh.
    pose proof Hfresh as Hfresh'. apply Forall_app in Hfresh'.
    destruct Hfresh' as [Hfpre _].
    remember (fst (Release.addVersion r ver)) as ra eqn:Hra0.
    destruct (2 <? _) eqn:Hev.
    2:{ cbn [fst] in Hr1. rewrite Hr1.
        destruct (Release_updateUrl_holds_new ra pre post Hvs1 Hfpre) as [ev' Hx].
        now rewrite Hx. }
    unfold Release.removeVersion in Hr1.
    destruct (Release.updateUrl_min (Release.m_versions ra) 0 "0" None) as [idx|] eqn:Emin.
    2:{ cbn [fst] in Hr1. rewrite Hr1.
        destruct (Release_updateUrl_holds_new ra pre post Hvs1 Hfpre) as [ev' Hx].
        now rewrite Hx. }
    destruct (idx <? List.length (Release.m_versions ra))%nat eqn:Hidx.
    2:{ cbn [fst] in Hr1. rewrite Hr1.
        destruct (Release_updateUrl_holds_new ra pre post Hvs1 Hfpre) as [ev' Hx].
        now rewrite Hx. }
    destruct (Nat.eq_dec idx (List.length pre)) as [-> | Hne].
    + (* the new version itself is evicted *)
      rewrite Hvs1 in Emin.
      pose proof (updateUrl_min_evicts pre post ver 0 "0" None
                    ltac:(discriminate) Emin) as Hlast.
      assert (Hnil : post = []).
      { destruct post as [|y post]; [reflexivity|].
        inversion Hlast; subst. congruence. }
      subst post. rewrite app_nil_r in Hvs.
      assert (Hra : ra = Release.set_versions r (pre ++ [ver]) (Release.m_selectedVersion r)).
      { rewrite Hra0. rewrite addVersion_append; rewrite Hvs; auto. }
      assert (Hr1' : r1 = Release.set_versions r pre
                (if Release.m_selectedVersion r =? Z.of_nat (List.length pre)
                 then 0 else Release.m_selectedVersion r)).
      { rewrite Hr1, Hra. simpl.
        destruct (Release.m_selectedVersion r =? Z.of_nat (List.length pre));
          simpl; now rewrite QList_removeAt_app, app_nil_r. }
      set (sel := if Release.m_selectedVersion r =? Z.of_nat (List.length pre)
                  then 0 else Release.m_selectedVersion r) in *.
      assert (E1 : Release.updateUrl_scan (Release.m_versions r1) version status
                releaseDate architecture imageType board url sha256 md5 size 0
                = inr n).
      { rewrite Hr1'. simpl. now rewrite <- Hvs. }
      rewrite (Release_updateUrl_fresh r1 n E1). cbv zeta. rewrite Hev.
      rewrite addVersion_append by (rewrite Hr1'; exact Hpre).
      rewrite Hr1'. cbn [Release.set_versions Release.m_versions
                         Release.m_selectedVersion].
      rewrite Emin. unfold Release.removeVersion.
      cbn [Release.set_versions Release.m_versions Release.m_selectedVersion].
      rewrite Hvs1 in Hidx. rewrite Hidx.
      assert (Hsel : (if sel =? Z.of_nat (List.length pre) then 0 else sel) = sel).
      { unfold sel.
        destruct (Release.m_selectedVersion r =? Z.of_nat (List.length pre)) eqn:Es.
        - now destruct (0 =? Z.of_nat (List.length pre)).
        - now rewrite Es. }
      destruct (sel =? Z.of_nat (List.length pre)) eqn:Es; simpl;
        rewrite QList_removeAt_app, app_nil_r;
        [now rewrite <- Hsel | reflexivity].
    + (* another version is evicted *)
      destruct (QList_removeAt_other pre post ver idx Hne)
        as (pre' & post' & Hrm & Hsub).
      assert (Hr1v : Release.m_versions r1 = pre' ++ ver :: post').
      { rewrite Hr1.
        destruct (Release.m_selectedVersion ra =? Z.of_nat idx); simpl;
          now rewrite Hvs1. }
      destruct (Release_updateUrl_holds_new r1 pre' post' Hr1v (Hsub _ Hfpre))
        as [ev' Hx].
      now rewrite Hx.
Qed.

Lemma Release_updateUrl_name (r : Release.t) :
  Release.m_name (fst (fst (Release_updateUrl r))) = Release.m_name r.
Proof.
  unfold Release.updateUrl.
  destruct (Release.updateUrl_scan _ _ _ _ _ _ _ _ _ _ _ _) as [[[l b] e]|n];
    [reflexivity|].
  cbn [ReleaseVersion.new ReleaseVersion.addVariant].
  match goal with |- context [Release.addVersion r ?v] => set (v0 := v) end.
  assert (Ha : Release.m_name (fst (Release.addVersion r v0)) = Release.m_name r).
  { unfold Release.addVersion. now destruct (Release.addVersion_pos _ _ _). }
  destruct (Release.addVersion r v0) as [ra ev2]. simpl in Ha.
  destruct (2 <? _); [|exact Ha].
  assert (Hb : forall k, Release.m_name (fst (Release.removeVersion ra k))
                         = Release.m_name ra).
  { intro k. unfold Release.removeVersion. destruct k as [idx|]; [|reflexivity].
    destruct (idx <? _)%nat; [|reflexivity].
    now destruct (Release.m_selectedVersion ra =? _). }
  specialize (Hb (Release.updateUrl_min (Release.m_versions ra) 0 "0" None)).
  destruct (Release.removeVersion ra _) as [r2 ev3]. simpl in *. congruence.
Qed.

End Releases.

(** A second [ReleaseManager::updateUrl] with the same arguments leaves the
    catalog as the first one made it. *)
Lemma ReleaseManager_updateUrl_twice (m : ReleaseManager.t)
    (name version status : string) (releaseDate : QDateTime)
    (architecture : string) (imageType : ReleaseImageType.Id)
    (board url sha256 md5 : string) (size : Z) :
  let m1 := fst (fst (ReleaseManager.updateUrl m name version status releaseDate
                        architecture imageType board url sha256 md5 size)) in
  fst (fst (ReleaseManager.updateUrl m1 name version status releaseDate
              architecture imageType board url sha256 md5 size)) = m1.
Proof.
  unfold ReleaseManager.updateUrl.
  destruct (negb (ReleaseArchitecture.isKnown architecture)) eqn:Hk.
  { reflexivity. }
  destruct (ReleaseImageType.is_UNKNOWN imageType) eqn:Ht.
  { reflexivity. }
  destruct (ReleaseManager.updateUrl_loop (ReleaseManager.m_releases m) _ _ _ _ _ _ _ _ _ _ _)
    as [[[l b] e]|] eqn:E.
  - destruct (updateUrl_loop_Some _ _ _ _ _ _ _ _ _ _ _ _ _ _ _ E)
      as (pre & r & post & r' & Hm & -> & Hpre & Hr & Hu).
    cbv zeta. cbn [fst ReleaseManager.set_releases ReleaseManager.m_releases].
    assert (Hr' : r' = fst (fst (Release.updateUrl r version status releaseDate
                       architecture imageType board url sha256 md5 size)))
      by now rewrite Hu.
    assert (Hname : matchesKey name r' = true).
    { unfold matchesKey in *. rewrite Hr', Release_updateUrl_name. exact Hr. }
    rewrite (updateUrl_loop_first name version status releaseDate architecture
               imageType board url sha256 md5 size pre post r' Hpre Hname).
    pose proof (Release_updateUrl_twice version status releaseDate architecture
                  imageType board url sha256 md5 size r r' Hr') as H2.
    destruct (Release.updateUrl r' _ _ _ _ _ _ _ _ _ _) as [[r'' b'] e'].
    simpl in H2. subst r''. reflexivity.
  - cbv zeta. cbn [fst]. now rewrite E.
Qed.

End Idempotence.

(** C4, the code at a repeated record.  A second application of a record
    leaves the catalog as the first application made it, for every catalog
    and every record.  It is not silent: every accepted update of a version
    emits [statusChanged] first, whether or not the status changes; so the
    record that created the FINAL version "9", applied again, returns false,
    keeps the catalog, and emits [statusChanged] and [prereleaseChanged]. *)
Theorem repeated_update_signals :
  (forall m name version status releaseDate architecture imageType board url
          sha256 md5 size,
      let m1 := fst (fst (ReleaseManager.updateUrl m name version status
                            releaseDate architecture imageType board url sha256
                            md5 size)) in
      fst (fst (ReleaseManager.updateUrl m1 name version status releaseDate
                  architecture imageType board url sha256 md5 size)) = m1) /\
  (forall v status releaseDate architecture imageType board url sha256 md5 size,
      ReleaseVersion.Status_leb (ReleaseVersion.statusOfText status)
        (ReleaseVersion.m_status v) = true ->
      exists ev,
        snd (ReleaseVersion.updateUrl v status releaseDate architecture imageType
               board url sha256 md5 size) = statusChanged :: ev) /\
  feed catalog9 "9" "0" "x86-64" = (catalog9, false, [statusChanged; prereleaseChanged]).
Proof.
  split; [exact ReleaseManager_updateUrl_twice|].
  split; [exact ReleaseVersion_updateUrl_emits_statusChanged | reflexivity].
Qed.

Lemma repeated_update_signals_witness :
  exists ev,
    snd (ReleaseVersion.updateUrl oneVariantVersion "0" None "x86-64"
           ReleaseImageType.ISO "PC" "http://getalt.org/alt.iso" "" "" 0)
    = statusChanged :: ev.
Proof.
  apply (proj1 (proj2 repeated_update_signals)). reflexivity.
Defined.

(** ** Every variant has an architecture *)

Section Architectures.

Variables (version status : string) (releaseDate : QDateTime)
  (architecture : string) (imageType : ReleaseImageType.Id)
  (board url sha256 md5 : string) (size : Z).

Hypothesis known : ReleaseArchitecture.isKnown architecture = true.

Local Abbreviation hasArch :=
  (fun variant : ReleaseVariant.t => ReleaseVariant.m_arch variant <> None).

Local Abbreviation allHaveArch :=
  (fun version : ReleaseVersion.t => Forall hasArch (ReleaseVersion.m_variants version)).

Lemma known_arch : ReleaseArchitecture.fromAbbreviation architecture <> None.
Proof.
  destruct (proj1 (isKnown_fromAbbreviation architecture) known) as [a Ha].
  congruence.
Qed.

Lemma ReleaseVariant_updateUrl_arch (x : ReleaseVariant.t) :
  ReleaseVariant.m_arch (fst (fst (ReleaseVariant.updateUrl x url sha256 size)))
  = ReleaseVariant.m_arch x.
Proof.
  unfold ReleaseVariant.updateUrl.
  destruct (negb (QString.isEmpty url) && _);
    destruct (negb (QString.isEmpty sha256) && _);
    destruct (negb (size =? 0) && _); reflexivity.
Qed.

Lemma updateUrl_find_arch (vs l : list ReleaseVariant.t)
    (arch : option ReleaseArchitecture.Id) (ret : bool) (ev : list Signal) :
  ReleaseVersion.updateUrl_find vs arch board url sha256 size = Some (l, ret, ev) ->
  Forall hasArch vs -> Forall hasArch l.
Proof.
  revert l ret ev; induction vs as [|x vs IH]; intros l ret ev H Hvs; simpl in H;
    [discriminate|].
  inversion Hvs as [|? ? Hx Hrest]; subst.
  destruct (ReleaseArchitecture.ptr_eqb _ _ && _).
  - pose proof (ReleaseVariant_updateUrl_arch x) as Ha.
    destruct (ReleaseVariant.updateUrl x url sha256 size) as [[x' b] e].
    injection H as <- _ _. simpl in Ha. constructor; [congruence | exact Hrest].
  - destruct (ReleaseVersion.updateUrl_find vs _ _ _ _ _) as [[[l' b] e]|] eqn:E;
      [|discriminate].
    injection H as <- _ _. constructor; [exact Hx | eapply IH; eauto].
Qed.

Lemma QList_insert_Forall {A : Type} (P : A -> Prop) (i : nat) (x : A) (l : list A) :
  Forall P l -> P x -> Forall P (QList_insert i x l).
Proof.
  intros Hl Hx. unfold QList_insert.
  rewrite <- (firstn_skipn i l) in Hl. apply Forall_app in Hl.
  destruct Hl as [H1 H2]. apply Forall_app. split; [exact H1 | now constructor].
Qed.

Lemma QList_removeAt_Forall {A : Type} (P : A -> Prop) (i : nat) (l : list A) :
  Forall P l -> Forall P (QList_removeAt i l).
Proof.
  intro Hl. unfold QList_removeAt.
  pose proof Hl as Hl'.
  rewrite <- (firstn_skipn i l) in Hl. apply Forall_app in Hl. destruct Hl as [H1 _].
  rewrite <- (firstn_skipn (S i) l) in Hl'. apply Forall_app in Hl'.
  destruct Hl' as [_ H2]. now apply Forall_app.
Qed.

Lemma ReleaseVersion_updateUrl_arch (v : ReleaseVersion.t) :
  allHaveArch v ->
  allHaveArch (fst (fst (ReleaseVersion.updateUrl v status releaseDate architecture
                           imageType board url sha256 md5 size))).
Proof.
  intro Hv.
  destruct (ReleaseVersion.Status_leb (ReleaseVersion.statusOfText status)
              (ReleaseVersion.m_status v)) eqn:Hs.
  - rewrite (ReleaseVersion_updateUrl_accepted v status releaseDate architecture
               imageType board url sha256 md5 size Hs).
    destruct (ReleaseVersion.updateUrl_find _ _ _ _ _ _) as [[[l b] e]|] eqn:E; simpl.
    + eapply updateUrl_find_arch; eauto.
    + apply QList_insert_Forall; [exact Hv | exact known_arch].
  - unfold ReleaseVersion.updateUrl. now rewrite Hs.
Qed.

Lemma updateUrl_scan_arch (vs l : list ReleaseVersion.t) (n : Z) (ret : bool)
    (ev : list Signal) :
  Release.updateUrl_scan vs version status releaseDate architecture imageType
    board url sha256 md5 size n = inl (l, ret, ev) ->
  Forall allHaveArch vs -> Forall allHaveArch l.
Proof.
  revert l n ret ev; induction vs as [|v vs IH]; intros l n ret ev H Hvs;
    simpl in H; [discriminate|].
  inversion Hvs as [|? ? Hv Hrest]; subst.
  destruct (String.eqb (ReleaseVersion.m_number v) version).
  - pose proof (ReleaseVersion_updateUrl_arch v Hv) as Ha.
    destruct (ReleaseVersion.updateUrl v _ _ _ _ _ _ _ _ _) as [[v' b] e].
    injection H as <- _ _. now constructor.
  - destruct (Release.updateUrl_scan vs _ _ _ _ _ _ _ _ _ _ _) as [[[l' b] e]|k] eqn:E;
      [|discriminate].
    injection H as <- _ _. constructor; [exact Hv | eapply IH; eauto].
Qed.

Lemma Release_updateUrl_arch (r : Release.t) :
  archsNonNull r ->
  archsNonNull (fst (fst (Release.updateUrl r version status releaseDate
                            architecture imageType board url sha256 md5 size))).
Proof.
  unfold archsNonNull. intro Hr.
  destruct (Release.updateUrl_scan (Release.m_versions r) version status
              releaseDate architecture imageType board url sha256 md5 size 0)
    as [[[l b] e]|n] eqn:E.
  - unfold Release.updateUrl. rewrite E. simpl. eapply updateUrl_scan_arch; eauto.
  - rewrite (Release_updateUrl_fresh _ _ _ _ _ _ _ _ _ _ r n E). cbv zeta.
    set (ver := newVersion _ _ _ _ _ _ _ _ _ _).
    assert (Hver : allHaveArch ver).
    { repeat constructor. exact known_arch. }
    assert (Ha : Forall allHaveArch (Release.m_versions (fst (Release.addVersion r ver)))).
    { destruct (addVersion_versions r ver) as (pre & post & Hvs & -> & _).
      rewrite Hvs in Hr. apply Forall_app in Hr. destruct Hr as [H1 H2].
      apply Forall_app. split; [exact H1 | now constructor]. }
    destruct (2 <? _); [|exact Ha].
    unfold Release.removeVersion.
    destruct (Release.updateUrl_min _ _ _ _) as [idx|]; [|exact Ha].
    destruct (idx <? _)%nat; [|exact Ha].
    destruct (Release.m_selectedVersion _ =? _); simpl;
      now apply QList_removeAt_Forall.
Qed.

End Architectures.

(** The architectures of the variants are never null: this holds of the
    catalog at start-up and is kept by every update. *)
Lemma archsNonNull_invariant :
  (forall members, Forall archsNonNull (ReleaseListModel.new members)) /\
  (forall m name version status releaseDate architecture imageType board url
          sha256 md5 size,
      Forall archsNonNull (ReleaseManager.m_releases m) ->
      Forall archsNonNull
        (ReleaseManager.m_releases
           (fst (fst (ReleaseManager.updateUrl m name version status releaseDate
                        architecture imageType board url sha256 md5 size))))).
Proof.
  split.
  - intro members. unfold ReleaseListModel.new.
    apply QList_insert_Forall; [|repeat constructor; discriminate].
    assert (H : forall l, Forall archsNonNull l ->
                          Forall archsNonNull (ReleaseListModel.load members l)).
    { induction members as [|e members IH]; intros l Hl; simpl; [exact Hl|].
      apply IH. apply QList_insert_Forall; [exact Hl | constructor]. }
    apply H. constructor.
  - intros m name version status releaseDate architecture imageType board url
      sha256 md5 size Hm.
    unfold ReleaseManager.updateUrl.
    destruct (ReleaseArchitecture.isKnown architecture) eqn:Hk; [|exact Hm].
    cbn [negb]. destruct (ReleaseImageType.is_UNKNOWN imageType); [exact Hm|].
    destruct (ReleaseManager.updateUrl_loop _ _ _ _ _ _ _ _ _ _ _ _)
      as [[[l b] e]|] eqn:E; [|exact Hm].
    destruct (updateUrl_loop_Some _ _ _ _ _ _ _ _ _ _ _ _ _ _ _ E)
      as (pre & r & post & r' & Hrs & -> & _ & _ & Hu).
    simpl. rewrite Hrs in Hm. apply Forall_app in Hm. destruct Hm as [H1 H2].
    inversion H2 as [|? ? Hr Hpost]; subst.
    apply Forall_app. split; [exact H1|]. constructor; [|exact Hpost].
    pose proof (Release_updateUrl_arch version status releaseDate architecture
                  imageType board url sha256 md5 size Hk r Hr) as Ha.
    now rewrite Hu in Ha.
Qed.

(** C8. With [frontPage] set, [filterAcceptsRow] accepts a row iff it is
    below 3, whatever the filters, so exactly the rows 0, 1 and 2 of the
    catalog.  Otherwise the release of the row is accepted iff it is local,
    or one of its variants, over all its versions, has the filtered
    architecture and its display name contains the filter text without
    regard to case.  Hence a release whose only variant is aarch64 is
    rejected under the x86-64 filter and accepted under the AArch64 filter
    (when its display name contains the filter text), and the release named
    "custom" is accepted whatever the filters; in the catalog the list model
    builds at start-up the custom release is on one of the first three rows,
    so it is accepted in front-page mode as well.  (The architecture of a
    variant is a pointer the filter dereferences; it is not null in the
    catalog at start-up and no update makes it null.) *)
Theorem filterAcceptsRow_correct :
  (forall m row,
      ReleaseManager.m_frontPage m = true ->
      ReleaseManager.filterAcceptsRow m row = Some (row <? 3)) /\
  (forall m row,
      ReleaseManager.m_frontPage m = true -> 0 <= row ->
      (ReleaseManager.filterAcceptsRow m row = Some true <->
       row = 0 \/ row = 1 \/ row = 2)) /\
  (forall m row r,
      ReleaseManager.m_frontPage m = false ->
      ReleaseManager.get m row = Some r ->
      archsNonNull r ->
      ReleaseManager.filterAcceptsRow m row =
      Some (Release.isLocal r
            || (hasArchitecture r (ReleaseManager.m_filterArchitecture m)
                && QString.contains_ci (Release.m_displayName r)
                     (ReleaseManager.m_filterText m)))) /\
  (forall m row r version variant,
      ReleaseManager.m_frontPage m = false ->
      ReleaseManager.get m row = Some r ->
      Release.isLocal r = false ->
      Release.m_versions r = [version] ->
      ReleaseVersion.m_variants version = [variant] ->
      ReleaseVariant.m_arch variant = Some ReleaseArchitecture.AARCH64 ->
      (ReleaseManager.m_filterArchitecture m
         = ReleaseArchitecture.index ReleaseArchitecture.X86_64 ->
       ReleaseManager.filterAcceptsRow m row = Some false) /\
      (ReleaseManager.m_filterArchitecture m
         = ReleaseArchitecture.index ReleaseArchitecture.AARCH64 ->
       QString.contains_ci (Release.m_displayName r)
         (ReleaseManager.m_filterText m) = true ->
       ReleaseManager.filterAcceptsRow m row = Some true)) /\
  (forall m row r,
      ReleaseManager.m_frontPage m = false ->
      ReleaseManager.get m row = Some r ->
      archsNonNull r ->
      Release.m_name r = "custom" ->
      ReleaseManager.filterAcceptsRow m row = Some true) /\
  (forall members m,
      ReleaseManager.m_releases m = ReleaseListModel.new members ->
      exists row,
        0 <= row < 3 /\
        ReleaseManager.get m row = Some ReleaseListModel.customRelease /\
        ReleaseManager.filterAcceptsRow m row = Some true) /\
  (forall members, Forall archsNonNull (ReleaseListModel.new members)) /\
  (forall m name version status releaseDate architecture imageType board url
          sha256 md5 size,
      Forall archsNonNull (ReleaseManager.m_releases m) ->
      Forall archsNonNull
        (ReleaseManager.m_releases
           (fst (fst (ReleaseManager.updateUrl m name version status releaseDate
                        architecture imageType board url sha256 md5 size))))).
Proof.
  split; [|split; [|split; [|split; [|split;
    [|split; [exact customRelease_accepted | exact archsNonNull_invariant]]]]]].
  - intros m row Hf. unfold ReleaseManager.filterAcceptsRow. now rewrite Hf.
  - intros m row Hf Hrow. unfold ReleaseManager.filterAcceptsRow. rewrite Hf.
    unfold FRONTPAGE_ROW_COUNT. split.
    + intro H. injection H as H. apply Z.ltb_lt in H. lia.
    + intro H. f_equal. apply Z.ltb_lt. lia.
  - exact filterAcceptsRow_catalog.
  - intros m row r version variant Hf Hg Hl Hvs Hxs Ha.
    assert (Hn : archsNonNull r).
    { unfold archsNonNull. rewrite Hvs. repeat constructor.
      rewrite Hxs. repeat constructor. congruence. }
    rewrite (filterAcceptsRow_catalog m row r Hf Hg Hn), Hl.
    unfold hasArchitecture. rewrite Hvs. simpl. rewrite Hxs. simpl. rewrite Ha.
    split.
    + intros ->. reflexivity.
    + intros -> ->. reflexivity.
  - intros m row r Hf Hg Hn Hname.
    rewrite (filterAcceptsRow_catalog m row r Hf Hg Hn).
    unfold Release.isLocal. rewrite Hname. reflexivity.
Qed.

Lemma filterAcceptsRow_correct_witness :
  ReleaseManager.filterAcceptsRow
    (fst (fst (feed sampleCatalog "9" "0" "aarch64"))) 0 = Some false.
Proof.
  destruct filterAcceptsRow_correct as (_ & _ & _ & H & _).
  refine (proj1 (H (fst (fst (feed sampleCatalog "9" "0" "aarch64"))) 0
                   _ _ _ _ _ _ _ _ _) _); reflexivity.
Defined.

(** ** Retention, in general *)

(** A new FINAL version is merged into a release none of whose numbers is
    below "0": nothing is evicted, the release has one FINAL version more. *)
Lemma Release_updateUrl_adds_final (r : Release.t) (version status : string)
    (releaseDate : QDateTime) (architecture : string)
    (imageType : ReleaseImageType.Id) (board url sha256 md5 : string) (size : Z) :
  Forall (fun v => QString.lt (ReleaseVersion.m_number v) "0" = false
                   /\ ReleaseVersion.m_number v <> version)
    (Release.m_versions r) ->
  QString.lt version "0" = false ->
  ReleaseVersion.statusOfText status = ReleaseVersion.FINAL ->
  finalCount (fst (fst (Release.updateUrl r version status releaseDate
                          architecture imageType board url sha256 md5 size)))
  = S (finalCount r).
Proof.
  intros Hvs Hv Hs.
  assert (Hscan : exists n,
    Release.updateUrl_scan (Release.m_versions r) version status releaseDate
      architecture imageType board url sha256 md5 size 0 = inr n).
  { generalize 0. induction Hvs as [|v vs [_ Hne] _ IH]; intro n; simpl; [eauto|].
    rewrite (proj2 (String.eqb_neq _ _) Hne).
    destruct (IH (if ReleaseVersion.is_FINAL (ReleaseVersion.m_status v)
                  then n + 1 else n)) as [k ->]. eauto. }
  destruct Hscan as [n Hscan].
  rewrite (Release_updateUrl_fresh _ _ _ _ _ _ _ _ _ _ r n Hscan). cbv zeta.
  set (ver := newVersion _ _ _ _ _ _ _ _ _ _).
  destruct (addVersion_versions r ver) as (pre & post & Hr & Hr1 & _).
  assert (Hnone : Release.updateUrl_min
                    (Release.m_versions (fst (Release.addVersion r ver))) 0 "0" None
                  = None).
  { apply updateUrl_min_nothing. rewrite Hr1. rewrite Hr in Hvs.
    apply Forall_app in Hvs. destruct Hvs as [H1 H2].
    apply Forall_app. split.
    - eapply Forall_impl; [|exact H1]. now intros a [Ha _].
    - constructor; [exact Hv|].
      eapply Forall_impl; [|exact H2]. now intros a [Ha _]. }
  assert (Hcount : finalCount (fst (Release.addVersion r ver)) = S (finalCount r)).
  { unfold finalCount. rewrite Hr1, Hr, !filter_app, !length_app.
    cbn [filter]. unfold ver at 1, newVersion. simpl. rewrite Hs. simpl. lia. }
  destruct (2 <? _); [|exact Hcount].
  rewrite Hnone. exact Hcount.
Qed.

(** C1, the code on the retention example.  The eviction scan of
    [Release::updateUrl] looks for a version number string-less than "0" and
    finds none among numbers that are not ("38", "39", "40" start with a
    digit above '0'), so [removeVersion] is called with [nullptr]: after the
    FINAL version "40" is merged into the release holding the FINAL versions
    "39" and "38", the three versions are stored and all three are FINAL.
    In general a new FINAL version whose number is not below "0", merged into
    a release without a number below "0", adds one to the count of FINAL
    versions, whatever this count was. *)
Theorem final_retention_not_enforced :
  (forall vs i,
      Forall (fun v => QString.lt (ReleaseVersion.m_number v) "0" = false) vs ->
      Release.updateUrl_min vs i "0" None = None) /\
  (forall r version status releaseDate architecture imageType board url sha256
          md5 size,
      Forall (fun v => QString.lt (ReleaseVersion.m_number v) "0" = false
                       /\ ReleaseVersion.m_number v <> version)
        (Release.m_versions r) ->
      QString.lt version "0" = false ->
      ReleaseVersion.statusOfText status = ReleaseVersion.FINAL ->
      finalCount (fst (fst (Release.updateUrl r version status releaseDate
                              architecture imageType board url sha256 md5 size)))
      = S (finalCount r)) /\
  option_map (fun r => (versionNumbers r, finalCount r)) (firstRelease catalog3839)
    = Some (["39"; "38"], 2%nat) /\
  (let '(m, ret, _) := feed catalog3839 "40" "0" "x86-64" in
   ret = true /\
   option_map (fun r => (versionNumbers r, finalCount r)) (firstRelease m)
     = Some (["40"; "39"; "38"], 3%nat)).
Proof.
  split; [exact updateUrl_min_nothing|].
  split; [exact Release_updateUrl_adds_final|].
  split; [reflexivity|]. split; reflexivity.
Qed.

Lemma final_retention_not_enforced_witness :
  Release.updateUrl_min [finalVersion "40"; finalVersion "39"; finalVersion "38"]
    0 "0" None = None.
Proof.
  apply (proj1 final_retention_not_enforced).
  repeat constructor.
Defined.

(** * Further properties of the registries *)

Section ArchitectureRegistry.
Import ReleaseArchitecture.

(** X1. [fromId] and [index] are inverse of each other on the nine entries
    of the table, [fromId] is null exactly outside [0, _ARCHCOUNT), and the
    list of descriptions is aligned with the indices. *)
Theorem fromId_index_roundtrip :
  (forall a, fromId (index a) = Some a) /\
  (forall i a, fromId i = Some a -> index a = i) /\
  (forall i, fromId i = None <-> i < 0 \/ _ARCHCOUNT <= i) /\
  (forall a, nth_error listAllDescriptions (Z.to_nat (index a)) = Some (description a)).
Proof.
  split; [|split; [|split]].
  - intros []; reflexivity.
  - intros i a. unfold fromId, _ARCHCOUNT.
    destruct (Z.leb_spec 0 i); [|discriminate].
    destruct (Z.ltb_spec i 9); [|discriminate].
    assert (Hi : i = 0 \/ i = 1 \/ i = 2 \/ i = 3 \/ i = 4 \/ i = 5 \/ i = 6
                 \/ i = 7 \/ i = 8) by lia.
    simpl.
    repeat (destruct Hi as [-> | Hi]; [simpl; intro E; injection E as <-; reflexivity|]).
    subst i. simpl. intro E; injection E as <-; reflexivity.
  - intro i. unfold fromId, _ARCHCOUNT.
    destruct (Z.leb_spec 0 i); destruct (Z.ltb_spec i 9); simpl;
      try (split; [intros _; lia | reflexivity]).
    assert (Hi : i = 0 \/ i = 1 \/ i = 2 \/ i = 3 \/ i = 4 \/ i = 5 \/ i = 6
                 \/ i = 7 \/ i = 8) by lia.
    split; [|lia].
    repeat (destruct Hi as [-> | Hi]; [discriminate|]). subst i. discriminate.
  - intros []; reflexivity.
Qed.

Lemma fromId_index_roundtrip_witness : index AARCH64 = 3.
Proof.
  apply (proj1 (proj2 fromId_index_roundtrip) 3 AARCH64). reflexivity.
Defined.

Lemma fromFilename_loop_first (table : list t) (filename : string) (a : Id) :
  fromFilename_loop table filename = Some a ->
  exists pre e post,
    table = pre ++ e :: post /\ id e = a /\
    existsb (fun ab => QString.contains_ci filename ab) (m_abbreviation e) = true /\
    Forall (fun e' => existsb (fun ab => QString.contains_ci filename ab)
                        (m_abbreviation e') = false) pre.
Proof.
  induction table as [|e table IH]; simpl; intro H; [discriminate|].
  destruct (existsb _ (m_abbreviation e)) eqn:E.
  - injection H as <-. exists [], e, table. repeat split; auto.
  - destruct (IH H) as (pre & e' & post & -> & Hid & He & Hpre).
    exists (e :: pre), e', post. repeat split; auto.
Qed.

(** X2. [fromFilename] returns the first architecture, in the order of the
    table, one of whose abbreviations occurs in the file name without regard
    to case.  Hence a name in which "x86" occurs and "x86-64" does not (such
    as one with "x86_64") is taken for the 32-bit Intel architecture, and the
    UNKNOWN entry is returned exactly when no abbreviation of another
    architecture occurs. *)
Theorem fromFilename_first_match :
  (forall filename a,
      fromFilename filename = Some a ->
      exists pre e post,
        m_all = pre ++ e :: post /\ id e = a /\
        (exists ab, In ab (m_abbreviation e)
                    /\ QString.contains_ci filename ab = true) /\
        Forall (fun e' => forall ab, In ab (m_abbreviation e') ->
                                     QString.contains_ci filename ab = false) pre) /\
  (forall filename,
      QString.contains_ci filename "x86-64" = false ->
      QString.contains_ci filename "x86" = true ->
      fromFilename filename = Some X86) /\
  (forall filename,
      fromFilename filename = Some UNKNOWN <->
      (forall a ab, a <> UNKNOWN -> In ab (abbreviation a) ->
                    QString.contains_ci filename ab = false)).
Proof.
  split; [|split].
  - intros filename a H.
    destruct (fromFilename_loop_first _ _ _ H) as (pre & e & post & Hm & Hid & He & Hpre).
    exists pre, e, post. repeat split; auto.
    + apply existsb_exists in He. exact He.
    + eapply Forall_impl; [|exact Hpre]. intros e' He' ab Hab.
      destruct (QString.contains_ci filename ab) eqn:E; auto.
      assert (Hc : existsb (fun ab => QString.contains_ci filename ab)
                     (m_abbreviation e') = true)
        by (apply existsb_exists; eauto).
      congruence.
  - intros filename H64 H86. unfold fromFilename, m_all. cbn [fromFilename_loop
      m_abbreviation existsb id]. now rewrite H64, H86.
  - intro filename. unfold fromFilename, m_all.
    cbn [fromFilename_loop m_abbreviation existsb id]. split.
    + intros H a ab Ha Hab.
      repeat match type of H with
             | (if ?c then _ else _) = _ =>
                 let E := fresh "E" in destruct c eqn:E; [discriminate H|]
             end.
      repeat match goal with
             | E : (_ || _)%bool = false |- _ =>
                 apply orb_false_iff in E; destruct E
             end.
      destruct a; try congruence; simpl in Hab;
        repeat (destruct Hab as [<- | Hab]; [assumption|]); contradiction.
    + intro H.
      assert (Hf : forall a ab, a <> UNKNOWN -> In ab (abbreviation a) ->
                                QString.contains_ci filename ab = false) by exact H.
      rewrite (Hf X86_64 "x86-64"), (Hf X86 "x86"), (Hf X86 "i386"),
        (Hf X86 "i586"), (Hf X86 "i686"), (Hf ARM "armv7hl"), (Hf ARM "armhfp"),
        (Hf ARM "armh"), (Hf AARCH64 "aarch64"), (Hf MIPSEL_arch "mipsel"),
        (Hf RISCV64 "riscv"), (Hf RISCV64 "riscv64"), (Hf E2K "e2k"),
        (Hf PPC64LE "ppc64le");
        try discriminate; try (simpl; tauto).
      cbn [orb]. now rewrite contains_ci_empty.
Qed.

Lemma fromFilename_first_match_witness :
  fromFilename "alt-workstation-9.1-x86_64.iso" = Some X86.
Proof.
  apply (proj1 (proj2 fromFilename_first_match)); reflexivity.
Defined.

End ArchitectureRegistry.

Section AbbreviationLookup.
Import ReleaseArchitecture.

Lemma fromAbbreviation_loop_found (table : list t) (abbr : string) (a : Id) :
  fromAbbreviation_loop table abbr = Some a ->
  exists e ab, In e table /\ id e = a /\ In ab (m_abbreviation e)
               /\ QString.eq_ci ab abbr = true.
Proof.
  induction table as [|e table IH]; simpl; intro H; [discriminate|].
  destruct (QString.list_contains_ci (m_abbreviation e) abbr) eqn:E.
  - injection H as <-. apply existsb_exists in E. destruct E as (ab & Hab & Heq).
    exists e, ab. auto.
  - destruct (IH H) as (e' & ab & He' & Hid & Hab & Heq).
    exists e', ab. auto.
Qed.

(** X3. [fromAbbreviation] is the inverse of the table of abbreviations,
    without regard to case: a string equal up to case to an abbreviation of
    an architecture is mapped to this architecture, a string that is mapped
    to an architecture is equal up to case to one of its abbreviations, and
    [isKnown] tells exactly whether [fromAbbreviation] finds an entry. *)
Theorem fromAbbreviation_roundtrip :
  (forall a ab abbr,
      In ab (abbreviation a) -> QString.eq_ci abbr ab = true ->
      fromAbbreviation abbr = Some a) /\
  (forall abbr a,
      fromAbbreviation abbr = Some a ->
      exists ab, In ab (abbreviation a) /\ QString.eq_ci abbr ab = true) /\
  (forall abbr, isKnown abbr = true <-> exists a, fromAbbreviation abbr = Some a).
Proof.
  split; [|split].
  - intros a ab abbr Hin Heq. unfold QString.eq_ci in Heq.
    apply String.eqb_eq in Heq.
    unfold fromAbbreviation, m_all.
    cbn [fromAbbreviation_loop m_abbreviation id QString.list_contains_ci existsb].
    unfold QString.eq_ci. rewrite Heq.
    destruct a; simpl in Hin;
      repeat (destruct Hin as [<- | Hin]; [reflexivity|]); contradiction.
  - intros abbr a H.
    destruct (fromAbbreviation_loop_found _ _ _ H) as (e & ab & He & Hid & Hab & Heq).
    exists ab. split.
    + unfold m_all in He. simpl in He.
      repeat (destruct He as [<- | He]; [simpl in Hid; subst a; exact Hab|]).
      contradiction.
    + unfold QString.eq_ci in *. now rewrite String.eqb_sym.
  - exact isKnown_fromAbbreviation.
Qed.

Lemma fromAbbreviation_roundtrip_witness :
  fromAbbreviation "AArch64" = Some AARCH64.
Proof.
  apply (proj1 fromAbbreviation_roundtrip AARCH64 "aarch64" "AArch64").
  - simpl. auto.
  - reflexivity.
Defined.

End AbbreviationLookup.

Section ImageTypeRegistry.
Import ReleaseImageType.

Lemma endsWith_refl (s : string) : QString.endsWith s s = true.
Proof. destruct s; cbn [QString.endsWith]; now rewrite String.eqb_refl. Qed.

(** [endsWith] tells that the string is the suffix after some prefix. *)
Lemma endsWith_spec (s suffix : string) :
  QString.endsWith s suffix = true <-> exists p, s = (p ++ suffix)%string.
Proof.
  induction s as [|c s IH]; cbn [QString.endsWith].
  - rewrite orb_false_r. split.
    + intro H. apply String.eqb_eq in H. exists "". now subst.
    + intros [p Hp]. destruct p; simpl in Hp; [|discriminate].
      subst. apply String.eqb_refl.
  - split.
    + intro H. apply orb_true_iff in H. destruct H as [H | H].
      * apply String.eqb_eq in H. exists "". now rewrite <- H.
      * apply IH in H. destruct H as [p ->]. now exists (String c p).
    + intros [p Hp]. apply orb_true_iff. destruct p as [|d p]; simpl in Hp.
      * left. rewrite <- Hp. apply String.eqb_refl.
      * right. injection Hp as _ ->. apply IH. now exists p.
Qed.

Lemma length_append (a b : string) :
  String.length (a ++ b) = (String.length a + String.length b)%nat.
Proof. induction a as [|c a IH]; simpl; [reflexivity | now rewrite IH]. Qed.

(** Two suffixes of the same length of one string are equal. *)
Lemma append_same_length (p q x y : string) :
  String.length x = String.length y ->
  (p ++ x)%string = (q ++ y)%string -> x = y.
Proof.
  revert q; induction p as [|c p IH]; intros [|d q] Hlen H; simpl in H.
  - exact H.
  - apply (f_equal String.length) in H. simpl in H. rewrite length_append in H. lia.
  - apply (f_equal String.length) in H. simpl in H. rewrite length_append in H. lia.
  - injection H as _ H. eauto.
Qed.

Lemma append_assoc (a b c : string) :
  ((a ++ b) ++ c)%string = (a ++ (b ++ c))%string.
Proof. induction a as [|x a IH]; simpl; [reflexivity | now rewrite IH]. Qed.

Lemma fromFilename_loop_first_type (types : list Id) (filename : string) :
  (exists pre post,
      types = pre ++ fromFilename_loop types filename :: post /\
      existsb (fun ab => QString.endsWith_ci filename ab)
        (abbreviation (fromFilename_loop types filename)) = true /\
      Forall (fun t' => existsb (fun ab => QString.endsWith_ci filename ab)
                          (abbreviation t') = false) pre) \/
  (fromFilename_loop types filename = UNKNOWN /\
   Forall (fun t' => existsb (fun ab => QString.endsWith_ci filename ab)
                       (abbreviation t') = false) types).
Proof.
  induction types as [|x types IH]; cbn [fromFilename_loop].
  - right. split; [reflexivity | constructor].
  - destruct (existsb _ (abbreviation x)) eqn:E.
    + left. exists [], types. repeat split; auto.
    + destruct IH as [(pre & post & Hty & Ht & Hpre) | [Hu Hall]].
      * left. exists (x :: pre), post. split; [|split].
        -- simpl. f_equal. exact Hty.
        -- exact Ht.
        -- constructor; assumption.
      * right. split; [exact Hu | constructor; auto].
Qed.

Lemma existsb_false_forall {A : Type} (f : A -> bool) (l : list A) :
  existsb f l = false <-> forall x, In x l -> f x = false.
Proof.
  induction l as [|a l IH]; simpl.
  - split; [intros _ x [] | reflexivity].
  - rewrite orb_false_iff, IH. split.
    + intros [Ha Hl] x [<- | Hx]; auto.
    + intro H. split; auto.
Qed.

(** X4. [ReleaseImageType::fromFilename] classifies by suffix, without
    regard to case, in the order of the types: the type it returns, when it is
    not UNKNOWN, has an abbreviation that ends the file name and no earlier
    type has one; it returns UNKNOWN exactly when no abbreviation of any type
    ends the file name; it never returns the sentinel COUNT. *)
Theorem imageType_fromFilename_suffix :
  (forall filename,
      fromFilename filename <> UNKNOWN ->
      exists pre post,
        all = pre ++ fromFilename filename :: post /\
        (exists ab, In ab (abbreviation (fromFilename filename))
                    /\ QString.endsWith_ci filename ab = true) /\
        (forall t' ab, In t' pre -> In ab (abbreviation t') ->
                       QString.endsWith_ci filename ab = false)) /\
  (forall filename,
      fromFilename filename = UNKNOWN <->
      (forall t ab, In ab (abbreviation t) ->
                    QString.endsWith_ci filename ab = false)) /\
  (forall filename, fromFilename filename <> COUNT).
Proof.
  split; [|split].
  - intros filename Hne. unfold fromFilename in *.
    destruct (fromFilename_loop_first_type all filename)
      as [(pre & post & Hall & Ht & Hpre) | [Hu _]]; [|contradiction].
    exists pre, post. split; [exact Hall|]. split.
    + apply existsb_exists in Ht. exact Ht.
    + intros t' ab Ht' Hab. rewrite Forall_forall in Hpre.
      exact (proj1 (existsb_false_forall _ _) (Hpre t' Ht') ab Hab).
  - intro filename. unfold fromFilename. split.
    + intros Hu t ab Hab.
      destruct (fromFilename_loop_first_type all filename)
        as [(pre & post & Hall & Ht & Hpre) | [_ Hall]].
      * rewrite Hu in Ht. discriminate Ht.
      * rewrite Forall_forall in Hall.
        assert (Ht : In t all \/ abbreviation t = [])
          by (destruct t; simpl; tauto).
        destruct Ht as [Ht | Ht].
        -- exact (proj1 (existsb_false_forall _ _) (Hall t Ht) ab Hab).
        -- rewrite Ht in Hab. contradiction.
    + intro H.
      destruct (fromFilename_loop_first_type all filename)
        as [(pre & post & Hall & Ht & Hpre) | [Hu _]]; [|exact Hu].
      apply existsb_exists in Ht. destruct Ht as (ab & Hab & Hend).
      rewrite (H _ ab Hab) in Hend. discriminate.
  - intro filename. unfold fromFilename.
    destruct (fromFilename_loop_first_type all filename)
      as [(pre & post & Hall & Ht & Hpre) | [Hu _]].
    + intro Hc. rewrite Hc in Ht. discriminate Ht.
    + rewrite Hu. discriminate.
Qed.

Lemma imageType_fromFilename_suffix_witness :
  fromFilename "alt-p9-mipsel.bin" = UNKNOWN.
Proof.
  apply (proj2 (proj1 (proj2 imageType_fromFilename_suffix) "alt-p9-mipsel.bin")).
  intros t ab Hin.
  destruct t; simpl in Hin;
    repeat (destruct Hin as [<- | Hin]; [reflexivity|]); contradiction.
Defined.

Lemma endsWith_length (s x : string) :
  QString.endsWith s x = true -> (String.length x <= String.length s)%nat.
Proof.
  intro H. apply endsWith_spec in H. destruct H as [p ->].
  rewrite length_append. lia.
Qed.

Lemma endsWith_trans (s y x : string) :
  QString.endsWith s y = true -> QString.endsWith y x = true ->
  QString.endsWith s x = true.
Proof.
  intros H1 H2. apply endsWith_spec in H1, H2. destruct H1 as [p ->], H2 as [q ->].
  apply endsWith_spec. exists (p ++ q)%string. now rewrite append_assoc.
Qed.

(** Of two suffixes of one string the shorter is a suffix of the longer. *)
Lemma endsWith_both (s x y : string) :
  QString.endsWith s x = true -> QString.endsWith s y = true ->
  (String.length x <= String.length y)%nat ->
  QString.endsWith y x = true.
Proof.
  induction s as [|c s IH]; cbn [QString.endsWith]; intros Hx Hy Hlen.
  - rewrite orb_false_r in Hx, Hy. apply String.eqb_eq in Hx, Hy. subst.
    apply endsWith_refl.
  - apply orb_true_iff in Hy. destruct Hy as [Hy | Hy].
    + apply String.eqb_eq in Hy. subst y. cbn [QString.endsWith]. exact Hx.
    + apply orb_true_iff in Hx. destruct Hx as [Hx | Hx].
      * apply String.eqb_eq in Hx. subst x. apply endsWith_length in Hy.
        simpl in Hlen. lia.
      * auto.
Qed.

(** Two abbreviations neither of which ends the other never end the same
    file name. *)
Lemma endsWith_ci_excl (filename a b : string) :
  QString.endsWith_ci filename a = true ->
  QString.endsWith (QString.toLower a) (QString.toLower b) = false ->
  QString.endsWith (QString.toLower b) (QString.toLower a) = false ->
  QString.endsWith_ci filename b = false.
Proof.
  unfold QString.endsWith_ci. intros Ha Hab Hba.
  destruct (QString.endsWith (QString.toLower filename) (QString.toLower b)) eqn:Hb;
    [|reflexivity].
  destruct (Nat.le_ge_cases (String.length (QString.toLower a))
              (String.length (QString.toLower b))) as [Hl | Hl].
  - rewrite (endsWith_both _ _ _ Ha Hb Hl) in Hba. discriminate.
  - rewrite (endsWith_both _ _ _ Hb Ha Hl) in Hab. discriminate.
Qed.

Ltac excl H ab :=
  match type of H with
  | QString.endsWith_ci ?f _ = true =>
      first [ assert (QString.endsWith_ci f ab = false)
                by (apply (endsWith_ci_excl _ _ _ H); reflexivity)
            | idtac ]
  end.

Ltac excl_all H :=
  excl H "iso"; excl H "dvd"; excl H "tar"; excl H "tgz"; excl H "tar.gz";
  excl H "archive"; excl H "tar.xz"; excl H "img"; excl H "igz";
  excl H "img.gz"; excl H "ixz"; excl H "img.xz"; excl H "trc";
  excl H "recovery.tar".

Ltac classify :=
  unfold fromFilename, all;
  cbn [fromFilename_loop abbreviation existsb];
  repeat match goal with
         | Hx : QString.endsWith_ci _ _ = _ |- _ => rewrite Hx; clear Hx
         end;
  reflexivity.

Lemma fromFilename_by_suffix (filename : string) (t : Id) (ab : string) :
  In ab (abbreviation t) -> ab <> "recovery.tar" ->
  QString.endsWith_ci filename ab = true -> fromFilename filename = t.
Proof.
  intros Hin Hne H.
  destruct t; simpl in Hin;
    repeat (destruct Hin as [<- | Hin];
            [first [ now contradiction Hne | excl_all H; classify ] |]);
    contradiction.
Qed.

Lemma fromFilename_recovery_tar (filename : string) :
  QString.endsWith_ci filename "recovery.tar" = true ->
  fromFilename filename = TAR.
Proof.
  intro H. apply (fromFilename_by_suffix filename TAR "tar").
  - simpl. auto.
  - discriminate.
  - unfold QString.endsWith_ci in *.
    apply (endsWith_trans _ _ _ H). reflexivity.
Qed.

(** X5. The table of [ReleaseImageType::fromFilename]: for every type but
    RECOVERY_TAR the file names of the type are exactly those that one of its
    abbreviations ends (without regard to case); RECOVERY_TAR is returned
    exactly for the names that end in "trc", because a name that ends in its
    second abbreviation "recovery.tar" ends in "tar" too and TAR comes first:
    such a name is a TAR archive, which is supported for writing. *)
Theorem imageType_fromFilename_table :
  (forall filename t,
      t <> RECOVERY_TAR -> t <> UNKNOWN -> t <> COUNT ->
      (fromFilename filename = t <->
       existsb (fun ab => QString.endsWith_ci filename ab) (abbreviation t) = true)) /\
  (forall filename,
      fromFilename filename = RECOVERY_TAR <->
      QString.endsWith_ci filename "trc" = true) /\
  (forall filename,
      QString.endsWith_ci filename "recovery.tar" = true ->
      fromFilename filename = TAR /\
      supportedForWriting (fromFilename filename) = true).
Proof.
  split; [|split].
  - intros filename t H1 H2 H3. split.
    + intro E. unfold fromFilename in E.
      destruct (fromFilename_loop_first_type all filename)
        as [(pre & post & _ & Ht & _) | [Hu _]].
      * now rewrite E in Ht.
      * rewrite E in Hu. contradiction.
    + intro E. apply existsb_exists in E. destruct E as (ab & Hab & Hend).
      apply (fromFilename_by_suffix filename t ab Hab); [|exact Hend].
      intros ->. destruct t; simpl in Hab; intuition discriminate.
  - intro filename. split.
    + intro E. unfold fromFilename in E.
      destruct (fromFilename_loop_first_type all filename)
        as [(pre & post & _ & Ht & _) | [Hu _]].
      * rewrite E in Ht. cbn [abbreviation existsb] in Ht.
        rewrite orb_false_r in Ht. apply orb_true_iff in Ht.
        destruct Ht as [Ht | Ht]; [exact Ht|].
        apply fromFilename_recovery_tar in Ht. unfold fromFilename in Ht.
        rewrite E in Ht. discriminate.
      * rewrite E in Hu. discriminate.
    + intro E. apply (fromFilename_by_suffix filename RECOVERY_TAR "trc");
        [simpl; auto | discriminate | exact E].
  - intros filename H. rewrite (fromFilename_recovery_tar filename H).
    split; reflexivity.
Qed.

Lemma imageType_fromFilename_table_witness :
  fromFilename "Tavolga-20200101.Recovery.TAR" = TAR /\
  supportedForWriting (fromFilename "Tavolga-20200101.Recovery.TAR") = true.
Proof.
  apply (proj2 (proj2 imageType_fromFilename_table)). reflexivity.
Defined.

Lemma fromFilename_abbreviation (filename : string) :
  fromFilename filename <> UNKNOWN ->
  existsb (fun ab => QString.endsWith_ci filename ab)
    (abbreviation (fromFilename filename)) = true.
Proof.
  intro Hne. unfold fromFilename in *.
  destruct (fromFilename_loop_first_type all filename)
    as [(pre & post & _ & Ht & _) | [Hu _]]; [exact Ht | contradiction].
Qed.

Ltac by_suffix t ab :=
  match goal with
  | H : QString.endsWith_ci ?f ab = true |- _ =>
      rewrite (fromFilename_by_suffix f t ab);
      [reflexivity | simpl; tauto | discriminate | exact H]
  end.

(** X6. What can be done with a file, by its name: it is supported for
    writing exactly when its name ends, without regard to case, in "iso",
    "dvd", "tar", "img", "ixz" or "img.xz"; its MD5 sum can be checked after
    writing exactly when it ends in "iso" or "dvd"; it can be written with a
    root file system exactly when it ends in "archive" or "tar.xz" and the
    program was built for neither macOS nor Windows. *)
Theorem capabilities_by_suffix :
  forall filename,
    (supportedForWriting (fromFilename filename) = true <->
     existsb (fun ab => QString.endsWith_ci filename ab)
       ["iso"; "dvd"; "tar"; "img"; "ixz"; "img.xz"] = true) /\
    (canMD5checkAfterWrite (fromFilename filename) = true <->
     existsb (fun ab => QString.endsWith_ci filename ab) ["iso"; "dvd"] = true) /\
    (forall apple_or_win32,
        canWriteWithRootfs apple_or_win32 (fromFilename filename) = true <->
        apple_or_win32 = false /\
        existsb (fun ab => QString.endsWith_ci filename ab) ["archive"; "tar.xz"]
          = true).
Proof.
  intro filename. split; [|split].
  - split.
    + intro H.
      assert (Hne : fromFilename filename <> UNKNOWN) by (intro E; now rewrite E in H).
      pose proof (fromFilename_abbreviation filename Hne) as Hab.
      destruct (fromFilename filename); try discriminate;
        cbn [abbreviation existsb] in *;
        repeat match goal with
               | Hx : _ || _ = true |- _ =>
                   apply orb_true_iff in Hx; destruct Hx as [Hx | Hx]
               end;
        try discriminate; rewrite Hab; rewrite ?orb_true_r; reflexivity.
    + intro H. cbn [existsb] in H.
      repeat match goal with
             | Hx : _ || _ = true |- _ =>
                 apply orb_true_iff in Hx; destruct Hx as [Hx | Hx]
             end; try discriminate.
      * by_suffix ISO "iso".
      * by_suffix ISO "dvd".
      * by_suffix TAR "tar".
      * by_suffix IMG "img".
      * by_suffix IMG_XZ "ixz".
      * by_suffix IMG_XZ "img.xz".
  - split.
    + intro H.
      assert (Hne : fromFilename filename <> UNKNOWN) by (intro E; now rewrite E in H).
      pose proof (fromFilename_abbreviation filename Hne) as Hab.
      destruct (fromFilename filename); try discriminate. exact Hab.
    + intro H. cbn [existsb] in H.
      repeat match goal with
             | Hx : _ || _ = true |- _ =>
                 apply orb_true_iff in Hx; destruct Hx as [Hx | Hx]
             end; try discriminate.
      * by_suffix ISO "iso".
      * by_suffix ISO "dvd".
  - intro apple_or_win32. split.
    + intro H. destruct apple_or_win32; [discriminate|]. split; [reflexivity|].
      assert (Hne : fromFilename filename <> UNKNOWN) by (intro E; now rewrite E in H).
      pose proof (fromFilename_abbreviation filename Hne) as Hab.
      destruct (fromFilename filename); try discriminate. exact Hab.
    + intros [-> H]. cbn [existsb] in H.
      repeat match goal with
             | Hx : _ || _ = true |- _ =>
                 apply orb_true_iff in Hx; destruct Hx as [Hx | Hx]
             end; try discriminate.
      * by_suffix TAR_XZ "archive".
      * by_suffix TAR_XZ "tar.xz".
Qed.

Lemma capabilities_by_suffix_witness :
  supportedForWriting (fromFilename "alt-p9-rootfs.TAR.XZ") = true <->
  existsb (fun ab => QString.endsWith_ci "alt-p9-rootfs.TAR.XZ" ab)
    ["iso"; "dvd"; "tar"; "img"; "ixz"; "img.xz"] = true.
Proof.
  apply (proj1 (capabilities_by_suffix "alt-p9-rootfs.TAR.XZ")).
Defined.

End ImageTypeRegistry.

(** * Invariants of the catalog under the merge and the loader *)

Section Lifting.

(** A property of the versions that an update of a version keeps and that a
    new version has is kept by an update of the release. *)
Lemma Release_updateUrl_versions (P : ReleaseVersion.t -> Prop)
    (version status : string) (releaseDate : QDateTime) (architecture : string)
    (imageType : ReleaseImageType.Id) (board url sha256 md5 : string) (size : Z)
    (r : Release.t) :
  (forall v, P v ->
     P (fst (fst (ReleaseVersion.updateUrl v status releaseDate architecture
                    imageType board url sha256 md5 size)))) ->
  P (newVersion version status releaseDate architecture imageType board url
       sha256 md5 size) ->
  Forall P (Release.m_versions r) ->
  Forall P (Release.m_versions
              (fst (fst (Release.updateUrl r version status releaseDate
                           architecture imageType board url sha256 md5 size)))).
Proof.
  intros Hupd Hnew Hr.
  destruct (Release.updateUrl_scan (Release.m_versions r) version status
              releaseDate architecture imageType board url sha256 md5 size 0)
    as [[[l b] e]|n] eqn:E.
  - unfold Release.updateUrl. rewrite E. simpl.
    clear - Hupd Hr E. revert E. generalize 0. revert l b e.
    induction Hr as [|v vs Hv Hvs IH]; intros l b e n E; simpl in E; [discriminate|].
    destruct (String.eqb (ReleaseVersion.m_number v) version).
    + specialize (Hupd v Hv).
      destruct (ReleaseVersion.updateUrl v _ _ _ _ _ _ _ _ _) as [[v' b'] e'].
      injection E as <- _ _. now constructor.
    + destruct (Release.updateUrl_scan vs _ _ _ _ _ _ _ _ _ _ _) as [[[l' b'] e']|k] eqn:E';
        [|discriminate].
      injection E as <- _ _. constructor; [exact Hv | eapply IH; eauto].
  - rewrite (Release_updateUrl_fresh _ _ _ _ _ _ _ _ _ _ r n E). cbv zeta.
    set (ver := newVersion _ _ _ _ _ _ _ _ _ _) in *.
    assert (Ha : Forall P (Release.m_versions (fst (Release.addVersion r ver)))).
    { destruct (addVersion_versions r ver) as (pre & post & Hvs & -> & _).
      rewrite Hvs in Hr. apply Forall_app in Hr. destruct Hr as [H1 H2].
      apply Forall_app. split; [exact H1 | now constructor]. }
    destruct (2 <? _); [|exact Ha].
    unfold Release.removeVersion.
    destruct (Release.updateUrl_min _ _ _ _) as [idx|]; [|exact Ha].
    destruct (idx <? _)%nat; [|exact Ha].
    destruct (Release.m_selectedVersion _ =? _); simpl;
      now apply QList_removeAt_Forall.
Qed.

(** A property of the releases that an update of a release keeps is kept by
    an update of the catalog. *)
Lemma ReleaseManager_updateUrl_releases (Q : Release.t -> Prop)
    (name version status : string) (releaseDate : QDateTime)
    (architecture : string) (imageType : ReleaseImageType.Id)
    (board url sha256 md5 : string) (size : Z) (m : ReleaseManager.t) :
  (forall r, Q r ->
     Q (fst (fst (Release.updateUrl r version status releaseDate architecture
                    imageType board url sha256 md5 size)))) ->
  Forall Q (ReleaseManager.m_releases m) ->
  Forall Q (ReleaseManager.m_releases
              (fst (fst (ReleaseManager.updateUrl m name version status
                           releaseDate architecture imageType board url sha256
                           md5 size)))).
Proof.
  intros Hupd Hm. unfold ReleaseManager.updateUrl.
  destruct (negb (ReleaseArchitecture.isKnown architecture)); [exact Hm|].
  destruct (ReleaseImageType.is_UNKNOWN imageType); [exact Hm|].
  destruct (ReleaseManager.updateUrl_loop _ _ _ _ _ _ _ _ _ _ _ _)
    as [[[l b] e]|] eqn:E; [|exact Hm].
  destruct (updateUrl_loop_Some _ _ _ _ _ _ _ _ _ _ _ _ _ _ _ E)
    as (pre & r & post & r' & Hrs & -> & _ & _ & Hu).
  simpl. rewrite Hrs in Hm. apply Forall_app in Hm. destruct Hm as [H1 H2].
  inversion H2 as [|? ? Hr Hpost]; subst.
  apply Forall_app. split; [exact H1|]. constructor; [|exact Hpost].
  specialize (Hupd r Hr). now rewrite Hu in Hupd.
Qed.

(** What every update of the catalog keeps, the loader keeps. *)
Lemma loadReleaseImages_keeps (I : ReleaseManager.t -> Prop) :
  (forall m name version status releaseDate architecture imageType board url
          sha256 md5 size,
      I m ->
      I (fst (fst (ReleaseManager.updateUrl m name version status releaseDate
                     architecture imageType board url sha256 md5 size)))) ->
  forall entries m m' ev,
    I m -> ReleaseManager.loadReleaseImages m entries = Some (m', ev) -> I m'.
Proof.
  intros Hupd entries. induction entries as [|e entries IH]; intros m m' ev Hm H;
    simpl in H.
  - now injection H as <- _.
  - destruct (ReleaseManager.loadReleaseImages_entry m e) as [[m1 ev1]|] eqn:E;
      [|discriminate].
    destruct (ReleaseManager.loadReleaseImages m1 entries) as [[m2 ev2]|] eqn:E2;
      [|discriminate].
    injection H as <- _. apply (IH m1 m2 ev2); [|exact E2].
    unfold ReleaseManager.loadReleaseImages_entry in E.
    destruct (YAML.link e) as [link|]; [|discriminate].
    destruct (YAML.solution e) as [solution|]; [|discriminate].
    cbv zeta in E.
    destruct (negb (QString.isEmpty _) && _ && _).
    + match type of E with
      | context [ReleaseManager.updateUrl m ?a ?b ?c ?d ?e ?f ?g ?h ?i ?j ?k] =>
          specialize (Hupd m a b c d e f g h i j k Hm);
          destruct (ReleaseManager.updateUrl m a b c d e f g h i j k) as [[mm bb] ee]
      end.
      injection E as <- _. exact Hupd.
    + injection E as <- _. exact Hm.
Qed.

(** What the custom release and every new release have, the releases of the
    catalog at start-up have. *)
Lemma ReleaseListModel_new_Forall (Q : Release.t -> Prop)
    (members : list ReleaseListModel.Member) :
  Q ReleaseListModel.customRelease ->
  (forall name display_name summary description icon,
      Q (Release.new name display_name summary description icon [])) ->
  Forall Q (ReleaseListModel.new members).
Proof.
  intros Hc Hn. unfold ReleaseListModel.new.
  apply QList_insert_Forall; [|exact Hc].
  assert (H : forall l, Forall Q l -> Forall Q (ReleaseListModel.load members l)).
  { induction members as [|e members IH]; intros l Hl; simpl; [exact Hl|].
    apply IH. apply QList_insert_Forall; [exact Hl | apply Hn]. }
  apply H. constructor.
Qed.

Lemma map_QList_insert {A B : Type} (f : A -> B) (i : nat) (x : A) (l : list A) :
  map f (QList_insert i x l) = QList_insert i (f x) (map f l).
Proof.
  unfold QList_insert. now rewrite map_app, firstn_map, skipn_map.
Qed.

Lemma map_QList_removeAt {A B : Type} (f : A -> B) (i : nat) (l : list A) :
  map f (QList_removeAt i l) = QList_removeAt i (map f l).
Proof.
  unfold QList_removeAt. now rewrite map_app, firstn_map, skipn_map.
Qed.

Lemma NoDup_middle {A : Type} (x : A) (pre post : list A) :
  NoDup (pre ++ post) -> ~ In x (pre ++ post) -> NoDup (pre ++ x :: post).
Proof.
  induction pre as [|a pre IH]; simpl; intros Hl Hx.
  - now constructor.
  - inversion Hl as [|? ? Ha Hrest]; subst. constructor.
    + intro Hin. apply in_app_or in Hin. destruct Hin as [Hin | [-> | Hin]].
      * apply Ha. apply in_or_app. now left.
      * apply Hx. now left.
      * apply Ha. apply in_or_app. now right.
    + apply IH; [exact Hrest|]. intro Hin. apply Hx. now right.
Qed.

Lemma NoDup_QList_insert {A : Type} (i : nat) (x : A) (l : list A) :
  NoDup l -> ~ In x l -> NoDup (QList_insert i x l).
Proof.
  intros Hl Hx. unfold QList_insert. rewrite <- (firstn_skipn i l) in Hl, Hx.
  now apply NoDup_middle.
Qed.

Lemma NoDup_QList_removeAt {A : Type} (i : nat) (l : list A) :
  NoDup l -> NoDup (QList_removeAt i l).
Proof.
  intro Hl. unfold QList_removeAt.
  destruct (Nat.lt_ge_cases i (List.length l)) as [Hi | Hi].
  - destruct (split_at i l Hi) as (pre & x & post & -> & <-).
    fold (QList_removeAt (List.length pre) (pre ++ x :: post)).
    rewrite QList_removeAt_app. eapply NoDup_remove_1; eauto.
  - rewrite firstn_all2 by lia. rewrite skipn_all2 by lia. now rewrite app_nil_r.
Qed.

End Lifting.

Section UniqueNumbers.

Lemma Release_updateUrl_numbersUnique (r : Release.t) (version status : string)
    (releaseDate : QDateTime) (architecture : string)
    (imageType : ReleaseImageType.Id) (board url sha256 md5 : string) (size : Z) :
  numbersUnique r ->
  numbersUnique (fst (fst (Release.updateUrl r version status releaseDate
                             architecture imageType board url sha256 md5 size))).
Proof.
  unfold numbersUnique, versionNumbers. intro Hr.
  destruct (Release.updateUrl_scan (Release.m_versions r) version status
              releaseDate architecture imageType board url sha256 md5 size 0)
    as [[[l b] e]|n] eqn:E.
  - unfold Release.updateUrl. rewrite E. simpl.
    now rewrite (updateUrl_scan_numbers _ _ _ _ _ _ _ _ _ _ _ _ _ _ _ E).
  - rewrite (Release_updateUrl_fresh _ _ _ _ _ _ _ _ _ _ r n E). cbv zeta.
    set (ver := newVersion _ _ _ _ _ _ _ _ _ _) in *.
    assert (Ha : NoDup (map ReleaseVersion.m_number
                          (Release.m_versions (fst (Release.addVersion r ver))))).
    { destruct (addVersion_versions r ver) as (pre & post & Hvs & -> & _).
      rewrite map_app. cbn [map]. rewrite Hvs, map_app in Hr.
      apply NoDup_middle; [exact Hr|].
      rewrite <- map_app, <- Hvs. intro Hin. apply in_map_iff in Hin.
      destruct Hin as (x & Hx & Hin).
      apply updateUrl_scan_inr in E. rewrite Forall_forall in E.
      apply (E x Hin). exact Hx. }
    destruct (2 <? _); [|exact Ha].
    unfold Release.removeVersion.
    destruct (Release.updateUrl_min _ _ _ _) as [idx|]; [|exact Ha].
    destruct (idx <? _)%nat; [|exact Ha].
    destruct (Release.m_selectedVersion _ =? _); simpl;
      rewrite map_QList_removeAt; now apply NoDup_QList_removeAt.
Qed.

(** X7. No release of the catalog ever holds two versions of one number: it
    is so at start-up, for any sections file, and every record that is merged
    and every release images file that is loaded leaves it so. *)
Theorem version_numbers_unique :
  (forall members, Forall numbersUnique (ReleaseListModel.new members)) /\
  (forall m name version status releaseDate architecture imageType board url
          sha256 md5 size,
      Forall numbersUnique (ReleaseManager.m_releases m) ->
      Forall numbersUnique
        (ReleaseManager.m_releases
           (fst (fst (ReleaseManager.updateUrl m name version status releaseDate
                        architecture imageType board url sha256 md5 size))))) /\
  (forall m entries m' ev,
      Forall numbersUnique (ReleaseManager.m_releases m) ->
      ReleaseManager.loadReleaseImages m entries = Some (m', ev) ->
      Forall numbersUnique (ReleaseManager.m_releases m')).
Proof.
  assert (Hupd : forall m name version status releaseDate architecture imageType
                        board url sha256 md5 size,
             Forall numbersUnique (ReleaseManager.m_releases m) ->
             Forall numbersUnique
               (ReleaseManager.m_releases
                  (fst (fst (ReleaseManager.updateUrl m name version status
                               releaseDate architecture imageType board url
                               sha256 md5 size))))).
  { intros. apply ReleaseManager_updateUrl_releases; [|assumption].
    intros r Hr. now apply Release_updateUrl_numbersUnique. }
  split; [|split].
  - intro members. apply ReleaseListModel_new_Forall.
    + repeat constructor. simpl. tauto.
    + intros. constructor.
  - exact Hupd.
  - intros m entries m' ev Hm H.
    exact (loadReleaseImages_keeps
             (fun m => Forall numbersUnique (ReleaseManager.m_releases m))
             Hupd entries m m' ev Hm H).
Qed.

Lemma version_numbers_unique_witness :
  Forall numbersUnique (ReleaseManager.m_releases catalog3839).
Proof.
  destruct version_numbers_unique as (Hnew & Hupd & _).
  apply Hupd, Hupd. apply Hnew.
Defined.

End UniqueNumbers.

Section VariantInvariants.

Lemma ReleaseVariant_updateUrl_board (x : ReleaseVariant.t) (url sha256 : string)
    (size : Z) :
  ReleaseVariant.m_board (fst (fst (ReleaseVariant.updateUrl x url sha256 size)))
  = ReleaseVariant.m_board x.
Proof.
  unfold ReleaseVariant.updateUrl.
  destruct (negb (QString.isEmpty url) && _);
    destruct (negb (QString.isEmpty sha256) && _);
    destruct (negb (size =? 0) && _); reflexivity.
Qed.

Lemma updateUrl_find_keys (vs l : list ReleaseVariant.t)
    (arch : option ReleaseArchitecture.Id) (board url sha256 : string) (size : Z)
    (ret : bool) (ev : list Signal) :
  ReleaseVersion.updateUrl_find vs arch board url sha256 size = Some (l, ret, ev) ->
  map variantKey l = map variantKey vs.
Proof.
  revert l ret ev; induction vs as [|x vs IH]; intros l ret ev H; simpl in H;
    [discriminate|].
  destruct (ReleaseArchitecture.ptr_eqb _ _ && _).
  - pose proof (ReleaseVariant_updateUrl_arch url sha256 size x) as Ha.
    pose proof (ReleaseVariant_updateUrl_board x url sha256 size) as Hb.
    destruct (ReleaseVariant.updateUrl x url sha256 size) as [[x' b] e].
    injection H as <- _ _. simpl in *. unfold variantKey. now rewrite Ha, Hb.
  - destruct (ReleaseVersion.updateUrl_find vs _ _ _ _ _) as [[[l' b] e]|] eqn:E;
      [|discriminate].
    injection H as <- _ _. simpl. f_equal. eapply IH; eauto.
Qed.

Lemma variantMatches_key (arch : option ReleaseArchitecture.Id) (board : string)
    (x : ReleaseVariant.t) :
  variantMatches arch board x = false -> variantKey x <> (arch, board).
Proof.
  unfold variantMatches, variantKey. intros H E. injection E as Ea Eb.
  rewrite Ea, Eb, ptr_eqb_refl, String.eqb_refl in H. discriminate.
Qed.

Lemma ReleaseVersion_updateUrl_keysUnique (v : ReleaseVersion.t) (status : string)
    (releaseDate : QDateTime) (architecture : string)
    (imageType : ReleaseImageType.Id) (board url sha256 md5 : string) (size : Z) :
  keysUnique v ->
  keysUnique (fst (fst (ReleaseVersion.updateUrl v status releaseDate architecture
                          imageType board url sha256 md5 size))).
Proof.
  unfold keysUnique. intro Hv.
  destruct (ReleaseVersion.Status_leb (ReleaseVersion.statusOfText status)
              (ReleaseVersion.m_status v)) eqn:Hs.
  - rewrite (ReleaseVersion_updateUrl_accepted v status releaseDate architecture
               imageType board url sha256 md5 size Hs).
    destruct (ReleaseVersion.updateUrl_find _ _ _ _ _ _) as [[[l b] e]|] eqn:E; simpl.
    + now rewrite (updateUrl_find_keys _ _ _ _ _ _ _ _ _ E).
    + rewrite map_QList_insert. apply NoDup_QList_insert; [exact Hv|].
      intro Hin. apply in_map_iff in Hin. destruct Hin as (x & Hx & Hin).
      apply updateUrl_find_None in E. rewrite Forall_forall in E.
      exact (variantMatches_key _ _ x (E x Hin) Hx).
  - unfold ReleaseVersion.updateUrl. now rewrite Hs.
Qed.

(** X8. No version of the catalog ever holds two variants of one
    architecture and board: it is so at start-up, and every record that is
    merged and every release images file that is loaded leaves it so. *)
Theorem variant_keys_unique :
  (forall members,
      Forall (fun r => Forall keysUnique (Release.m_versions r))
        (ReleaseListModel.new members)) /\
  (forall m name version status releaseDate architecture imageType board url
          sha256 md5 size,
      Forall (fun r => Forall keysUnique (Release.m_versions r))
        (ReleaseManager.m_releases m) ->
      Forall (fun r => Forall keysUnique (Release.m_versions r))
        (ReleaseManager.m_releases
           (fst (fst (ReleaseManager.updateUrl m name version status releaseDate
                        architecture imageType board url sha256 md5 size))))) /\
  (forall m entries m' ev,
      Forall (fun r => Forall keysUnique (Release.m_versions r))
        (ReleaseManager.m_releases m) ->
      ReleaseManager.loadReleaseImages m entries = Some (m', ev) ->
      Forall (fun r => Forall keysUnique (Release.m_versions r))
        (ReleaseManager.m_releases m')).
Proof.
  assert (Hupd : forall m name version status releaseDate architecture imageType
                        board url sha256 md5 size,
             Forall (fun r => Forall keysUnique (Release.m_versions r))
               (ReleaseManager.m_releases m) ->
             Forall (fun r => Forall keysUnique (Release.m_versions r))
               (ReleaseManager.m_releases
                  (fst (fst (ReleaseManager.updateUrl m name version status
                               releaseDate architecture imageType board url
                               sha256 md5 size))))).
  { intros. apply ReleaseManager_updateUrl_releases; [|assumption].
    intros r Hr. apply Release_updateUrl_versions; [| |exact Hr].
    - intros v Hv. now apply ReleaseVersion_updateUrl_keysUnique.
    - repeat constructor. simpl. tauto. }
  split; [|split].
  - intro members. apply ReleaseListModel_new_Forall.
    + repeat constructor. simpl. tauto.
    + intros. constructor.
  - exact Hupd.
  - intros m entries m' ev Hm H.
    exact (loadReleaseImages_keeps
             (fun m => Forall (fun r => Forall keysUnique (Release.m_versions r))
                         (ReleaseManager.m_releases m))
             Hupd entries m m' ev Hm H).
Qed.

Lemma variant_keys_unique_witness :
  Forall (fun r => Forall keysUnique (Release.m_versions r))
    (ReleaseManager.m_releases
       (fst (fst (feed (fst (fst (feed sampleCatalog "9" "0" "x86-64")))
                    "9" "0" "aarch64")))).
Proof.
  destruct variant_keys_unique as (Hnew & Hupd & _).
  apply Hupd, Hupd. apply Hnew.
Defined.

Local Abbreviation rank_le :=
  (fun a b => ReleaseArchitecture.ptr_rank a <= ReleaseArchitecture.ptr_rank b).

Lemma updateUrl_order_spec (vs : list ReleaseVariant.t)
    (arch : option ReleaseArchitecture.Id) (k : nat) :
  exists pre post,
    vs = pre ++ post /\
    ReleaseVersion.updateUrl_order vs arch k = (k + List.length pre)%nat /\
    Forall (fun x => rank_le (ReleaseVariant.m_arch x) arch) pre /\
    match post with
    | [] => True
    | y :: _ => ReleaseArchitecture.ptr_rank arch
                < ReleaseArchitecture.ptr_rank (ReleaseVariant.m_arch y)
    end.
Proof.
  revert k; induction vs as [|x vs IH]; intro k; simpl.
  - exists [], []. repeat split; auto; simpl; lia.
  - destruct (ReleaseArchitecture.ptr_gtb (ReleaseVariant.m_arch x) arch) eqn:E;
      unfold ReleaseArchitecture.ptr_gtb in E.
    + exists [], (x :: vs). split; [reflexivity|]. split; [simpl; lia|].
      split; [constructor|]. now apply Z.ltb_lt in E.
    + destruct (IH (S k)) as (pre & post & -> & Ho & Hpre & Hpost).
      exists (x :: pre), post. split; [reflexivity|]. split; [|split].
      * rewrite Ho. simpl. lia.
      * constructor; [|exact Hpre]. now apply Z.ltb_ge in E.
      * exact Hpost.
Qed.

Lemma rank_sorted_insert (arch : option ReleaseArchitecture.Id)
    (pre post : list (option ReleaseArchitecture.Id)) :
  StronglySorted rank_le (pre ++ post) ->
  Forall (fun a => rank_le a arch) pre ->
  match post with
  | [] => True
  | y :: _ => ReleaseArchitecture.ptr_rank arch < ReleaseArchitecture.ptr_rank y
  end ->
  StronglySorted rank_le (pre ++ arch :: post).
Proof.
  intros Hs Hpre Hpost.
  apply StronglySorted_app_iff in Hs. destruct Hs as (H1 & H2 & H3).
  assert (Ha : Forall (rank_le arch) post).
  { destruct post as [|y post]; [constructor|].
    inversion H2 as [|? ? _ Hy]; subst. constructor; [lia|].
    eapply Forall_impl; [|exact Hy]. cbv beta. intros z Hz. lia. }
  apply StronglySorted_app_iff. split; [exact H1|]. split.
  - now constructor.
  - rewrite Forall_forall in *. intros a Hin. constructor.
    + exact (Hpre a Hin).
    + exact (H3 a Hin).
Qed.

Lemma updateUrl_find_archs (vs l : list ReleaseVariant.t)
    (arch : option ReleaseArchitecture.Id) (board url sha256 : string) (size : Z)
    (ret : bool) (ev : list Signal) :
  ReleaseVersion.updateUrl_find vs arch board url sha256 size = Some (l, ret, ev) ->
  map ReleaseVariant.m_arch l = map ReleaseVariant.m_arch vs.
Proof.
  intro H. apply updateUrl_find_keys in H.
  apply (f_equal (map fst)) in H. rewrite !map_map in H. exact H.
Qed.

Lemma ReleaseVersion_updateUrl_ordered (v : ReleaseVersion.t) (status : string)
    (releaseDate : QDateTime) (architecture : string)
    (imageType : ReleaseImageType.Id) (board url sha256 md5 : string) (size : Z) :
  variantsOrdered v ->
  variantsOrdered (fst (fst (ReleaseVersion.updateUrl v status releaseDate
                               architecture imageType board url sha256 md5 size))).
Proof.
  unfold variantsOrdered. intro Hv.
  destruct (ReleaseVersion.Status_leb (ReleaseVersion.statusOfText status)
              (ReleaseVersion.m_status v)) eqn:Hs.
  - rewrite (ReleaseVersion_updateUrl_accepted v status releaseDate architecture
               imageType board url sha256 md5 size Hs).
    destruct (ReleaseVersion.updateUrl_find _ _ _ _ _ _) as [[[l b] e]|] eqn:E; simpl.
    + now rewrite (updateUrl_find_archs _ _ _ _ _ _ _ _ _ E).
    + destruct (updateUrl_order_spec (ReleaseVersion.m_variants v)
                  (ReleaseArchitecture.fromAbbreviation architecture) 0)
        as (pre & post & Hvs & -> & Hpre & Hpost).
      rewrite Hvs in *. cbn [Nat.add]. rewrite QList_insert_app.
      rewrite map_app in *. cbn [map]. apply rank_sorted_insert.
      * exact Hv.
      * rewrite Forall_forall in *. intros a Hin. apply in_map_iff in Hin.
        destruct Hin as (x & <- & Hin). exact (Hpre x Hin).
      * destruct post; [exact I | exact Hpost].
  - unfold ReleaseVersion.updateUrl. now rewrite Hs.
Qed.

(** X9. The variants of every version of the catalog stand in the order of
    the architecture registry (the order in which the architectures are listed
    to the user): it is so at start-up, and every record that is merged and
    every release images file that is loaded leaves it so, wherever the new
    variant is inserted. *)
Theorem variants_in_registry_order :
  (forall members,
      Forall (fun r => Forall variantsOrdered (Release.m_versions r))
        (ReleaseListModel.new members)) /\
  (forall m name version status releaseDate architecture imageType board url
          sha256 md5 size,
      Forall (fun r => Forall variantsOrdered (Release.m_versions r))
        (ReleaseManager.m_releases m) ->
      Forall (fun r => Forall variantsOrdered (Release.m_versions r))
        (ReleaseManager.m_releases
           (fst (fst (ReleaseManager.updateUrl m name version status releaseDate
                        architecture imageType board url sha256 md5 size))))) /\
  (forall m entries m' ev,
      Forall (fun r => Forall variantsOrdered (Release.m_versions r))
        (ReleaseManager.m_releases m) ->
      ReleaseManager.loadReleaseImages m entries = Some (m', ev) ->
      Forall (fun r => Forall variantsOrdered (Release.m_versions r))
        (ReleaseManager.m_releases m')).
Proof.
  assert (Hupd : forall m name version status releaseDate architecture imageType
                        board url sha256 md5 size,
             Forall (fun r => Forall variantsOrdered (Release.m_versions r))
               (ReleaseManager.m_releases m) ->
             Forall (fun r => Forall variantsOrdered (Release.m_versions r))
               (ReleaseManager.m_releases
                  (fst (fst (ReleaseManager.updateUrl m name version status
                               releaseDate architecture imageType board url
                               sha256 md5 size))))).
  { intros. apply ReleaseManager_updateUrl_releases; [|assumption].
    intros r Hr. apply Release_updateUrl_versions; [| |exact Hr].
    - intros v Hv. now apply ReleaseVersion_updateUrl_ordered.
    - repeat constructor. }
  split; [|split].
  - intro members. apply ReleaseListModel_new_Forall.
    + repeat constructor.
    + intros. constructor.
  - exact Hupd.
  - intros m entries m' ev Hm H.
    exact (loadReleaseImages_keeps
             (fun m => Forall (fun r => Forall variantsOrdered (Release.m_versions r))
                         (ReleaseManager.m_releases m))
             Hupd entries m m' ev Hm H).
Qed.

Lemma variants_in_registry_order_witness :
  Forall (fun r => Forall variantsOrdered (Release.m_versions r))
    (ReleaseManager.m_releases
       (fst (fst (feed (fst (fst (feed sampleCatalog "9" "0" "aarch64")))
                    "9" "0" "x86-64")))).
Proof.
  destruct variants_in_registry_order as (Hnew & Hupd & _).
  apply Hupd, Hupd. apply Hnew.
Defined.

End VariantInvariants.

(** * The selected version when versions come and go *)

Section Selection.

Lemma selectedVersion_nth (r : Release.t) (k : nat) :
  Release.m_selectedVersion r = Z.of_nat k ->
  Release.selectedVersion r = nth_error (Release.m_versions r) k.
Proof.
  intro Hk. unfold Release.selectedVersion, QList_count. rewrite Hk, Nat2Z.id.
  destruct (0 <=? Z.of_nat k) eqn:E0; [|lia].
  destruct (Z.of_nat k <? Z.of_nat (List.length (Release.m_versions r))) eqn:E1;
    [reflexivity|].
  symmetry. apply nth_error_None. lia.
Qed.

Lemma selectedVersion_Some (r : Release.t) (s : ReleaseVersion.t) :
  Release.selectedVersion r = Some s ->
  exists k, Release.m_selectedVersion r = Z.of_nat k /\
            nth_error (Release.m_versions r) k = Some s.
Proof.
  unfold Release.selectedVersion. intro H.
  destruct (0 <=? Release.m_selectedVersion r) eqn:E0; [|discriminate].
  destruct (_ <? _); [|discriminate].
  exists (Z.to_nat (Release.m_selectedVersion r)). split; [lia | exact H].
Qed.

Lemma nth_error_middle_lt {A : Type} (pre post : list A) (x : A) (k : nat) :
  (k < List.length pre)%nat ->
  nth_error (pre ++ x :: post) k = nth_error (pre ++ post) k.
Proof. intro H. now rewrite !nth_error_app1 by exact H. Qed.

Lemma nth_error_middle_ge {A : Type} (pre post : list A) (x : A) (k : nat) :
  (List.length pre <= k)%nat ->
  nth_error (pre ++ x :: post) (S k) = nth_error (pre ++ post) k.
Proof.
  intro H. rewrite !nth_error_app2 by lia.
  replace (S k - List.length pre)%nat with (S (k - List.length pre)) by lia.
  reflexivity.
Qed.

Lemma nth_error_middle {A : Type} (pre post : list A) (x : A) :
  nth_error (pre ++ x :: post) (List.length pre) = Some x.
Proof. rewrite nth_error_app2 by lia. now rewrite Nat.sub_diag. Qed.

(** The versions and the selection index after [addVersion], by the position
    that the loop finds. *)
Lemma addVersion_shape (r : Release.t) (v : ReleaseVersion.t) :
  exists pre post,
    Release.m_versions r = pre ++ post /\
    Release.m_versions (fst (Release.addVersion r v)) = pre ++ v :: post /\
    Release.m_selectedVersion (fst (Release.addVersion r v)) =
      (if negb (ReleaseVersion.is_FINAL (ReleaseVersion.m_status v))
          && match post with [] => false | _ :: _ => true end
          && (Z.of_nat (List.length pre) <=? Release.m_selectedVersion r)
       then Release.m_selectedVersion r + 1
       else Release.m_selectedVersion r) /\
    Forall (fun x => QString.lt (ReleaseVersion.m_number x)
                       (ReleaseVersion.m_number v) = false) pre /\
    match post with
    | [] => True
    | y :: _ => QString.lt (ReleaseVersion.m_number y) (ReleaseVersion.m_number v) = true
    end.
Proof.
  unfold Release.addVersion.
  destruct (Release.addVersion_pos _ _ 0) as [i|] eqn:E.
  - destruct (addVersion_pos_Some _ _ _ _ E) as (pre & y & post & Hvs & -> & Hpre & Hy).
    exists pre, (y :: post).
    cbn [fst Release.m_versions Release.set_versions Release.m_selectedVersion Nat.add].
    rewrite Hvs, QList_insert_app, andb_true_r. repeat split; auto.
  - exists (Release.m_versions r), [].
    cbn [fst Release.m_versions Release.set_versions Release.m_selectedVersion].
    rewrite app_nil_r, andb_false_r. repeat split; auto.
    now apply addVersion_pos_None in E.
Qed.

Lemma not_lt_trans (a b c : string) :
  QString.lt a b = false -> QString.lt b c = false -> QString.lt a c = false.
Proof.
  intros Hab Hbc. destruct (QString.lt a c) eqn:Hac; [|reflexivity].
  destruct (QString.lt b a) eqn:Hba.
  - rewrite (lt_trans _ _ _ Hba Hac) in Hbc. discriminate.
  - rewrite (lt_total _ _ Hab Hba) in Hac. congruence.
Qed.

(** X10. The selected version when [Release::addVersion] inserts a version: a
    version that is not FINAL never takes the selection; in a release in
    descending order, a version that is not above the selected one leaves the
    selection where it is, whatever its status; a FINAL version above the
    first version of a release whose selection is on the first version
    becomes the selected one, and so does the first version of a release. *)
Theorem addVersion_selection :
  (forall r v s,
      ReleaseVersion.is_FINAL (ReleaseVersion.m_status v) = false ->
      Release.selectedVersion r = Some s ->
      Release.selectedVersion (fst (Release.addVersion r v)) = Some s) /\
  (forall r v s,
      descending (Release.m_versions r) ->
      Release.selectedVersion r = Some s ->
      QString.lt (ReleaseVersion.m_number s) (ReleaseVersion.m_number v) = false ->
      Release.selectedVersion (fst (Release.addVersion r v)) = Some s) /\
  (forall r v first rest,
      Release.m_versions r = first :: rest ->
      Release.m_selectedVersion r = 0 ->
      ReleaseVersion.is_FINAL (ReleaseVersion.m_status v) = true ->
      QString.lt (ReleaseVersion.m_number first) (ReleaseVersion.m_number v) = true ->
      Release.selectedVersion (fst (Release.addVersion r v)) = Some v) /\
  (forall r v,
      Release.m_versions r = [] ->
      Release.m_selectedVersion r = 0 ->
      Release.selectedVersion (fst (Release.addVersion r v)) = Some v).
Proof.
  split; [|split; [|split]].
  - intros r v s Hv Hs.
    destruct (selectedVersion_Some r s Hs) as (k & Hk & Hnth).
    destruct (addVersion_shape r v) as (pre & post & Hvs & Hvs' & Hsel & _).
    rewrite Hv, Hk in Hsel. cbn [negb andb] in Hsel. rewrite Hvs in Hnth.
    destruct post as [|y post]; cbn [negb andb] in Hsel.
    + rewrite (selectedVersion_nth _ k Hsel), Hvs'.
      rewrite app_nil_r in Hnth.
      rewrite nth_error_app1; [exact Hnth|].
      apply nth_error_Some. congruence.
    + destruct (Z.of_nat (List.length pre) <=? Z.of_nat k) eqn:E.
      * rewrite (selectedVersion_nth _ (S k)) by lia. rewrite Hvs'.
        rewrite nth_error_middle_ge by lia. exact Hnth.
      * rewrite (selectedVersion_nth _ k Hsel), Hvs'.
        rewrite nth_error_middle_lt by lia. exact Hnth.
  - intros r v s Hd Hs Hlt.
    destruct (selectedVersion_Some r s Hs) as (k & Hk & Hnth).
    destruct (addVersion_shape r v) as (pre & post & Hvs & Hvs' & Hsel & _ & Hpost).
    assert (Hkpre : (k < List.length pre)%nat).
    { destruct (Nat.lt_ge_cases k (List.length pre)) as [H | H]; [exact H|].
      exfalso. rewrite Hvs in Hnth, Hd. rewrite nth_error_app2 in Hnth by exact H.
      destruct post as [|y post]; [now destruct (k - List.length pre)%nat|].
      unfold descending in Hd. rewrite map_app in Hd.
      apply StronglySorted_app_iff in Hd. destruct Hd as (_ & Hd & _).
      cbn [map] in Hd. inversion Hd as [|? ? _ Hy]; subst.
      destruct (k - List.length pre)%nat as [|j] eqn:Ej; simpl in Hnth.
      - injection Hnth as <-. congruence.
      - rewrite Forall_forall in Hy.
        assert (Hin : In (ReleaseVersion.m_number s) (map ReleaseVersion.m_number post)).
        { apply in_map. eapply nth_error_In; eauto. }
        specialize (Hy _ Hin). cbv beta in Hy.
        rewrite (not_lt_trans _ _ _ Hy Hlt) in Hpost. discriminate. }
    assert (Hsel' : Release.m_selectedVersion (fst (Release.addVersion r v))
                    = Z.of_nat k).
    { rewrite Hsel, Hk.
      destruct (Z.of_nat (List.length pre) <=? Z.of_nat k) eqn:E; [lia|].
      now rewrite andb_false_r. }
    rewrite (selectedVersion_nth _ k Hsel'), Hvs'.
    rewrite nth_error_middle_lt by exact Hkpre. now rewrite <- Hvs.
  - intros r v first rest Hvs H0 Hv Hlt.
    unfold Release.addVersion. rewrite Hvs. cbn [Release.addVersion_pos].
    rewrite Hlt, Hv. cbn [negb andb fst].
    now rewrite (selectedVersion_nth _ 0%nat) by exact H0.
  - intros r v Hvs H0.
    unfold Release.addVersion. rewrite Hvs. cbn [Release.addVersion_pos fst].
    now rewrite (selectedVersion_nth _ 0%nat) by exact H0.
Qed.

Lemma addVersion_selection_witness :
  Release.selectedVersion
    (fst (Release.addVersion oneVersionRelease
            (fst (ReleaseVersion.new "10" ReleaseVersion.BETA None))))
  = Some oneVariantVersion.
Proof.
  apply (proj1 addVersion_selection); reflexivity.
Defined.

(** X11. The selected version when [Release::removeVersion] removes the
    version at position [idx]: when it is the selected one, the selection
    goes to the first of the versions that are left and the change is
    signalled; a removal behind the selected version leaves the selection;
    a removal before it leaves the index, so that the selection passes
    to the version that followed the selected one (to none when there is
    none), and only [versionsChanged] is emitted. *)
Theorem removeVersion_selection :
  (forall r idx,
      (idx < List.length (Release.m_versions r))%nat ->
      Release.m_selectedVersion r = Z.of_nat idx ->
      let '(r', ev) := Release.removeVersion r (Some idx) in
      Release.selectedVersion r' = nth_error (Release.m_versions r') 0 /\
      ev = [selectedVersionChanged; variantChanged; versionsChanged]) /\
  (forall r idx k,
      (idx < List.length (Release.m_versions r))%nat ->
      Release.m_selectedVersion r = Z.of_nat k ->
      (k < idx)%nat ->
      let '(r', ev) := Release.removeVersion r (Some idx) in
      Release.selectedVersion r' = Release.selectedVersion r /\
      ev = [versionsChanged]) /\
  (forall r idx k,
      (idx < List.length (Release.m_versions r))%nat ->
      Release.m_selectedVersion r = Z.of_nat k ->
      (idx < k)%nat ->
      let '(r', ev) := Release.removeVersion r (Some idx) in
      Release.selectedVersion r' = nth_error (Release.m_versions r) (S k) /\
      ev = [versionsChanged]).
Proof.
  split; [|split].
  - intros r idx Hidx Hsel. unfold Release.removeVersion.
    apply Nat.ltb_lt in Hidx. rewrite Hidx, Hsel, Z.eqb_refl.
    split; [|reflexivity]. now apply (selectedVersion_nth _ 0%nat).
  - intros r idx k Hidx Hsel Hk. unfold Release.removeVersion.
    pose proof Hidx as Hidx'. apply Nat.ltb_lt in Hidx'. rewrite Hidx', Hsel.
    destruct (Z.of_nat k =? Z.of_nat idx) eqn:E; [lia|].
    split; [|reflexivity].
    rewrite (selectedVersion_nth r k Hsel).
    rewrite (selectedVersion_nth _ k) by reflexivity.
    cbn [Release.m_versions Release.set_versions].
    destruct (split_at idx _ Hidx) as (pre & x & post & Hvs & <-).
    rewrite Hvs, QList_removeAt_app. now rewrite nth_error_middle_lt by exact Hk.
  - intros r idx k Hidx Hsel Hk. unfold Release.removeVersion.
    pose proof Hidx as Hidx'. apply Nat.ltb_lt in Hidx'. rewrite Hidx', Hsel.
    destruct (Z.of_nat k =? Z.of_nat idx) eqn:E; [lia|].
    split; [|reflexivity].
    rewrite (selectedVersion_nth _ k) by reflexivity.
    cbn [Release.m_versions Release.set_versions].
    destruct (split_at idx _ Hidx) as (pre & x & post & Hvs & <-).
    rewrite Hvs, QList_removeAt_app. now rewrite nth_error_middle_ge by lia.
Qed.

Lemma removeVersion_selection_witness :
  let '(r', ev) :=
    Release.removeVersion
      (Release.set_versions emptyRelease
         [finalVersion "41"; finalVersion "40"; finalVersion "39"] 1)
      (Some 0%nat) in
  Release.selectedVersion r' = Some (finalVersion "39") /\ ev = [versionsChanged].
Proof.
  apply (proj2 (proj2 removeVersion_selection)
           (Release.set_versions emptyRelease
              [finalVersion "41"; finalVersion "40"; finalVersion "39"] 1)
           0%nat 1%nat); [simpl; lia | reflexivity | lia].
Defined.

End Selection.

(** * The architecture filter *)

Section FilterArchitecture.
Import ReleaseManager.

Lemma setFilterArchitecture_variants_spec (vs : list ReleaseVariant.t) (o j : Z) :
  Forall (fun x => ReleaseVariant.m_arch x <> None) vs ->
  (exists pre x post a,
      vs = pre ++ x :: post /\
      setFilterArchitecture_variants vs o j = Some (Some (j + Z.of_nat (List.length pre))) /\
      ReleaseVariant.m_arch x = Some a /\ ReleaseArchitecture.index a = o) \/
  (setFilterArchitecture_variants vs o j = Some None /\
   existsb (fun variant =>
              match ReleaseVariant.m_arch variant with
              | Some a => ReleaseArchitecture.index a =? o
              | None => false
              end) vs = false).
Proof.
  intro H. revert j. induction H as [|x vs Hx Hvs IH]; intro j; simpl.
  - right. split; reflexivity.
  - destruct (ReleaseVariant.m_arch x) as [a|] eqn:Ea; [|contradiction].
    destruct (ReleaseArchitecture.index a =? o) eqn:E.
    + left. exists [], x, vs, a. simpl. rewrite Z.add_0_r.
      repeat split; auto. now apply Z.eqb_eq.
    + destruct (IH (j + 1)) as [(pre & y & post & b & -> & Hf & Hb & Hi) | [Hf He]].
      * left. exists (x :: pre), y, post, b. repeat split; auto.
        rewrite Hf. do 2 f_equal. simpl List.length. lia.
      * right. split; [exact Hf | exact He].
Qed.

Lemma setFilterArchitecture_version (v : ReleaseVersion.t) (o : Z) :
  Forall (fun x => ReleaseVariant.m_arch x <> None) (ReleaseVersion.m_variants v) ->
  exists found,
    setFilterArchitecture_variants (ReleaseVersion.m_variants v) o 0 = Some found /\
    followsFilter o v
      (fst match found with
           | Some j => ReleaseVersion.setSelectedVariantIndex v j
           | None => (v, [])
           end).
Proof.
  intro Hv.
  destruct (setFilterArchitecture_variants_spec _ o 0 Hv)
    as [(pre & x & post & a & Hvs & Hf & Ha & Hi) | [Hf He]].
  - eexists. split; [exact Hf|]. cbn [Z.add].
    unfold ReleaseVersion.setSelectedVariantIndex.
    destruct (negb _ && _ && _) eqn:E; cbn [fst].
    + split; [now destruct v|]. split.
      * intros _ _. exists x. split.
        -- unfold ReleaseVersion.selectedVariant, QList_count.
           cbn [ReleaseVersion.m_selectedVariant ReleaseVersion.set_selectedVariant
                ReleaseVersion.m_variants].
           rewrite Hvs, length_app. cbn [List.length].
           replace (0 <=? Z.of_nat (List.length pre)) with true
             by (symmetry; apply Z.leb_le; lia).
           replace (Z.of_nat (List.length pre)
                    <? Z.of_nat (List.length pre + S (List.length post))) with true
             by (symmetry; apply Z.ltb_lt; lia).
           cbn [andb]. rewrite Nat2Z.id. apply nth_error_middle.
        -- rewrite Ha. simpl. now rewrite Hi.
      * intro Ho. unfold offers in Ho. rewrite Hvs, existsb_app in Ho.
        cbn [existsb] in Ho. rewrite Ha in Ho.
        apply Z.eqb_eq in Hi. rewrite Hi in Ho.
        rewrite orb_true_l, orb_true_r in Ho. discriminate.
    + split; [now destruct v|]. split; [|reflexivity].
      intros _ Hvalid. unfold selectionValid in Hvalid.
      rewrite <- andb_assoc, Hvalid, andb_true_r in E.
      apply negb_false_iff, Z.eqb_eq in E.
      exists x. split.
      * unfold ReleaseVersion.selectedVariant.
        rewrite Hvalid, E, Hvs, Nat2Z.id.
        apply nth_error_middle.
      * rewrite Ha. simpl. now rewrite Hi.
  - exists None. split; [exact Hf|]. cbn [fst]. split; [now destruct v|].
    split; [|reflexivity]. unfold offers. intro Ho. rewrite He in Ho. discriminate.
Qed.

Lemma setFilterArchitecture_versions_spec (vs : list ReleaseVersion.t) (o : Z) :
  Forall (fun v => Forall (fun x => ReleaseVariant.m_arch x <> None)
                     (ReleaseVersion.m_variants v)) vs ->
  exists vs' ev,
    setFilterArchitecture_versions vs o = Some (vs', ev) /\
    Forall2 (followsFilter o) vs vs'.
Proof.
  induction 1 as [|v vs Hv Hvs IH]; simpl.
  - exists [], []. split; [reflexivity | constructor].
  - destruct (setFilterArchitecture_version v o Hv) as (found & -> & Hf).
    destruct IH as (vs' & ev' & -> & H2).
    destruct (match found with
              | Some j => ReleaseVersion.setSelectedVariantIndex v j
              | None => (v, [])
              end) as [v' ev].
    eexists _, _. split; [reflexivity|]. now constructor.
Qed.

Lemma setFilterArchitecture_releases_spec (rs : list Release.t) (o : Z) :
  Forall archsNonNull rs ->
  exists rs' ev,
    setFilterArchitecture_releases rs o = Some (rs', ev) /\
    Forall2 (fun r r' =>
               Release.set_versions r (Release.m_versions r')
                 (Release.m_selectedVersion r) = r' /\
               Forall2 (followsFilter o) (Release.m_versions r) (Release.m_versions r'))
      rs rs'.
Proof.
  induction 1 as [|r rs Hr Hrs IH]; simpl.
  - exists [], []. split; [reflexivity | constructor].
  - destruct (setFilterArchitecture_versions_spec _ o Hr) as (vs' & ev & -> & H2).
    destruct IH as (rs' & ev' & -> & H3).
    eexists _, _. split; [reflexivity|]. constructor; [|exact H3].
    split; [reflexivity | exact H2].
Qed.

(** X12. [ReleaseManager::setFilterArchitecture], in a catalog whose variants
    all have an architecture, when the stored filter is a valid index other
    than [o]: the call ends and leaves the filter at [o]; the releases keep
    everything but the selection indices of their versions; every version
    that offers the architecture of index [o] and whose selection was valid
    has a variant of that architecture selected, and a version that does not
    offer it is untouched. *)
Theorem setFilterArchitecture_selects :
  forall m o,
    Forall archsNonNull (m_releases m) ->
    0 <= m_filterArchitecture m < ReleaseArchitecture._ARCHCOUNT ->
    m_filterArchitecture m <> o ->
    exists m' ev,
      setFilterArchitecture m o = Some (m', ev) /\
      m_filterArchitecture m' = o /\
      set_releases (set_filterArchitecture m o) (m_releases m') = m' /\
      Forall2 (fun r r' =>
                 Release.set_versions r (Release.m_versions r')
                   (Release.m_selectedVersion r) = r' /\
                 Forall2 (followsFilter o) (Release.m_versions r)
                   (Release.m_versions r'))
        (m_releases m) (m_releases m').
Proof.
  intros m o Hm Hrange Hne. unfold setFilterArchitecture.
  destruct (negb _ && _ && _) eqn:E.
  - destruct (setFilterArchitecture_releases_spec _ o Hm) as (rs' & ev & -> & H2).
    eexists _, _. split; [reflexivity|]. repeat split; auto.
  - exfalso. apply andb_false_iff in E. destruct E as [E | E]; [|lia].
    apply andb_false_iff in E. destruct E as [E | E]; [|lia].
    apply negb_false_iff, Z.eqb_eq in E. contradiction.
Qed.

Lemma setFilterArchitecture_selects_witness :
  exists m' ev,
    setFilterArchitecture catalog9 3 = Some (m', ev) /\
    m_filterArchitecture m' = 3 /\
    set_releases (set_filterArchitecture catalog9 3) (m_releases m') = m' /\
    Forall2 (fun r r' =>
               Release.set_versions r (Release.m_versions r')
                 (Release.m_selectedVersion r) = r' /\
               Forall2 (followsFilter 3) (Release.m_versions r)
                 (Release.m_versions r'))
      (m_releases catalog9) (m_releases m').
Proof.
  apply (setFilterArchitecture_selects catalog9 3).
  - repeat constructor; discriminate.
  - unfold ReleaseArchitecture._ARCHCOUNT. simpl. lia.
  - discriminate.
Defined.

Lemma index_range (a : ReleaseArchitecture.Id) :
  0 <= ReleaseArchitecture.index a < ReleaseArchitecture._ARCHCOUNT.
Proof. unfold ReleaseArchitecture._ARCHCOUNT. destruct a; simpl; lia. Qed.

Lemma followsFilter_variants (o : Z) (v v' : ReleaseVersion.t) :
  followsFilter o v v' -> ReleaseVersion.m_variants v' = ReleaseVersion.m_variants v.
Proof.
  intros [H _]. apply (f_equal ReleaseVersion.m_variants) in H. exact H.
Qed.

Lemma followsFilter_archsNonNull (o : Z) (r r' : Release.t) :
  Forall2 (followsFilter o) (Release.m_versions r) (Release.m_versions r') ->
  archsNonNull r -> archsNonNull r'.
Proof.
  unfold archsNonNull. intro H2.
  induction H2 as [|v v' vs vs' Hv _ IH]; intro H; [constructor|].
  inversion H as [|? ? Hx Hrest]; subst. constructor; [|now apply IH].
  now rewrite (followsFilter_variants _ _ _ Hv).
Qed.

Lemma hasArchitecture_outside (r : Release.t) (o : Z) :
  o < 0 \/ ReleaseArchitecture._ARCHCOUNT <= o -> hasArchitecture r o = false.
Proof.
  intro Ho. unfold hasArchitecture.
  induction (Release.m_versions r) as [|v vs IH]; [reflexivity|].
  cbn [existsb]. rewrite IH, orb_false_r.
  induction (ReleaseVersion.m_variants v) as [|x xs IHx]; [reflexivity|].
  cbn [existsb]. rewrite IHx, orb_false_r.
  destruct (ReleaseVariant.m_arch x) as [a|]; [|reflexivity].
  apply Z.eqb_neq. pose proof (index_range a). lia.
Qed.

(** X13. The guard of [ReleaseManager::setFilterArchitecture] tests the
    stored index, not the new one: a call with the stored value, or while the
    stored value is no index of the registry, does nothing; any other value is
    taken, an index or not; so after a value that is no index every later
    call, whatever its argument, does nothing, and the list of all releases
    shows the custom release only. *)
Theorem setFilterArchitecture_guard :
  (forall m o,
      m_filterArchitecture m = o \/ m_filterArchitecture m < 0
      \/ ReleaseArchitecture._ARCHCOUNT <= m_filterArchitecture m ->
      setFilterArchitecture m o = Some (m, [])) /\
  (forall m o o',
      Forall archsNonNull (m_releases m) ->
      0 <= m_filterArchitecture m < ReleaseArchitecture._ARCHCOUNT ->
      o < 0 \/ ReleaseArchitecture._ARCHCOUNT <= o ->
      exists m' ev,
        setFilterArchitecture m o = Some (m', ev) /\
        m_filterArchitecture m' = o /\
        setFilterArchitecture m' o' = Some (m', []) /\
        (m_frontPage m = false ->
         forall row r', get m' row = Some r' ->
                        filterAcceptsRow m' row = Some (Release.isLocal r'))).
Proof.
  split.
  - intros m o H. unfold setFilterArchitecture.
    destruct (negb _ && _ && _) eqn:E; [|reflexivity].
    exfalso. apply andb_true_iff in E. destruct E as [E E2].
    apply andb_true_iff in E. destruct E as [E0 E1].
    apply negb_true_iff, Z.eqb_neq in E0. lia.
  - intros m o o' Hm Hrange Ho.
    destruct (setFilterArchitecture_selects m o Hm Hrange ltac:(lia))
      as (m' & ev & Hs & Hf & Hm' & H2).
    exists m', ev. split; [exact Hs|]. split; [exact Hf|]. split.
    + unfold setFilterArchitecture.
      destruct (negb _ && _ && _) eqn:E; [|reflexivity].
      exfalso. apply andb_true_iff in E. destruct E as [E E2].
      apply andb_true_iff in E. destruct E as [E0 E1]. lia.
    + intros Hfp row r' Hget.
      assert (Hr' : archsNonNull r').
      { unfold get in Hget. destruct (_ && _); [|discriminate].
        apply nth_error_In in Hget.
        clear - Hm H2 Hget. induction H2 as [|r r1 rs rs1 [_ Hr] _ IH]; [contradiction|].
        inversion Hm as [|? ? Ha Hrest]; subst.
        destruct Hget as [<- | Hin]; [|now apply IH].
        eapply followsFilter_archsNonNull; eauto. }
      rewrite (filterAcceptsRow_catalog m' row r'); auto.
      * rewrite Hf, (hasArchitecture_outside r' o Ho).
        cbn [andb]. now rewrite orb_false_r.
      * rewrite <- Hm'. exact Hfp.
Qed.

Lemma setFilterArchitecture_guard_witness :
  setFilterArchitecture
    (set_filterArchitecture catalog9 (-1)) 3
  = Some (set_filterArchitecture catalog9 (-1), []).
Proof.
  apply (proj1 setFilterArchitecture_guard). right. left. simpl. lia.
Defined.

End FilterArchitecture.

(** * The file of the user *)

Section LocalFile.





End LocalFile.

(** * The variant while its image is fetched *)

Section Download.
Import ReleaseVariant.

Lemma Status_eqb_eq (a b : Status) : Status_eqb a b = true <-> a = b.
Proof.
  unfold Status_eqb. split.
  - intro H. apply Z.eqb_eq in H. destruct a, b; simpl in H; congruence || lia.
  - intros ->. apply Z.eqb_refl.
Qed.

Lemma setStatus_eq (v : t) (s : Status) :
  setStatus v s =
  (set_status v s,
   if negb (Status_eqb (m_status v) s) then [signal statusChanged] else []).
Proof.
  unfold setStatus. destruct (Status_eqb (m_status v) s) eqn:E; [|reflexivity].
  apply Status_eqb_eq in E. subst s. now destruct v.
Qed.

Lemma setErrorString_eq (v : t) (o : string) :
  setErrorString v o =
  (set_error v o,
   if negb (String.eqb (m_error v) o) then [errorStringChanged] else []).
Proof.
  unfold setErrorString. destruct (String.eqb (m_error v) o) eqn:E; [|reflexivity].
  apply String.eqb_eq in E. subst o. now destruct v.
Qed.

Ltac no_imageChanged Hin :=
  repeat (apply in_app_or in Hin; destruct Hin as [Hin | Hin]);
  repeat match type of Hin with
         | In _ (if ?c then _ else _) => destruct c
         end;
  simpl in Hin; intuition discriminate.

Ltac failed_download v :=
  rewrite setErrorString_eq; cbv iota beta; rewrite setStatus_eq;
  eexists _, _; split; [reflexivity|]; left; eexists;
  split; [destruct v; reflexivity|];
  split; [discriminate|];
  split; [let Hin := fresh "Hin" in intro Hin; no_imageChanged Hin|].

(** The two ways in which [onFileDownloaded] ends when the progress object
    exists. *)
Lemma onFileDownloaded_cases (v : t) (path hash : string)
    (checkResult : MediaCheck) (renameOk : bool) (fileSize : Z) :
  exists v' ev,
    onFileDownloaded v true path hash checkResult renameOk fileSize = Some (v', ev) /\
    ((exists message,
         v' = set_status (set_error (set_temporaryImage v "") message) FAILED_DOWNLOAD /\
         message <> "" /\
         ~ In imageChanged ev /\
         ~ ((m_shaHash v = "" \/ m_shaHash v = hash) /\
            checkResult = ISOMD5SUM_CHECK_OTHER /\
            (QString.removePartSuffix path = path \/ renameOk = true))) \/
     (v' = set_size (set_status (set_image (set_temporaryImage v "")
                                   (QString.removePartSuffix path)) READY) fileSize /\
      In imageChanged ev /\
      (m_shaHash v = "" \/ m_shaHash v = hash) /\
      checkResult = ISOMD5SUM_CHECK_OTHER /\
      (QString.removePartSuffix path = path \/ renameOk = true))).
Proof.
  unfold onFileDownloaded. rewrite setStatus_eq. cbv iota beta zeta.
  cbn [negb m_shaHash set_status set_temporaryImage].
  destruct (negb (QString.isEmpty (m_shaHash v))
            && negb (String.eqb (m_shaHash v) hash)) eqn:Eh.
  - failed_download v.
    apply andb_true_iff in Eh. destruct Eh as [Ee Eh].
    apply negb_true_iff in Ee, Eh. intros [[H | H] _].
    + rewrite H in Ee. discriminate.
    + apply String.eqb_neq in Eh. contradiction.
  - assert (Hhash : m_shaHash v = "" \/ m_shaHash v = hash).
    { apply andb_false_iff in Eh. destruct Eh as [Eh | Eh]; apply negb_false_iff in Eh.
      - left. destruct (m_shaHash v); [reflexivity | discriminate].
      - right. now apply String.eqb_eq. }
    destruct checkResult.
    + failed_download v. intros (_ & Hc & _). discriminate.
    + failed_download v. intros (_ & Hc & _). discriminate.
    + destruct (negb (String.eqb (QString.removePartSuffix path) path)
                && negb renameOk) eqn:Ep.
      * failed_download v.
        apply andb_true_iff in Ep. destruct Ep as [Ep Er].
        apply negb_true_iff in Ep, Er. apply String.eqb_neq in Ep.
        intros (_ & _ & [Hc | Hc]); [contradiction | congruence].
      * assert (Hren : QString.removePartSuffix path = path \/ renameOk = true).
        { apply andb_false_iff in Ep. destruct Ep as [Ep | Ep]; apply negb_false_iff in Ep.
          - left. now apply String.eqb_eq.
          - now right. }
        rewrite setStatus_eq. cbv iota beta.
        destruct (negb (fileSize =? _)) eqn:Es.
        -- eexists _, _. split; [reflexivity|]. right.
           split; [destruct v; reflexivity|].
           split; [|auto].
           apply in_or_app. right. apply in_or_app. left. now left.
        -- eexists _, _. split; [reflexivity|]. right.
           split.
           ++ apply negb_false_iff, Z.eqb_eq in Es. destruct v; cbn in *. now subst.
           ++ split; [|auto].
              apply in_or_app. right. apply in_or_app. left. now left.
Qed.

(** X15. How [ReleaseVariant::onFileDownloaded] ends.  Without progress
    object it fails on a null pointer.  With one it ends in READY or in
    FAILED_DOWNLOAD, and the temporary path is cleared.  READY is reached
    exactly when the expected hash is empty or is the computed one, the media
    check answers neither "failed" nor "file not found", and the file needed
    no renaming or was renamed; the image is then the path without its ".part"
    suffix, the size the one of the file, the error text is kept and
    [imageChanged] is emitted.  Otherwise the image and the size are kept,
    the error text is not empty and [imageChanged] is not emitted.  The url,
    the hashes, the architecture and the board are never touched. *)
Theorem onFileDownloaded_outcome :
  (forall v path hash checkResult renameOk fileSize,
      onFileDownloaded v false path hash checkResult renameOk fileSize = None) /\
  (forall v path hash checkResult renameOk fileSize,
      exists v' ev,
        onFileDownloaded v true path hash checkResult renameOk fileSize
          = Some (v', ev) /\
        m_temporaryImage v' = "" /\
        (m_status v' = READY \/ m_status v' = FAILED_DOWNLOAD) /\
        (m_status v' = READY <->
         (m_shaHash v = "" \/ m_shaHash v = hash) /\
         checkResult = ISOMD5SUM_CHECK_OTHER /\
         (QString.removePartSuffix path = path \/ renameOk = true)) /\
        (In imageChanged ev <-> m_status v' = READY) /\
        (m_status v' = READY ->
         m_image v' = QString.removePartSuffix path /\ m_size v' = fileSize /\
         m_error v' = m_error v) /\
        (m_status v' = FAILED_DOWNLOAD ->
         m_image v' = m_image v /\ m_size v' = m_size v /\ m_error v' <> "") /\
        (m_url v', m_shaHash v', m_md5 v', m_arch v', m_board v', m_image_type v')
        = (m_url v, m_shaHash v, m_md5 v, m_arch v, m_board v, m_image_type v)).
Proof.
  split.
  - intros. unfold onFileDownloaded.
    now destruct (setStatus _ DOWNLOAD_VERIFYING).
  - intros v path hash checkResult renameOk fileSize.
    destruct (onFileDownloaded_cases v path hash checkResult renameOk fileSize)
      as (v' & ev & H & [(message & -> & Hm & Hin & Hnot) | (-> & Hin & Hok)]).
    + eexists _, ev. split; [exact H|]. cbn.
      repeat split; auto; try discriminate; try tauto.
    + eexists _, ev. split; [exact H|]. cbn.
      repeat split; auto; try discriminate; try tauto.
Qed.

Lemma onFileDownloaded_outcome_witness :
  exists v' ev,
    onFileDownloaded
      (new "http://getalt.org/alt.iso" "" "" 0 (Some ReleaseArchitecture.X86_64)
         ReleaseImageType.ISO "PC")
      true "/home/user/Downloads/alt.iso.part" "00ff" ISOMD5SUM_CHECK_OTHER true 42
    = Some (v', ev) /\
    m_status v' = READY /\ m_image v' = "/home/user/Downloads/alt.iso".
Proof.
  destruct (proj2 onFileDownloaded_outcome
              (new "http://getalt.org/alt.iso" "" "" 0
                 (Some ReleaseArchitecture.X86_64) ReleaseImageType.ISO "PC")
              "/home/user/Downloads/alt.iso.part" "00ff" ISOMD5SUM_CHECK_OTHER
              true 42)
    as (v' & ev & H & _ & _ & Hready & _ & Hst & _).
  exists v', ev. split; [exact H|].
  assert (Hr : m_status v' = READY).
  { apply Hready. split; [left; reflexivity|]. split; [reflexivity | now right]. }
  split; [exact Hr|]. exact (proj1 (Hst Hr)).
Defined.

Lemma resetStatus_eq (v : t) :
  resetStatus v =
  (set_error (set_status v (if QString.isEmpty (m_image v) then PREPARING else READY)) "",
   (if negb (Status_eqb (m_status v)
               (if QString.isEmpty (m_image v) then PREPARING else READY))
    then [signal statusChanged] else [])
   ++ (if negb (String.eqb (m_error v) "") then [errorStringChanged] else [])
   ++ [signal statusChanged]).
Proof.
  unfold resetStatus.
  destruct (QString.isEmpty (m_image v)); cbn [negb];
    rewrite setStatus_eq; cbv iota beta; rewrite setErrorString_eq; reflexivity.
Qed.

(** X16. [ReleaseVariant::resetStatus] and [ReleaseVariant::onDownloadError].
    After a reset the error text is empty and the status is READY when the
    variant has an image and PREPARING when it has none, whatever they were;
    [statusChanged] is the last signal of every reset, also of one that
    changes nothing, so that a second reset changes nothing and emits
    exactly this signal.  A download error leaves FAILED_DOWNLOAD and its
    message, and a reset after it gives the state that a reset before it
    gives. *)
Theorem resetStatus_outcome :
  (forall v,
      let '(v', ev) := resetStatus v in
      m_error v' = "" /\
      m_status v' = (if QString.isEmpty (m_image v) then PREPARING else READY) /\
      set_error (set_status v' (m_status v)) (m_error v) = v /\
      exists ev0, ev = ev0 ++ [signal statusChanged]) /\
  (forall v,
      resetStatus (fst (resetStatus v)) = (fst (resetStatus v), [signal statusChanged])) /\
  (forall v message,
      m_status (fst (onDownloadError v message)) = FAILED_DOWNLOAD /\
      m_error (fst (onDownloadError v message)) = message /\
      fst (resetStatus (fst (onDownloadError v message))) = fst (resetStatus v)).
Proof.
  split; [|split].
  - intro v. rewrite resetStatus_eq. split; [reflexivity|]. split; [reflexivity|].
    split; [now destruct v|].
    eexists. rewrite app_assoc. reflexivity.
  - intro v. rewrite !resetStatus_eq. cbn [fst m_image m_status m_error set_error set_status].
    destruct (QString.isEmpty (m_image v)); reflexivity.
  - intros v message. unfold onDownloadError.
    rewrite setErrorString_eq. cbv iota beta. rewrite setStatus_eq.
    cbn [fst]. split; [reflexivity|]. split; [reflexivity|].
    rewrite !resetStatus_eq. cbn [fst m_image set_error set_status].
    reflexivity.
Qed.

End Download.

(** * The loader of the release images files *)

Section Loader.
Import ReleaseManager.

Lemma loadReleaseImages_entry_None (m : t) (e : YAML.Entry) :
  loadReleaseImages_entry m e = None <->
  YAML.link e = None \/ YAML.solution e = None.
Proof.
  unfold loadReleaseImages_entry.
  destruct (YAML.link e) as [link|]; [|split; auto].
  destruct (YAML.solution e) as [solution|]; [|split; auto].
  cbv zeta. split; [|intros [H | H]; discriminate].
  destruct (negb _ && _ && _); [|discriminate].
  now destruct (updateUrl _ _ _ _ _ _ _ _ _ _ _ _) as [[m' b] ev].
Qed.

Lemma loadReleaseImages_None (m : t) (entries : list YAML.Entry) :
  loadReleaseImages m entries = None <->
  Exists (fun e => YAML.link e = None \/ YAML.solution e = None) entries.
Proof.
  revert m; induction entries as [|e entries IH]; intro m; simpl.
  - split; [discriminate | intro H; inversion H].
  - destruct (loadReleaseImages_entry m e) as [[m1 ev1]|] eqn:E.
    + destruct (loadReleaseImages m1 entries) as [[m2 ev2]|] eqn:E2.
      * split; [discriminate|]. intro H. inversion H as [? ? He | ? ? Hes]; subst.
        -- apply (loadReleaseImages_entry_None m) in He. congruence.
        -- apply (IH m1) in Hes. congruence.
      * split; [|reflexivity]. intros _. apply Exists_cons_tl. now apply (IH m1).
    + split; [|reflexivity]. intros _. apply Exists_cons_hd.
      now apply (loadReleaseImages_entry_None m).
Qed.




Lemma loadReleaseImages_keeps_loaded (I : t -> Prop) :
  (forall m name architecture imageType board url md5,
      I m ->
      I (fst (fst (updateUrl m name "9" "0" None architecture imageType board url
                     "" md5 0)))) ->
  forall entries m m' ev,
    I m -> loadReleaseImages m entries = Some (m', ev) -> I m'.
Proof.
  intros Hupd entries. induction entries as [|e entries IH]; intros m m' ev Hm H;
    simpl in H.
  - now injection H as <- _.
  - destruct (loadReleaseImages_entry m e) as [[m1 ev1]|] eqn:E; [|discriminate].
    destruct (loadReleaseImages m1 entries) as [[m2 ev2]|] eqn:E2; [|discriminate].
    injection H as <- _. apply (IH m1 m2 ev2); [|exact E2].
    unfold loadReleaseImages_entry in E.
    destruct (YAML.link e) as [link|]; [|discriminate].
    destruct (YAML.solution e) as [solution|]; [|discriminate].
    cbv zeta in E.
    destruct (negb (QString.isEmpty _) && _ && _).
    + match type of E with
      | context [updateUrl m ?a ?b ?c ?d ?e ?f ?g ?h ?i ?j ?k] =>
          specialize (Hupd m a e f g h j Hm);
          destruct (updateUrl m a b c d e f g h i j k) as [[mm bb] ee]
      end.
      injection E as <- _. exact Hupd.
    + injection E as <- _. exact Hm.
Qed.

Lemma ReleaseVariant_updateUrl_loaded (x : ReleaseVariant.t) (url : string) :
  ReleaseVariant.m_shaHash (fst (fst (ReleaseVariant.updateUrl x url "" 0)))
    = ReleaseVariant.m_shaHash x /\
  ReleaseVariant.m_size (fst (fst (ReleaseVariant.updateUrl x url "" 0)))
    = ReleaseVariant.m_size x.
Proof.
  unfold ReleaseVariant.updateUrl. cbn [QString.isEmpty negb andb Z.eqb].
  destruct (negb (QString.isEmpty url) && _); split; reflexivity.
Qed.

Lemma updateUrl_find_Forall (P : ReleaseVariant.t -> Prop)
    (arch : option ReleaseArchitecture.Id) (board url sha256 : string) (size : Z)
    (vs l : list ReleaseVariant.t) (ret : bool) (ev : list Signal) :
  (forall x, P x -> P (fst (fst (ReleaseVariant.updateUrl x url sha256 size)))) ->
  ReleaseVersion.updateUrl_find vs arch board url sha256 size = Some (l, ret, ev) ->
  Forall P vs -> Forall P l.
Proof.
  intro Hupd. revert l ret ev; induction vs as [|x vs IH]; intros l ret ev H Hvs;
    simpl in H; [discriminate|].
  inversion Hvs as [|? ? Hx Hrest]; subst.
  destruct (ReleaseArchitecture.ptr_eqb _ _ && _).
  - specialize (Hupd x Hx).
    destruct (ReleaseVariant.updateUrl x url sha256 size) as [[x' b] e].
    injection H as <- _ _. now constructor.
  - destruct (ReleaseVersion.updateUrl_find vs _ _ _ _ _) as [[[l' b] e]|] eqn:E;
      [|discriminate].
    injection H as <- _ _. constructor; [exact Hx | eapply IH; eauto].
Qed.

Lemma ReleaseVersion_updateUrl_loaded (v : ReleaseVersion.t) (architecture : string)
    (imageType : ReleaseImageType.Id) (board url md5 : string) :
  asLoaded v ->
  asLoaded (fst (fst (ReleaseVersion.updateUrl v "0" None architecture imageType
                        board url "" md5 0))).
Proof.
  intros (Hs & Hd & Hv).
  assert (Hleb : ReleaseVersion.Status_leb (ReleaseVersion.statusOfText "0")
                   (ReleaseVersion.m_status v) = true) by now rewrite Hs.
  rewrite (ReleaseVersion_updateUrl_accepted v "0" None architecture imageType
             board url "" md5 0 Hleb).
  unfold afterStatusAndDate. cbn [isValid andb]. rewrite andb_false_r.
  destruct (ReleaseVersion.updateUrl_find _ _ _ _ _ _) as [[[l b] e]|] eqn:E;
    cbn [fst]; (split; [reflexivity|]); (split; [exact Hd|]);
    cbn [ReleaseVersion.m_variants ReleaseVersion.set_variants].
  - eapply updateUrl_find_Forall; [|exact E | exact Hv].
    intros x [H1 H2]. destruct (ReleaseVariant_updateUrl_loaded x url) as [-> ->].
    now split.
  - apply QList_insert_Forall; [exact Hv | now split].
Qed.

(** X18. What the loader can never give.  At start-up and after any release
    images files were loaded, every version of the catalog is FINAL and
    without release date and every variant is without expected hash and
    size, because the loader passes none.  So no release has a prerelease to
    show, and the downloaded image of a variant is never refused for its
    hash: whatever hash was computed, the variant is READY once the media
    check and the renaming pass. *)
Theorem loader_gives_no_hash :
  (forall members,
      Forall (fun r => Forall asLoaded (Release.m_versions r))
        (ReleaseListModel.new members)) /\
  (forall m entries m' ev,
      Forall (fun r => Forall asLoaded (Release.m_versions r)) (m_releases m) ->
      loadReleaseImages m entries = Some (m', ev) ->
      Forall (fun r => Forall asLoaded (Release.m_versions r)) (m_releases m')) /\
  (forall r,
      Forall asLoaded (Release.m_versions r) -> Release.prerelease r = "") /\
  (forall v x path hash fileSize,
      asLoaded v -> In x (ReleaseVersion.m_variants v) ->
      exists x' ev,
        ReleaseVariant.onFileDownloaded x true path hash
          ReleaseVariant.ISOMD5SUM_CHECK_OTHER true fileSize = Some (x', ev) /\
        ReleaseVariant.m_status x' = ReleaseVariant.READY).
Proof.
  split; [|split; [|split]].
  - intro members. apply ReleaseListModel_new_Forall.
    + repeat constructor.
    + intros. constructor.
  - intros m entries m' ev Hm H.
    refine (loadReleaseImages_keeps_loaded
              (fun m => Forall (fun r => Forall asLoaded (Release.m_versions r))
                          (m_releases m)) _ entries m m' ev Hm H).
    intros m0 name architecture imageType board url md5 Hm0.
    apply ReleaseManager_updateUrl_releases; [|exact Hm0].
    intros r Hr. apply Release_updateUrl_versions; [| |exact Hr].
    + intros v Hv. now apply ReleaseVersion_updateUrl_loaded.
    + repeat constructor.
  - intros r Hr. unfold Release.prerelease.
    destruct (Release.m_versions r) as [|first rest]; [reflexivity|].
    inversion Hr as [|? ? (Hs & _) _]; subst. now rewrite Hs.
  - intros v x path hash fileSize (_ & _ & Hv) Hin.
    rewrite Forall_forall in Hv. destruct (Hv x Hin) as [Hsha _].
    destruct (onFileDownloaded_cases x path hash ReleaseVariant.ISOMD5SUM_CHECK_OTHER
                true fileSize)
      as (x' & ev & H & [(message & _ & _ & _ & Hnot) | (-> & _)]).
    + exfalso. apply Hnot. split; [now left|]. split; [reflexivity | now right].
    + eexists _, ev. split; [exact H | reflexivity].
Qed.

Lemma loader_gives_no_hash_witness :
  Release.prerelease ReleaseListModel.customRelease = "".
Proof.
  apply (proj1 (proj2 (proj2 loader_gives_no_hash))).
  repeat constructor.
Defined.

Lemma contains_char_cons (c d : ascii) (s : string) :
  QString.contains (String d s) (String c "") =
  Ascii.eqb c d || QString.contains s (String c "").
Proof.
  cbn [QString.contains String.prefix]. rewrite prefix_empty.
  destruct (ascii_dec c d) as [-> | Hne].
  - now rewrite Ascii.eqb_refl.
  - apply Ascii.eqb_neq in Hne. now rewrite Hne.
Qed.

Lemma contains_char_app (c : ascii) (a b : string) :
  QString.contains (a ++ b) (String c "") =
  QString.contains a (String c "") || QString.contains b (String c "").
Proof.
  induction a as [|d a IH].
  - reflexivity.
  - cbn [append]. now rewrite !contains_char_cons, IH, orb_assoc.
Qed.

Lemma replace_char_gone (c : ascii) (after s : string) :
  QString.contains after (String c "") = false ->
  QString.contains (QString.replace (String c "") after s) (String c "") = false.
Proof.
  intro Ha. unfold QString.replace. induction s as [|d s IH]; [reflexivity|].
  cbn [QString.replace_from String.prefix String.length Nat.sub].
  rewrite prefix_empty.
  destruct (ascii_dec c d) as [-> | Hne].
  - rewrite contains_char_app, Ha, IH. reflexivity.
  - rewrite contains_char_cons, IH. apply Ascii.eqb_neq in Hne. now rewrite Hne.
Qed.

(** X19. The text that [ymlToQString] gives holds no line feed, whatever the
    scalar is: the last replacement takes every line feed away and puts a
    space, which is none. *)
Theorem ymlToQString_one_line :
  forall value_std, QString.contains (ymlToQString value_std) LF = false.
Proof.
  intro value_std. unfold ymlToQString, LF. now apply replace_char_gone.
Qed.

Lemma Release_updateUrl_identity (r : Release.t) (version status : string)
    (releaseDate : QDateTime) (architecture : string)
    (imageType : ReleaseImageType.Id) (board url sha256 md5 : string) (size : Z) :
  identity (fst (fst (Release.updateUrl r version status releaseDate architecture
                        imageType board url sha256 md5 size))) = identity r.
Proof.
  unfold Release.updateUrl.
  destruct (Release.updateUrl_scan _ _ _ _ _ _ _ _ _ _ _ _) as [[[l b] e]|n];
    [reflexivity|].
  cbn [ReleaseVersion.new ReleaseVersion.addVariant].
  match goal with |- context [Release.addVersion r ?v] => set (v0 := v) end.
  assert (Ha : identity (fst (Release.addVersion r v0)) = identity r).
  { unfold Release.addVersion. now destruct (Release.addVersion_pos _ _ _). }
  destruct (Release.addVersion r v0) as [ra ev2]. cbn [fst] in Ha.
  destruct (2 <? _); [|exact Ha].
  assert (Hb : forall k, identity (fst (Release.removeVersion ra k)) = identity ra).
  { intro k. unfold Release.removeVersion. destruct k as [idx|]; [|reflexivity].
    destruct (idx <? _)%nat; [|reflexivity].
    now destruct (Release.m_selectedVersion ra =? _). }
  specialize (Hb (Release.updateUrl_min (Release.m_versions ra) 0 "0" None)).
  destruct (Release.removeVersion ra _) as [r2 ev3]. cbn [fst] in *. congruence.
Qed.

Lemma updateUrl_frame (m : t) (name version status : string)
    (releaseDate : QDateTime) (architecture : string)
    (imageType : ReleaseImageType.Id) (board url sha256 md5 : string) (size : Z) :
  let m' := fst (fst (updateUrl m name version status releaseDate architecture
                        imageType board url sha256 md5 size)) in
  rows m' = rows m /\ view m' = view m.
Proof.
  cbv zeta. unfold updateUrl.
  destruct (negb (ReleaseArchitecture.isKnown architecture)); [now split|].
  destruct (ReleaseImageType.is_UNKNOWN imageType); [now split|].
  destruct (updateUrl_loop _ _ _ _ _ _ _ _ _ _ _ _) as [[[l b] e]|] eqn:E;
    [|now split].
  destruct (updateUrl_loop_Some _ _ _ _ _ _ _ _ _ _ _ _ _ _ _ E)
    as (pre & r & post & r' & Hrs & -> & _ & _ & Hu).
  cbn [fst]. split; [|reflexivity].
  unfold rows. cbn [m_releases set_releases]. rewrite Hrs, !map_app. cbn [map].
  pose proof (Release_updateUrl_identity r version status releaseDate architecture
                imageType board url sha256 md5 size) as Hi.
  rewrite Hu in Hi. cbn [fst] in Hi. now rewrite Hi.
Qed.

(** X20. The merge and the loader work inside the releases only: neither a
    merged record nor a loaded release images file adds, removes, reorders
    or renames a release or changes its texts, its icon or its screenshots,
    and neither touches the page, the filters, the selected row or the
    update flag of the manager. *)
Theorem catalog_rows_fixed :
  (forall m name version status releaseDate architecture imageType board url
          sha256 md5 size,
      let m' := fst (fst (updateUrl m name version status releaseDate
                            architecture imageType board url sha256 md5 size)) in
      rows m' = rows m /\ view m' = view m) /\
  (forall m entries m' ev,
      loadReleaseImages m entries = Some (m', ev) ->
      rows m' = rows m /\ view m' = view m).
Proof.
  split; [exact updateUrl_frame|].
  intros m entries m' ev H.
  refine (loadReleaseImages_keeps (fun m1 => rows m1 = rows m /\ view m1 = view m)
            _ entries m m' ev (conj eq_refl eq_refl) H).
  intros m0 name version status releaseDate architecture imageType board url
    sha256 md5 size [Hr Hv].
  destruct (updateUrl_frame m0 name version status releaseDate architecture
              imageType board url sha256 md5 size) as [Hr' Hv'].
  split; congruence.
Qed.

Lemma catalog_rows_fixed_witness :
  rows (fst (fst (feed sampleCatalog "9" "0" "x86-64"))) = rows sampleCatalog /\
  view (fst (fst (feed sampleCatalog "9" "0" "x86-64"))) = view sampleCatalog.
Proof.
  apply (proj1 catalog_rows_fixed).
Defined.

Lemma requests_app (a b : list Event) : requests (a ++ b) = requests a ++ requests b.
Proof. unfold requests. apply flat_map_app. Qed.

Lemma requests_signals (ev : list Signal) : requests (map signal ev) = [].
Proof. induction ev as [|e ev IH]; [reflexivity | exact IH]. Qed.

Lemma readable_loads (Load : string -> option (list YAML.Entry)) (text : string)
    (m : t) :
  readable Load text ->
  exists entries m1 ev,
    Load text = Some entries /\ loadReleaseImages m entries = Some (m1, ev).
Proof.
  intros (entries & HL & Hall).
  destruct (loadReleaseImages m entries) as [[m1 ev]|] eqn:E.
  - now exists entries, m1, ev.
  - exfalso. apply loadReleaseImages_None in E.
    apply Exists_exists in E. destruct E as (e & Hin & He).
    rewrite Forall_forall in Hall. destruct (Hall e Hin) as [H1 H2].
    destruct He; contradiction.
Qed.

(** The downloads from the file at position [i] on. *)
Lemma downloads_from (files : list string) (cacheDir : string)
    (Load : string -> option (list YAML.Entry)) (texts : list string) :
  forall (f : Fetching) (i : nat),
    currentDownloadingReleaseIndex f = Z.of_nat i ->
    Forall (readable Load) texts ->
    (i + List.length texts <= List.length files)%nat ->
    (texts <> [] \/ i < List.length files)%nat ->
    exists f2 ev2 m2,
      downloads files cacheDir Load f texts = Some (f2, ev2) /\
      loadTexts Load (manager f) texts = Some m2 /\
      requests ev2
        = map (append GETALT_IMAGES_LOCATION)
            (firstn (List.length texts) (skipn (S i) files)) /\
      cache f2
        = rev (combine (map (append cacheDir) (skipn i files)) texts) ++ cache f /\
      ((i + List.length texts < List.length files)%nat ->
       manager f2 = m2 /\
       currentDownloadingReleaseIndex f2 = Z.of_nat (i + List.length texts)) /\
      ((i + List.length texts = List.length files)%nat -> texts <> [] ->
       manager f2 = set_beingUpdated m2 false /\
       currentDownloadingReleaseIndex f2 = 0).
Proof.
  induction texts as [|text texts IH]; intros f i Hi Hall Hlen Hne.
  - exists f, [], (manager f). cbn [downloads loadTexts List.length firstn combine rev].
    rewrite Nat.add_0_r. repeat split; auto.
    + destruct (map _ (skipn i files)); reflexivity.
    + congruence.
    + congruence.
  - inversion Hall as [|? ? Htext Hrest]; subst. cbn [List.length] in Hlen.
    destruct (readable_loads Load text (manager f) Htext)
      as (entries & m1 & ev & HL & Hload).
    assert (Hifile : (i < List.length files)%nat) by lia.
    destruct (nth_error files i) as [file|] eqn:Hfile;
      [|apply nth_error_None in Hfile; lia].
    assert (Hskip : skipn i files = file :: skipn (S i) files).
    { clear - Hfile. revert i Hfile.
      induction files as [|x files IHf]; intros [|i] H; try discriminate.
      - now injection H as ->.
      - cbn [skipn]. now apply IHf. }
    cbn [downloads loadTexts]. rewrite HL, Hload.
    unfold onStringDownloaded. rewrite Hi, Nat2Z.id, Hfile, HL, Hload.
    unfold QList_count.
    replace ((0 <=? Z.of_nat i) && (Z.of_nat i <? Z.of_nat (List.length files)))
      with true by (symmetry; apply andb_true_iff; split;
                    [apply Z.leb_le | apply Z.ltb_lt]; lia).
    replace (Z.to_nat (Z.of_nat i + 1)) with (S i) by lia.
    destruct (Nat.lt_ge_cases (S i) (List.length files)) as [Hnext | Hlast].
    + replace (Z.of_nat i + 1 <? Z.of_nat (List.length files)) with true
        by (symmetry; apply Z.ltb_lt; lia).
      destruct (nth_error files (S i)) as [next|] eqn:Hn;
        [|apply nth_error_None in Hn; lia].
      assert (Hskip' : skipn (S i) files = next :: skipn (S (S i)) files).
      { clear - Hn. revert Hn. generalize (S i) as k.
        induction files as [|x files IHf]; intros [|k] H; try discriminate.
        - now injection H as ->.
        - cbn [skipn]. now apply IHf. }
      destruct (IH (mkFetching m1 (Z.of_nat i + 1)
                      (((cacheDir ++ file)%string, text) :: cache f)) (S i))
        as (f2 & ev2 & m2 & Hd & Hl & Hreq & Hcache & Hmid & Hend);
        [cbn; lia | exact Hrest | lia | right; lia |].
      rewrite Hd. cbn [manager] in Hl. rewrite Hl.
      exists f2, ((map signal ev ++ [fetchPageAsync (GETALT_IMAGES_LOCATION ++ next)])
                  ++ ev2), m2.
      split; [reflexivity|]. split; [reflexivity|]. split; [|split; [|split]].
      * rewrite !requests_app, requests_signals, Hreq. cbn [List.length firstn].
        rewrite Hskip'. cbn [requests flat_map app firstn map].
        destruct texts as [|t2 texts]; reflexivity.
      * rewrite Hcache. cbn [cache]. rewrite Hskip.
        cbn [map combine rev]. now rewrite <- app_assoc.
      * intro H. cbn [List.length] in *.
        replace (i + S (List.length texts))%nat with (S i + List.length texts)%nat by lia.
        apply Hmid. lia.
      * intros H _. destruct texts as [|t2 texts].
        -- cbn [List.length] in H. lia.
        -- apply Hend; [cbn [List.length] in *; lia | discriminate].
    + assert (Htexts : texts = []) by (destruct texts; [reflexivity | cbn in Hlen; lia]).
      subst texts.
      replace (Z.of_nat i + 1 <? Z.of_nat (List.length files)) with false
        by (symmetry; apply Z.ltb_ge; lia).
      replace (Z.of_nat i + 1 =? Z.of_nat (List.length files)) with true
        by (symmetry; apply Z.eqb_eq; lia).
      cbn [downloads loadTexts].
      eexists _, _, m1. split; [reflexivity|]. split; [reflexivity|].
      split; [|split; [|split]].
      * rewrite app_nil_r, requests_app, requests_signals. cbn [List.length].
        rewrite skipn_all2 by lia. reflexivity.
      * cbn [cache]. rewrite Hskip, skipn_all2 by lia. reflexivity.
      * cbn [List.length]. lia.
      * intros _ _. split; reflexivity.
Qed.

(** X21. The chain of downloads of the release images files.
    [fetchReleases] sets the update flag and asks for the first file; each
    text that arrives is written to the cache under the name of the file it
    was asked for, loaded, and followed by the request of the next file.  So
    after [k] readable texts the [k + 1] first files were asked for, in order
    and once each, the cache holds the [k] texts, and the catalog is the one
    that loading these texts gives; the flag is still set and the index is
    [k] while files are left, and with the text of the last file the flag is
    cleared and the index is back at 0. *)
Theorem fetch_chain :
  forall files cacheDir Load f texts,
    files <> [] ->
    Forall (readable Load) texts ->
    (List.length texts <= List.length files)%nat ->
    exists f1 ev1 f2 ev2 m2,
      fetchReleases f files = Some (f1, ev1) /\
      downloads files cacheDir Load f1 texts = Some (f2, ev2) /\
      loadTexts Load (set_beingUpdated (manager f) true) texts = Some m2 /\
      requests (ev1 ++ ev2)
        = map (append GETALT_IMAGES_LOCATION) (firstn (S (List.length texts)) files) /\
      cache f2 = rev (combine (map (append cacheDir) files) texts) ++ cache f /\
      ((List.length texts < List.length files)%nat ->
       manager f2 = m2 /\ m_beingUpdated (manager f2) = true /\
       currentDownloadingReleaseIndex f2 = Z.of_nat (List.length texts)) /\
      ((List.length texts = List.length files)%nat ->
       manager f2 = set_beingUpdated m2 false /\
       currentDownloadingReleaseIndex f2 = 0).
Proof.
  intros files cacheDir Load f texts Hfiles Hall Hlen.
  destruct files as [|first files]; [contradiction|].
  cbn [fetchReleases].
  destruct (downloads_from (first :: files) cacheDir Load texts
              (mkFetching (set_beingUpdated (manager f) true) 0 (cache f)) 0%nat)
    as (f2 & ev2 & m2 & Hd & Hl & Hreq & Hcache & Hmid & Hend);
    [reflexivity | exact Hall | exact Hlen | right; cbn; lia |].
  cbn [manager cache skipn Nat.add] in *.
  eexists _, _, f2, ev2, m2. split; [reflexivity|]. split; [exact Hd|].
  split; [exact Hl|]. split; [|split; [exact Hcache | split]].
  - rewrite requests_app, Hreq. reflexivity.
  - intro H. destruct (Hmid H) as [Hm Hi]. split; [exact Hm|]. split; [|exact Hi].
    rewrite Hm.
    assert (Hview : forall ts m0 m3, loadTexts Load m0 ts = Some m3 ->
                                     m_beingUpdated m3 = m_beingUpdated m0).
    { induction ts as [|t ts IHts]; intros m0 m3 H0; cbn [loadTexts] in H0.
      - now injection H0 as <-.
      - destruct (Load t) as [entries|]; [|discriminate].
        destruct (loadReleaseImages m0 entries) as [[m1 e1]|] eqn:E1; [|discriminate].
        rewrite (IHts m1 m3 H0).
        pose proof (loadReleaseImages_keeps
                      (fun mm => view mm = view m0)
                      (fun mm a b c d e g h i j k l Hmm =>
                         eq_trans (proj2 (updateUrl_frame mm a b c d e g h i j k l)) Hmm)
                      entries m0 m1 e1 eq_refl E1) as Hv.
        unfold view in Hv. congruence. }
    now rewrite (Hview texts _ _ Hl).
  - intro H. apply Hend; [exact H|]. intros ->. discriminate.
Qed.

Lemma fetch_chain_witness :
  exists f1 ev1 f2 ev2 m2,
    fetchReleases (mkFetching sampleCatalog 0 []) ["p9.yml"; "p10.yml"] = Some (f1, ev1) /\
    downloads ["p9.yml"; "p10.yml"] "/cache/" (fun _ => Some []) f1 ["a"; "b"]
      = Some (f2, ev2) /\
    loadTexts (fun _ => Some []) (set_beingUpdated sampleCatalog true) ["a"; "b"]
      = Some m2 /\
    requests (ev1 ++ ev2)
      = map (append GETALT_IMAGES_LOCATION) (firstn 3 ["p9.yml"; "p10.yml"]) /\
    cache f2 = rev (combine (map (append "/cache/") ["p9.yml"; "p10.yml"]) ["a"; "b"])
               ++ [] /\
    ((2 < 2)%nat ->
     manager f2 = m2 /\ m_beingUpdated (manager f2) = true /\
     currentDownloadingReleaseIndex f2 = Z.of_nat 2) /\
    ((2 = 2)%nat ->
     manager f2 = set_beingUpdated m2 false /\ currentDownloadingReleaseIndex f2 = 0).
Proof.
  apply (fetch_chain ["p9.yml"; "p10.yml"] "/cache/" (fun _ => Some [])
           (mkFetching sampleCatalog 0 []) ["a"; "b"]).
  - discriminate.
  - constructor; [exists []; split; [reflexivity | constructor]|].
    constructor; [exists []; split; [reflexivity | constructor]|].
    constructor.
  - simpl. lia.
Defined.

End Loader.

(** * The rows of the catalog at start-up *)

Section FrontPage.
Import ReleaseListModel.

Lemma load_app (a b : list Member) (l : list Release.t) :
  load (a ++ b) l = load b (load a l).
Proof. revert l; induction a as [|e a IH]; intro l; [reflexivity | apply IH]. Qed.

Lemma load_length (members : list Member) (l : list Release.t) :
  List.length (load members l) = (List.length members + List.length l)%nat.
Proof.
  revert l; induction members as [|e members IH]; intro l; [reflexivity|].
  cbn [load]. rewrite IH, QList_insert_length. cbn [List.length]. lia.
Qed.

Lemma QList_insert_end {A : Type} (x : A) (l : list A) :
  QList_insert (List.length l) x l = l ++ [x].
Proof.
  unfold QList_insert. now rewrite firstn_all, skipn_all.
Qed.

(** Once a release is in row 0, members other than the workstation leave
    it there. *)
Lemma load_keeps_first (post : list Member) (r : Release.t) (l : list Release.t) :
  Forall (fun e => code e <> "alt-workstation") post ->
  exists l', load post (r :: l) = r :: l'.
Proof.
  intro H. revert l. induction H as [|e post He _ IH]; intro l.
  - now exists l.
  - cbn [load Release.m_name Release.new].
    apply String.eqb_neq in He. rewrite He.
    destruct (String.eqb (code e) "alt-server"); apply IH.
Qed.

(** Members that are neither the workstation nor the server are appended. *)
Lemma load_others (post : list Member) (l : list Release.t) :
  Forall (fun e => code e <> "alt-workstation" /\ code e <> "alt-server") post ->
  load post l = l ++ map releaseOf post.
Proof.
  intro H. revert l. induction H as [|e post [Hw Hs] _ IH]; intro l.
  - now rewrite app_nil_r.
  - cbn [load Release.m_name Release.new].
    apply String.eqb_neq in Hw, Hs. rewrite Hw, Hs.
    rewrite QList_insert_end, IH, <- app_assoc. reflexivity.
Qed.

(** X22. The rows of the catalog at start-up, for any sections file.  There
    is one row for each member and one for the custom release, which stands
    in row 2, or last when there are fewer than two members.  The last member
    that is the workstation gives row 0.  A member that is the server gives
    row 1 when a member stands before it and neither the workstation nor the
    server comes after it.  These rows are among those of the front page. *)
Theorem start_up_rows :
  (forall members,
      List.length (new members) = S (List.length members) /\
      nth_error (new members) (Nat.min 2 (List.length members))
        = Some customRelease) /\
  (forall pre e post,
      code e = "alt-workstation" ->
      Forall (fun e' => code e' <> "alt-workstation") post ->
      nth_error (new (pre ++ e :: post)) 0 = Some (releaseOf e)) /\
  (forall pre e post,
      code e = "alt-server" -> pre <> [] ->
      Forall (fun e' => code e' <> "alt-workstation" /\ code e' <> "alt-server") post ->
      nth_error (new (pre ++ e :: post)) 1 = Some (releaseOf e)) /\
  (forall m row,
      ReleaseManager.m_frontPage m = true -> 0 <= row <= 2 ->
      ReleaseManager.filterAcceptsRow m row = Some true).
Proof.
  split; [|split; [|split]].
  - intro members. unfold new. rewrite QList_insert_length, load_length.
    cbn [List.length]. rewrite Nat.add_0_r. split; [reflexivity|].
    change (Z.to_nat (FRONTPAGE_ROW_COUNT - 1)) with 2%nat.
    pose proof (load_length members []) as Hlen. cbn [List.length] in Hlen.
    rewrite Nat.add_0_r in Hlen. rewrite <- Hlen.
    unfold QList_insert.
    rewrite <- (length_firstn 2 (load members [])) at 1.
    apply nth_error_middle.
  - intros pre e post He Hpost. unfold new.
    rewrite load_app. cbn [load Release.m_name Release.new]. rewrite He.
    cbn [String.eqb Ascii.eqb Bool.eqb]. unfold QList_insert at 2. cbn [firstn skipn app].
    destruct (load_keeps_first post (releaseOf e) (load pre []) Hpost) as (l' & Hl).
    unfold releaseOf in Hl. rewrite He in Hl. rewrite Hl.
    unfold releaseOf. rewrite He. reflexivity.
  - intros pre e post He Hpre Hpost. unfold new.
    rewrite load_app. cbn [load Release.m_name Release.new]. rewrite He.
    cbn [String.eqb Ascii.eqb Bool.eqb].
    rewrite load_others by exact Hpost.
    pose proof (load_length pre []) as Hlen.
    destruct (load pre []) as [|a l] eqn:El.
    + destruct pre; [contradiction | cbn in Hlen; lia].
    + unfold releaseOf. rewrite He. reflexivity.
  - intros m row Hfp Hrow. unfold ReleaseManager.filterAcceptsRow. rewrite Hfp.
    f_equal. apply Z.ltb_lt. unfold FRONTPAGE_ROW_COUNT. lia.
Qed.

Lemma start_up_rows_witness :
  nth_error
    (new ([mkMember "alt-education" "ALT Education" "" "" ""]
          ++ mkMember "alt-workstation" "ALT Workstation" "" "" ""
          :: [mkMember "alt-server" "ALT Server" "" "" ""])) 0
  = Some (releaseOf (mkMember "alt-workstation" "ALT Workstation" "" "" "")).
Proof.
  apply (proj1 (proj2 start_up_rows)).
  - reflexivity.
  - repeat constructor. discriminate.
Defined.

End FrontPage.

(** * The cache of the release images files *)

Section Cache.
Import ReleaseManager.

Lemma loadTexts_app (Load : string -> option (list YAML.Entry)) (a b : list string)
    (m : t) :
  loadTexts Load m (a ++ b) =
  match loadTexts Load m a with
  | Some m1 => loadTexts Load m1 b
  | None => None
  end.
Proof.
  revert m; induction a as [|text a IH]; intro m; [reflexivity|].
  cbn [app loadTexts]. destruct (Load text) as [entries|]; [|reflexivity].
  destruct (loadReleaseImages m entries) as [[m1 ev]|]; [apply IH | reflexivity].
Qed.

Lemma new_cached_all (cacheDir : string) (cache : list (string * string))
    (Load : string -> option (list YAML.Entry)) (files texts : list string) (m : t) :
  cached cacheDir cache files texts ->
  new_cached cacheDir cache Load m files =
  option_map (fun m' => (m', true)) (loadTexts Load m texts).
Proof.
  intro H. revert m. induction H as [|file text files texts Hf _ IH]; intro m;
    [reflexivity|].
  cbn [new_cached loadTexts]. rewrite Hf.
  destruct (Load text) as [entries|]; [|reflexivity].
  destruct (loadReleaseImages m entries) as [[m1 ev]|]; [apply IH | reflexivity].
Qed.

Lemma new_cached_missing (cacheDir : string) (cache : list (string * string))
    (Load : string -> option (list YAML.Entry)) (pre texts : list string)
    (file : string) (post : list string) (m : t) :
  cached cacheDir cache pre texts ->
  cacheFile cache (cacheDir ++ file) = None ->
  new_cached cacheDir cache Load m (pre ++ file :: post) =
  option_map (fun m' => (m', false)) (loadTexts Load m texts).
Proof.
  intros H Hmiss. revert m. induction H as [|f text pre texts Hf _ IH]; intro m.
  - cbn [app new_cached loadTexts option_map]. now rewrite Hmiss.
  - cbn [app new_cached loadTexts]. rewrite Hf.
    destruct (Load text) as [entries|]; [|reflexivity].
    destruct (loadReleaseImages m entries) as [[m1 ev]|]; [apply IH | reflexivity].
Qed.

Lemma new_builtIn_loadTexts (builtIn : string -> string)
    (Load : string -> option (list YAML.Entry)) (files : list string) (m : t) :
  new_builtIn builtIn Load m files = loadTexts Load m (map builtIn files).
Proof.
  revert m; induction files as [|file files IH]; intro m; [reflexivity|].
  cbn [new_builtIn map loadTexts].
  destruct (Load (builtIn file)) as [entries|]; [|reflexivity].
  destruct (loadReleaseImages m entries) as [[m1 ev]|]; [apply IH | reflexivity].
Qed.

Lemma cacheFile_In (L old : list (string * string)) (path text : string) :
  NoDup (map fst L) -> In (path, text) L -> cacheFile (L ++ old) path = Some text.
Proof.
  induction L as [|[p c] L IH]; intros Hnd Hin; [contradiction|].
  cbn [map fst] in Hnd. inversion Hnd as [|? ? Hp Hrest]; subst.
  cbn [app cacheFile]. destruct (String.eqb p path) eqn:E.
  - apply String.eqb_eq in E. subst p. destruct Hin as [Heq | Hin].
    + now injection Heq as ->.
    + exfalso. apply Hp. change path with (fst (path, text)). now apply in_map.
  - destruct Hin as [Heq | Hin].
    + injection Heq as -> _. rewrite String.eqb_refl in E. discriminate.
    + now apply IH.
Qed.

Lemma append_inj (p a b : string) : (p ++ a)%string = (p ++ b)%string -> a = b.
Proof.
  induction p as [|c p IH]; cbn [append]; intro H; [exact H|].
  injection H as H. now apply IH.
Qed.

Lemma NoDup_map_append (p : string) (files : list string) :
  NoDup files -> NoDup (map (append p) files).
Proof.
  induction 1 as [|f files Hf _ IH]; cbn [map]; constructor; [|exact IH].
  intro Hin. apply in_map_iff in Hin. destruct Hin as (g & Hg & Hin).
  apply append_inj in Hg. now subst g.
Qed.

Lemma Forall2_combine_In {A B : Type} (a : list A) (b : list B) :
  List.length a = List.length b ->
  Forall2 (fun x y => In (x, y) (combine a b)) a b.
Proof.
  revert b; induction a as [|x a IH]; intros [|y b] H; try discriminate;
    constructor.
  - now left.
  - eapply Forall2_impl; [|apply IH; now injection H].
    intros u v Hin. now right.
Qed.

Lemma map_fst_combine {A B : Type} (a : list A) (b : list B) :
  List.length a = List.length b -> map fst (combine a b) = a.
Proof.
  revert b; induction a as [|x a IH]; intros [|y b] H; try discriminate;
    [reflexivity|].
  cbn [combine map fst]. f_equal. apply IH. now injection H.
Qed.

(** The texts written by a chain of downloads are found again under the
    names of their files. *)
Lemma cached_after_downloads (cacheDir : string) (old : list (string * string))
    (files texts : list string) :
  NoDup files -> List.length texts = List.length files ->
  cached cacheDir (rev (combine (map (append cacheDir) files) texts) ++ old)
    files texts.
Proof.
  intros Hnd Hlen. unfold cached.
  assert (Hl : List.length (map (append cacheDir) files) = List.length texts)
    by now rewrite length_map.
  pose proof (Forall2_combine_In (map (append cacheDir) files) texts Hl) as H2.
  set (L := combine (map (append cacheDir) files) texts) in *.
  assert (Hnd' : NoDup (map fst (rev L))).
  { rewrite map_rev. apply NoDup_rev. unfold L. rewrite map_fst_combine by exact Hl.
    now apply NoDup_map_append. }
  clearbody L. clear Hl Hlen Hnd.
  revert H2. generalize texts. induction files as [|f files IH]; intros ts H2.
  - inversion H2; subst. constructor.
  - cbn [map] in H2. inversion H2 as [|? t ? ts' Hin Hrest]; subst. constructor.
    + apply cacheFile_In; [exact Hnd'|]. now apply in_rev in Hin.
    + now apply IH.
Qed.

(** X23. The release images files at start-up and the cache.  When the cache
    has every file, the constructor loads the cached texts, in the order of
    the files, and no built-in file.  When a file is missing, the cached
    texts of the files before it stay loaded and all built-in files are loaded
    on top of them.  After a whole chain of downloads over distinct file names
    the cache has every file, so that the next start loads what was
    downloaded: from a catalog that was fresh when the chain began, the new
    start gives the catalog that the chain ended with, the update flag set
    again. *)
Theorem cache_round_trip :
  (forall members files cacheDir cache builtIn Load texts,
      cached cacheDir cache files texts ->
      new members files cacheDir cache builtIn Load =
      option_map (fun m => (m, [singleShot 0]))
        (loadTexts Load (freshManager members) texts)) /\
  (forall members pre file post cacheDir cache builtIn Load texts,
      cached cacheDir cache pre texts ->
      cacheFile cache (cacheDir ++ file) = None ->
      new members (pre ++ file :: post) cacheDir cache builtIn Load =
      option_map (fun m => (m, [singleShot 0]))
        (loadTexts Load (freshManager members)
           (texts ++ map builtIn (pre ++ file :: post)))) /\
  (forall members files cacheDir builtIn Load f texts,
      NoDup files -> files <> [] ->
      List.length texts = List.length files ->
      Forall (readable Load) texts ->
      exists f1 ev1 f2 ev2,
        fetchReleases f files = Some (f1, ev1) /\
        downloads files cacheDir Load f1 texts = Some (f2, ev2) /\
        new members files cacheDir (cache f2) builtIn Load =
        option_map (fun m => (m, [singleShot 0]))
          (loadTexts Load (freshManager members) texts)) /\
  (forall members files cacheDir old builtIn Load texts i,
      NoDup files -> files <> [] ->
      List.length texts = List.length files ->
      Forall (readable Load) texts ->
      exists f1 ev1 f2 ev2 m,
        fetchReleases (mkFetching (freshManager members) i old) files
          = Some (f1, ev1) /\
        downloads files cacheDir Load f1 texts = Some (f2, ev2) /\
        new members files cacheDir (cache f2) builtIn Load
          = Some (m, [singleShot 0]) /\
        manager f2 = set_beingUpdated m false).
Proof.
  split; [|split; [|split]].
  - intros members files cacheDir cache builtIn Load texts H. unfold new.
    fold (freshManager members). rewrite (new_cached_all _ _ _ _ _ _ H).
    now destruct (loadTexts Load (freshManager members) texts).
  - intros members pre file post cacheDir cache builtIn Load texts H Hmiss.
    unfold new. fold (freshManager members).
    rewrite (new_cached_missing _ _ _ _ _ _ post _ H Hmiss), loadTexts_app.
    destruct (loadTexts Load (freshManager members) texts) as [m1|];
      [|reflexivity].
    cbn [option_map]. rewrite new_builtIn_loadTexts.
    now destruct (loadTexts Load m1 _).
  - intros members files cacheDir builtIn Load f texts Hnd Hne Hlen Hall.
    destruct files as [|first files]; [contradiction|].
    cbn [fetchReleases].
    destruct (downloads_from (first :: files) cacheDir Load texts
                (mkFetching (set_beingUpdated (manager f) true) 0 (cache f))
                0%nat)
      as (f2 & ev2 & m2 & Hd & _ & _ & Hcache & _ & _);
      [reflexivity | exact Hall | cbn [Nat.add]; lia | right; cbn; lia |].
    cbn [manager cache skipn Nat.add] in *.
    eexists _, _, f2, ev2. split; [reflexivity|]. split; [exact Hd|].
    unfold new. fold (freshManager members).
    rewrite (new_cached_all cacheDir (cache f2) Load (first :: files) texts).
    + now destruct (loadTexts Load (freshManager members) texts).
    + rewrite Hcache. now apply cached_after_downloads.
  - intros members files cacheDir old builtIn Load texts i Hnd Hne Hlen Hall.
    destruct files as [|first files]; [contradiction|].
    cbn [fetchReleases manager cache].
    destruct (downloads_from (first :: files) cacheDir Load texts
                (mkFetching (set_beingUpdated (freshManager members) true) 0 old)
                0%nat)
      as (f2 & ev2 & m2 & Hd & Hl & _ & Hcache & _ & Hend);
      [reflexivity | exact Hall | cbn [Nat.add]; lia | right; cbn; lia |].
    cbn [manager cache skipn Nat.add] in *.
    assert (Htexts : texts <> []) by (intros ->; discriminate).
    destruct (Hend Hlen Htexts) as [Hm _].
    eexists _, _, f2, ev2, m2. split; [reflexivity|]. split; [exact Hd|].
    split; [|exact Hm].
    unfold new. fold (freshManager members).
    rewrite (new_cached_all cacheDir (cache f2) Load (first :: files) texts).
    + change (set_beingUpdated (freshManager members) true)
        with (freshManager members) in Hl.
      now rewrite Hl.
    + rewrite Hcache. now apply cached_after_downloads.
Qed.

Lemma cache_round_trip_witness :
  new [] ["p9.yml"] "/cache/" [("/cache/p9.yml", "a")] (fun _ => "b")
    (fun _ => Some [])
  = option_map (fun m => (m, [singleShot 0]))
      (loadTexts (fun _ => Some []) (freshManager []) ["a"]).
Proof.
  apply (proj1 cache_round_trip). constructor; [reflexivity | constructor].
Defined.

End Cache.

(** * Starting the download of a variant *)

Section StartDownload.
Import ReleaseVariant.

Lemma lastIndexOf_from_app (c : ascii) (a b : string) (i found : Z) :
  QString.lastIndexOf_from c (a ++ b) i found =
  QString.lastIndexOf_from c b (i + Z.of_nat (String.length a))
    (QString.lastIndexOf_from c a i found).
Proof.
  revert i found; induction a as [|d a IH]; intros i found.
  - cbn [append String.length QString.lastIndexOf_from]. now rewrite Z.add_0_r.
  - cbn [append String.length QString.lastIndexOf_from]. rewrite IH.
    f_equal. lia.
Qed.

Lemma lastIndexOf_from_absent (c : ascii) (s : string) (i found : Z) :
  QString.contains s (String c "") = false ->
  QString.lastIndexOf_from c s i found = found.
Proof.
  revert i; induction s as [|d s IH]; intros i H; [reflexivity|].
  rewrite contains_char_cons in H. apply orb_false_iff in H. destruct H as [Hd Hs].
  cbn [QString.lastIndexOf_from]. rewrite Ascii.eqb_sym, Hd. now apply IH.
Qed.

Lemma substring_0_append (a b : string) :
  String.substring 0 (String.length a) (a ++ b) = a.
Proof.
  induction a as [|c a IH]; cbn [append String.length String.substring].
  - now destruct b.
  - now rewrite IH.
Qed.

Lemma calls_app (a b : list Event) : calls (a ++ b) = calls a ++ calls b.
Proof. unfold calls. apply filter_app. Qed.

Lemma calls_status (c : bool) :
  calls (if c then [signal statusChanged] else []) = [].
Proof. now destruct c. Qed.

Lemma calls_error (c : bool) :
  calls (if c then [errorStringChanged] else []) = [].
Proof. now destruct c. Qed.

(** X24. How [ReleaseVariant::download] ends.  A variant without url that
    has an image is set READY and nothing is asked for.  Otherwise, when the
    variant has a size and no progress object yet, a null pointer is
    dereferenced.  Otherwise the error text is cleared, and the download
    manager is asked for the page of the MD5 sums and then for the file of
    the url, once each; when the path it returns ends in ".part" the variant
    is DOWNLOADING with this path as temporary path, image and size being
    kept; when it does not, the file was there: it is the image, the
    temporary path is empty, the size is the one of the file and the status
    is READY.  The progress object exists afterwards, so that
    [onFileDownloaded] finds it.  The page of the MD5 sums is asked for in
    the directory of the url: what stands before its last slash. *)
Theorem download_outcome :
  (forall v hasProgress ret fileSize,
      m_url v = "" -> m_image v <> "" ->
      download v hasProgress ret fileSize =
      Some (set_status v READY, hasProgress,
            if negb (Status_eqb (m_status v) READY) then [signal statusChanged]
            else [])) /\
  (forall v ret fileSize,
      m_url v <> "" \/ m_image v = "" -> m_size v <> 0 ->
      download v false ret fileSize = None) /\
  (forall v hasProgress ret fileSize,
      m_url v <> "" \/ m_image v = "" -> m_size v = 0 \/ hasProgress = true ->
      exists v' ev,
        download v hasProgress ret fileSize = Some (v', true, ev) /\
        m_error v' = "" /\
        calls ev =
          [fetchPageAsync
             (QString.left (QString.lastIndexOf "/" (m_url v)) (m_url v) ++ "/MD5SUM");
           downloadFile (m_url v)] /\
        (QString.endsWith ret ".part" = true ->
         m_temporaryImage v' = ret /\ m_status v' = DOWNLOADING /\
         m_image v' = m_image v /\ m_size v' = m_size v) /\
        (QString.endsWith ret ".part" = false ->
         m_temporaryImage v' = "" /\ m_status v' = READY /\
         m_image v' = ret /\ m_size v' = fileSize)) /\
  (forall dir name,
      QString.contains name "/" = false ->
      QString.left (QString.lastIndexOf "/" (dir ++ "/" ++ name)) (dir ++ "/" ++ name)
      = dir).
Proof.
  split; [|split; [|split]].
  - intros v hp ret fs Hu Hi. unfold download. rewrite Hu.
    destruct (m_image v) eqn:E; [contradiction|].
    cbn [QString.isEmpty negb andb]. now rewrite setStatus_eq.
  - intros v ret fs Hc Hs. unfold download.
    assert (E : QString.isEmpty (m_url v) && negb (QString.isEmpty (m_image v)) = false).
    { destruct Hc as [Hc | Hc].
      - destruct (m_url v); [contradiction | reflexivity].
      - rewrite Hc. apply andb_false_r. }
    rewrite E, resetStatus_eq. cbv iota beta. rewrite setStatus_eq. cbv iota beta.
    cbn [m_size set_status set_error].
    apply Z.eqb_neq in Hs. now rewrite Hs.
  - intros v hp ret fs Hc Hs. unfold download.
    assert (E : QString.isEmpty (m_url v) && negb (QString.isEmpty (m_image v)) = false).
    { destruct Hc as [Hc | Hc].
      - destruct (m_url v); [contradiction | reflexivity].
      - rewrite Hc. apply andb_false_r. }
    rewrite E, resetStatus_eq. cbv iota beta. rewrite setStatus_eq. cbv iota beta zeta.
    cbn [m_size m_url set_status set_error].
    assert (E2 : negb (m_size v =? 0) && negb hp = false).
    { destruct Hs as [Hs | Hs].
      - now rewrite Hs.
      - rewrite Hs. apply andb_false_r. }
    rewrite E2. destruct (QString.endsWith ret ".part") eqn:Er; cbn [negb].
    + eexists _, _. split; [reflexivity|]. split; [reflexivity|]. split.
      * rewrite !calls_app, !calls_status, calls_error. reflexivity.
      * split; [|discriminate]. intros _. repeat split.
    + rewrite setStatus_eq. cbv iota beta.
      destruct (negb (fs =? _)) eqn:Ef.
      * eexists _, _. split; [reflexivity|]. split; [reflexivity|]. split.
        -- rewrite !calls_app, !calls_status, calls_error. reflexivity.
        -- split; [discriminate|]. intros _. repeat split.
      * eexists _, _. split; [reflexivity|]. split; [reflexivity|]. split.
        -- rewrite !calls_app, !calls_status, calls_error. reflexivity.
        -- split; [discriminate|]. intros _. repeat split.
           apply negb_false_iff, Z.eqb_eq in Ef. cbn in Ef. now rewrite Ef.
  - intros dir name Hname.
    assert (Hl : QString.lastIndexOf "/" (dir ++ "/" ++ name)
                 = Z.of_nat (String.length dir)).
    { unfold QString.lastIndexOf. rewrite lastIndexOf_from_app.
      cbn [append QString.lastIndexOf_from]. rewrite Ascii.eqb_refl.
      now rewrite lastIndexOf_from_absent by exact Hname. }
    rewrite Hl. unfold QString.left.
    replace (Z.of_nat (String.length dir) <? 0) with false
      by (symmetry; apply Z.ltb_ge; lia).
    replace (Z.of_nat (String.length (dir ++ "/" ++ name))
             <=? Z.of_nat (String.length dir)) with false.
    + cbn [orb]. rewrite Nat2Z.id. apply substring_0_append.
    + symmetry. apply Z.leb_gt.
      assert (Hlen : forall a b, String.length (a ++ b)
                                 = (String.length a + String.length b)%nat).
      { intros a b. induction a as [|c a IH]; cbn; [reflexivity | now rewrite IH]. }
      rewrite Hlen. cbn [append String.length]. lia.
Qed.

Lemma download_outcome_witness :
  QString.left (QString.lastIndexOf "/" ("http://getalt.org/images" ++ "/" ++ "alt.iso"))
    ("http://getalt.org/images" ++ "/" ++ "alt.iso")
  = "http://getalt.org/images".
Proof.
  apply (proj2 (proj2 (proj2 download_outcome))). reflexivity.
Defined.

End StartDownload.

(** * The helper that restores a drive *)

Section Restore.
Import RestoreJob.

Lemma work_unmount_spec (objects : list Object) (drivePath : string) :
  Forall (fun c => isUnmount c = true) (work_unmount objects drivePath) /\
  (forall c, In c (work_unmount objects drivePath) <->
             exists i, In i objects /\ Filesystem i = true /\ Drive i = drivePath /\
                       c = Unmount (path i) [("force", true)]).
Proof.
  induction objects as [|i objects [IH1 IH2]]; cbn [work_unmount].
  - split; [constructor|]. intro c. split; [contradiction|].
    intros (i & Hin & _). contradiction.
  - destruct (Filesystem i && String.eqb (Drive i) drivePath) eqn:E.
    + apply andb_true_iff in E. destruct E as [Ef Ed]. apply String.eqb_eq in Ed.
      split; [now constructor|]. intro c. split.
      * intros [<- | Hin].
        -- exists i. repeat split; auto. now left.
        -- apply IH2 in Hin. destruct Hin as (k & Hk & H). exists k. split; [now right | exact H].
      * intros (k & [<- | Hk] & Hf & Hd & ->); [now left|].
        right. apply IH2. now exists k.
    + split; [exact IH1|]. intro c. split.
      * intro Hin. apply IH2 in Hin. destruct Hin as (k & Hk & H).
        exists k. split; [now right | exact H].
      * intros (k & [<- | Hk] & Hf & Hd & ->).
        -- rewrite Hf, Hd, String.eqb_refl in E. discriminate.
        -- apply IH2. now exists k.
Qed.

(** X25. What [RestoreJob::work] does, whatever UDisks2 answers.  It first
    asks for the managed objects and unmounts, by force, exactly the file
    systems that stand on the drive of the device; only then it formats the
    device.  The exit code is the number of the first step that failed:
    1 for the partition table, 2 for the partition, 3 for the file system,
    and 0 when none failed, where an error of the type NoReply counts as
    success for the two formats and as failure for the partition.  No
    partition is made on a device whose table was not written, and no file
    system on a partition that was not made.  With the exit code 0 nothing is
    written to the standard error. *)
Theorem work_outcome :
  forall where_ drivePath managed Size formatReply partitionReply
         formatPartitionReply,
    let '(code, calls, err) :=
      work where_ drivePath managed Size formatReply partitionReply
        formatPartitionReply in
    (code = 0 <->
     accepted formatReply = true /\ (exists p, partitionReply = created p) /\
     accepted formatPartitionReply = true) /\
    (code = 1 <-> accepted formatReply = false) /\
    (code = 2 <->
     accepted formatReply = true /\ exists message, partitionReply = failed message) /\
    (code = 3 <->
     accepted formatReply = true /\ (exists p, partitionReply = created p) /\
     accepted formatPartitionReply = false) /\
    (code = 0 -> err = "") /\
    (exists unmounts rest,
        calls = GetManagedObjects :: unmounts ++ Format where_ "dos" [] :: rest /\
        Forall (fun c => isUnmount c = true) unmounts /\
        (forall c, In c unmounts <->
                   exists objects i,
                     managed = Some objects /\ In i objects /\
                     Filesystem i = true /\ Drive i = drivePath /\
                     c = Unmount (path i) [("force", true)]) /\
        rest =
          (if accepted formatReply
           then CreatePartition where_ 0 Size "" "" []
                :: match partitionReply with
                   | created p => [Format p "vfat" [("update-partition-type", true)]]
                   | failed _ => []
                   end
           else [])).
Proof.
  intros where_ drivePath managed Size formatReply partitionReply
    formatPartitionReply.
  assert (Hu : exists unmounts,
             unmounts = match managed with
                        | Some objects => work_unmount objects drivePath
                        | None => []
                        end /\
             Forall (fun c => isUnmount c = true) unmounts /\
             (forall c, In c unmounts <->
                        exists objects i,
                          managed = Some objects /\ In i objects /\
                          Filesystem i = true /\ Drive i = drivePath /\
                          c = Unmount (path i) [("force", true)])).
  { eexists. split; [reflexivity|]. destruct managed as [objects|].
    - destruct (work_unmount_spec objects drivePath) as [H1 H2]. split; [exact H1|].
      intro c. rewrite H2. split.
      + intros (i & Hin & H). now exists objects, i.
      + intros (objects' & i & Heq & Hin & H). injection Heq as <-. now exists i.
    - split; [constructor|]. intro c. split; [contradiction|].
      intros (objects & i & Heq & _). discriminate. }
  destruct Hu as (unmounts & Heq & HF & Hin).
  unfold work. rewrite <- Heq. clear Heq.
  destruct formatReply as [|[|] m1]; cbn [accepted];
    destruct partitionReply as [p | m2];
    destruct formatPartitionReply as [|[|] m3]; cbn [accepted];
    repeat split;
    try discriminate; try reflexivity; try tauto;
    try (intros (_ & [? H] & _); discriminate);
    try (intros (_ & [? H]); discriminate);
    try (intros (? & _); discriminate);
    try (intros (_ & _ & ?); discriminate);
    try (now eexists);
    try (exists unmounts; eexists; split;
         [cbn [app]; rewrite <- ?app_assoc; reflexivity
         | repeat split; auto; apply Hin]).
Qed.

Lemma work_outcome_witness :
  let '(code, calls, err) :=
    work "/org/freedesktop/UDisks2/block_devices/sdb"
      "/org/freedesktop/UDisks2/drives/Stick"
      (Some [mkObject "/org/freedesktop/UDisks2/block_devices/sdb1" true
               "/org/freedesktop/UDisks2/drives/Stick"])
      4096 valid (created "/org/freedesktop/UDisks2/block_devices/sdb1")
      (error true "no reply") in
  code = 0 /\ err = "".
Proof.
  pose proof (work_outcome "/org/freedesktop/UDisks2/block_devices/sdb"
                "/org/freedesktop/UDisks2/drives/Stick"
                (Some [mkObject "/org/freedesktop/UDisks2/block_devices/sdb1" true
                         "/org/freedesktop/UDisks2/drives/Stick"])
                4096 valid (created "/org/freedesktop/UDisks2/block_devices/sdb1")
                (error true "no reply")) as H.
  cbv beta iota zeta delta [work] in H |- *.
  destruct H as (H0 & _ & _ & _ & He & _).
  assert (Hc : 0 = 0) by (apply H0; repeat split; eexists; reflexivity).
  split; [exact Hc | exact (He Hc)].
Defined.

End Restore.

(** * The order of the versions, over every operation on the list *)

Section OrderEverywhere.

Lemma descending_snoc (vs : list ReleaseVersion.t) (x : ReleaseVersion.t) :
  descending (vs ++ [x]) <->
  descending vs /\
  Forall (fun v => QString.lt (ReleaseVersion.m_number v)
                     (ReleaseVersion.m_number x) = false) vs.
Proof.
  unfold descending. rewrite map_app. cbn [map].
  rewrite StronglySorted_app_iff. split.
  - intros (H1 & _ & H3). split; [exact H1|].
    rewrite Forall_forall in *. intros v Hv.
    specialize (H3 _ (in_map ReleaseVersion.m_number _ _ Hv)).
    now inversion H3.
  - intros (H1 & H3). split; [exact H1|]. split; [repeat constructor|].
    rewrite Forall_forall in *. intros n Hn. apply in_map_iff in Hn.
    destruct Hn as (v & <- & Hv). constructor; [now apply H3 | constructor].
Qed.

Lemma setLocalFile_versions (r : Release.t) (localFile : string) (size : Z) :
  Release.m_versions (fst (Release.setLocalFile r localFile true size)) =
  (if (List.length (Release.m_versions r) =? 1)%nat
   then [] else Release.m_versions r)
  ++ [ReleaseVersion.new_local localFile size].
Proof.
  unfold Release.setLocalFile, QList_count.
  cbn [negb fst Release.m_versions Release.set_versions].
  destruct (Release.m_versions r) as [|v [|w vs]]; try reflexivity.
  cbn [List.length]. 
  replace (Z.of_nat (S (S (List.length vs))) =? 1) with false
    by (symmetry; apply Z.eqb_neq; lia).
  reflexivity.
Qed.

(** C5. [Release::addVersion] puts the new version at the position of the
    first stored version whose number is string-less than the new number, at
    the end when there is none, so after the stored versions of the same
    number; adding "41", "39", "40" in this order to an empty release stores
    ["41"; "40"; "39"].  Descending order of the version numbers holds of a
    new release and of every release of the catalog at start-up, and it is
    kept by [addVersion], by [removeVersion], by [Release::updateUrl], by
    [ReleaseManager::updateUrl] and by the loader on every release of the
    catalog.  [Release::setLocalFile] leaves a lone version when the
    release held one version at most; on a release of two versions or more
    it puts the version "0" at the end, wherever its place would be, so that
    the order holds afterwards exactly when it held before and no stored
    number is string-less than "0". *)
Theorem addVersion_ordering :
  (forall r v,
      exists pre post,
        Release.m_versions r = pre ++ post /\
        Release.m_versions (fst (Release.addVersion r v)) = pre ++ v :: post /\
        Forall (fun x => QString.lt (ReleaseVersion.m_number x)
                           (ReleaseVersion.m_number v) = false) pre /\
        match post with
        | [] => True
        | y :: _ => QString.lt (ReleaseVersion.m_number y)
                      (ReleaseVersion.m_number v) = true
        end) /\
  versionNumbers
    (fst (Release.addVersion
       (fst (Release.addVersion
          (fst (Release.addVersion emptyRelease (finalVersion "41")))
          (finalVersion "39")))
       (finalVersion "40")))
  = ["41"; "40"; "39"] /\
  (forall name display_name summary description icon screenshots,
      descending (Release.m_versions
                    (Release.new name display_name summary description icon
                       screenshots))) /\
  (forall members,
      Forall (fun r => descending (Release.m_versions r))
        (ReleaseListModel.new members)) /\
  (forall r v,
      descending (Release.m_versions r) ->
      descending (Release.m_versions (fst (Release.addVersion r v)))) /\
  (forall r k,
      descending (Release.m_versions r) ->
      descending (Release.m_versions (fst (Release.removeVersion r k)))) /\
  (forall r version status releaseDate architecture imageType board url sha256
          md5 size,
      descending (Release.m_versions r) ->
      descending (Release.m_versions
        (fst (fst (Release.updateUrl r version status releaseDate architecture
                     imageType board url sha256 md5 size))))) /\
  (forall m name version status releaseDate architecture imageType board url
          sha256 md5 size,
      Forall (fun r => descending (Release.m_versions r))
        (ReleaseManager.m_releases m) ->
      Forall (fun r => descending (Release.m_versions r))
        (ReleaseManager.m_releases
           (fst (fst (ReleaseManager.updateUrl m name version status releaseDate
                        architecture imageType board url sha256 md5 size))))) /\
  (forall m entries m' ev,
      Forall (fun r => descending (Release.m_versions r))
        (ReleaseManager.m_releases m) ->
      ReleaseManager.loadReleaseImages m entries = Some (m', ev) ->
      Forall (fun r => descending (Release.m_versions r))
        (ReleaseManager.m_releases m')) /\
  (forall r localFile size,
      fst (Release.setLocalFile r localFile false size) = r) /\
  (forall r localFile size,
      (List.length (Release.m_versions r) <= 1)%nat ->
      Release.m_versions (fst (Release.setLocalFile r localFile true size))
        = [ReleaseVersion.new_local localFile size] /\
      descending
        (Release.m_versions (fst (Release.setLocalFile r localFile true size)))) /\
  (forall r localFile size,
      (2 <= List.length (Release.m_versions r))%nat ->
      Release.m_versions (fst (Release.setLocalFile r localFile true size))
        = Release.m_versions r ++ [ReleaseVersion.new_local localFile size] /\
      ReleaseVersion.m_number (ReleaseVersion.new_local localFile size) = "0" /\
      (descending
         (Release.m_versions (fst (Release.setLocalFile r localFile true size)))
       <->
       descending (Release.m_versions r) /\
       Forall (fun v => QString.lt (ReleaseVersion.m_number v) "0" = false)
         (Release.m_versions r))).
Proof.
  split; [exact addVersion_versions|].
  split; [reflexivity|].
  split; [intros; constructor|].
  split.
  { intro members. apply ReleaseListModel_new_Forall.
    - repeat constructor.
    - intros. constructor. }
  split; [exact addVersion_descending|].
  split; [exact removeVersion_descending|].
  split; [exact updateUrl_descending|].
  split; [exact ReleaseManager_updateUrl_descending|].
  split.
  { intros m entries m' ev Hm H.
    exact (loadReleaseImages_keeps
             (fun m => Forall (fun r => descending (Release.m_versions r))
                         (ReleaseManager.m_releases m))
             ReleaseManager_updateUrl_descending entries m m' ev Hm H). }
  split; [reflexivity|].
  split.
  - intros r localFile size Hlen. rewrite setLocalFile_versions.
    destruct (Release.m_versions r) as [|v [|w vs]];
      cbn [List.length Nat.eqb app] in *; try lia;
      (split; [reflexivity | repeat constructor]).
  - intros r localFile size Hlen. rewrite setLocalFile_versions.
    replace (List.length (Release.m_versions r) =? 1)%nat with false
      by (symmetry; apply Nat.eqb_neq; lia).
    split; [reflexivity|]. split; [reflexivity|].
    apply descending_snoc.
Qed.

Lemma addVersion_ordering_witness :
  descending
    (Release.m_versions
       (fst (Release.addVersion
               (fst (Release.addVersion emptyRelease (finalVersion "41")))
               (finalVersion "39")))).
Proof.
  destruct addVersion_ordering as (_ & _ & Hnew & _ & Hadd & _).
  apply Hadd, Hadd. apply Hnew.
Defined.

(** The version list is not always in descending order: a record whose key
    is "custom" gives the custom release the version "9" before its version
    of the empty number, and a file that the user picks then comes last as
    version "0", behind the empty number. *)
Lemma addVersion_ordering_counterexample :
  let m :=
    fst (fst (ReleaseManager.updateUrl sampleCatalog "custom" "9" "0" None
                "x86-64" ReleaseImageType.ISO "PC" "http://getalt.org/alt.iso"
                "" "" 0)) in
  exists r,
    ReleaseManager.get m 2 = Some r /\
    Release.m_name r = "custom" /\
    versionNumbers r = ["9"; ""] /\
    descending (Release.m_versions r) /\
    versionNumbers (fst (Release.setLocalFile r "/home/user/alt.iso" true 1024))
      = ["9"; ""; "0"] /\
    ~ descending
        (Release.m_versions
           (fst (Release.setLocalFile r "/home/user/alt.iso" true 1024))).
Proof.
  eexists. split; [reflexivity|]. split; [reflexivity|]. split; [reflexivity|].
  split; [repeat constructor|]. split; [reflexivity|].
  intro H. unfold descending in H. cbn in H.
  inversion H as [|? ? H1 _]; subst.
  inversion H1 as [|? ? _ H2]; subst. clear - H2.
  inversion H2 as [|? ? H3 _]; subst. discriminate H3.
Qed.

End OrderEverywhere.

(** * Records of the UNKNOWN architecture in the merge *)

Section UnknownArchitecture.

(** A successful variant loop: the first variant of this architecture and
    board is the one that was updated. *)
Lemma updateUrl_find_Some (vs l : list ReleaseVariant.t)
    (arch : option ReleaseArchitecture.Id) (board url sha256 : string) (size : Z)
    (ret : bool) (ev : list Signal) :
  ReleaseVersion.updateUrl_find vs arch board url sha256 size = Some (l, ret, ev) ->
  exists pre x post,
    vs = pre ++ x :: post /\
    Forall (fun y => variantMatches arch board y = false) pre /\
    variantMatches arch board x = true /\
    l = pre ++ fst (fst (ReleaseVariant.updateUrl x url sha256 size)) :: post.
Proof.
  revert l ret ev; induction vs as [|y vs IH]; intros l ret ev H; simpl in H;
    [discriminate|].
  fold (variantMatches arch board y) in H.
  destruct (variantMatches arch board y) eqn:E.
  - destruct (ReleaseVariant.updateUrl y url sha256 size) as [[y' b] e] eqn:Ey.
    injection H as <- _ _. exists [], y, vs. rewrite Ey. repeat split; auto.
  - destruct (ReleaseVersion.updateUrl_find vs _ _ _ _ _) as [[[l' b] e]|] eqn:El;
      [|discriminate].
    injection H as <- _ _.
    destruct (IH _ _ _ eq_refl) as (pre & x & post & -> & Hpre & Hx & ->).
    exists (y :: pre), x, post. repeat split; auto.
Qed.

(** What a variant holds after [ReleaseVariant::updateUrl]: the address and
    the hash of the record up to surrounding blanks, when they are not
    empty, and its size, when it is not 0. *)
Lemma ReleaseVariant_updateUrl_takes (x : ReleaseVariant.t) (url sha256 : string)
    (size : Z) :
  let x' := fst (fst (ReleaseVariant.updateUrl x url sha256 size)) in
  (QString.isEmpty url = false ->
   QString.trimmed (ReleaseVariant.m_url x') = QString.trimmed url) /\
  (QString.isEmpty sha256 = false ->
   QString.trimmed (ReleaseVariant.m_shaHash x') = QString.trimmed sha256) /\
  (size <> 0 -> ReleaseVariant.m_size x' = size).
Proof.
  cbv zeta. unfold ReleaseVariant.updateUrl.
  destruct (negb (QString.isEmpty url) && _) eqn:E1;
    destruct (negb (QString.isEmpty sha256) && _) eqn:E2;
    cbn [ReleaseVariant.set_url ReleaseVariant.set_shaHash ReleaseVariant.m_size
         ReleaseVariant.m_shaHash ReleaseVariant.m_url] in *;
    destruct (negb (size =? 0) && _) eqn:E3;
    cbn [fst ReleaseVariant.set_url ReleaseVariant.set_shaHash
         ReleaseVariant.set_size ReleaseVariant.m_size ReleaseVariant.m_shaHash
         ReleaseVariant.m_url];
    (split; [|split]); intro H; try reflexivity;
    try (rewrite H in E1; cbn [negb andb] in E1;
         apply negb_false_iff, String.eqb_eq in E1; exact E1);
    try (rewrite H in E2; cbn [negb andb] in E2;
         apply negb_false_iff, String.eqb_eq in E2; exact E2);
    try (apply Z.eqb_neq in H; rewrite H in E3; cbn [negb andb] in E3;
         apply negb_false_iff, Z.eqb_eq in E3; exact E3).
Qed.

Section Record.

Variables (name version status : string) (releaseDate : QDateTime)
  (architecture : string) (imageType : ReleaseImageType.Id)
  (board url sha256 md5 : string) (size : Z).

Local Abbreviation arch := (ReleaseArchitecture.fromAbbreviation architecture).

Local Abbreviation variant :=
  (ReleaseVariant.new url sha256 md5 size arch imageType board).

Local Abbreviation ver :=
  (newVersion version status releaseDate architecture imageType board url sha256
     md5 size).

(** An accepted [ReleaseVersion::updateUrl] leaves a variant of the
    architecture and the board of the record that holds what the record
    tells: the first stored one of this architecture and board, updated, or
    a new one when there is none. *)
Lemma ReleaseVersion_updateUrl_variant (v : ReleaseVersion.t) :
  ReleaseVersion.Status_leb (ReleaseVersion.statusOfText status)
    (ReleaseVersion.m_status v) = true ->
  exists l x,
    fst (fst (ReleaseVersion.updateUrl v status releaseDate architecture
                imageType board url sha256 md5 size))
      = ReleaseVersion.set_variants (afterStatusAndDate v status releaseDate) l /\
    In x l /\
    ReleaseVariant.m_arch x = arch /\
    ReleaseVariant.m_board x = board /\
    (QString.isEmpty url = false ->
     QString.trimmed (ReleaseVariant.m_url x) = QString.trimmed url) /\
    (QString.isEmpty sha256 = false ->
     QString.trimmed (ReleaseVariant.m_shaHash x) = QString.trimmed sha256) /\
    (size <> 0 -> ReleaseVariant.m_size x = size) /\
    (Forall (fun y => variantMatches arch board y = false)
       (ReleaseVersion.m_variants v) ->
     x = variant /\
     snd (fst (ReleaseVersion.updateUrl v status releaseDate architecture
                 imageType board url sha256 md5 size)) = true).
Proof.
  intro Hs.
  rewrite (ReleaseVersion_updateUrl_accepted v status releaseDate architecture
             imageType board url sha256 md5 size Hs).
  destruct (ReleaseVersion.updateUrl_find _ _ _ _ _ _) as [[[l b] e]|] eqn:E.
  - destruct (updateUrl_find_Some _ _ _ _ _ _ _ _ _ E)
      as (pre & x & post & Hvs & Hpre & Hx & ->).
    exists (pre ++ fst (fst (ReleaseVariant.updateUrl x url sha256 size)) :: post),
      (fst (fst (ReleaseVariant.updateUrl x url sha256 size))).
    unfold variantMatches in Hx. apply andb_true_iff in Hx.
    destruct Hx as [Ha Hb].
    apply ptr_eqb_eq in Ha. apply String.eqb_eq in Hb.
    split; [reflexivity|].
    split; [apply in_or_app; right; now left|].
    split; [now rewrite ReleaseVariant_updateUrl_arch|].
    split; [now rewrite ReleaseVariant_updateUrl_board|].
    destruct (ReleaseVariant_updateUrl_takes x url sha256 size) as (H1 & H2 & H3).
    split; [exact H1|]. split; [exact H2|]. split; [exact H3|].
    intro Hnone. exfalso. rewrite Hvs in Hnone.
    apply Forall_app in Hnone. destruct Hnone as [_ Hnone].
    inversion Hnone as [|? ? Hx' _].
    unfold variantMatches in Hx'.
    now rewrite Ha, Hb, ptr_eqb_refl, String.eqb_refl in Hx'.
  - eexists _, variant.
    split; [reflexivity|].
    split; [unfold QList_insert; apply in_or_app; right; now left|].
    split; [reflexivity|]. split; [reflexivity|].
    do 3 (split; [intros _; reflexivity|]).
    intros _. split; reflexivity.
Qed.

(** [ReleaseManager::updateUrl] on a record of a known architecture and
    image type whose key and number are held: the record reaches the first
    version of its number in the first release of its key. *)
Lemma updateUrl_reaches_version (m : ReleaseManager.t) (pre post : list Release.t)
    (r : Release.t) (vpre vpost : list ReleaseVersion.t) (v : ReleaseVersion.t) :
  ReleaseArchitecture.isKnown architecture = true ->
  ReleaseImageType.is_UNKNOWN imageType = false ->
  ReleaseManager.m_releases m = pre ++ r :: post ->
  Forall (fun x => matchesKey name x = false) pre ->
  matchesKey name r = true ->
  Release.m_versions r = vpre ++ v :: vpost ->
  Forall (fun x => ReleaseVersion.m_number x <> version) vpre ->
  ReleaseVersion.m_number v = version ->
  ReleaseManager.updateUrl m name version status releaseDate architecture
    imageType board url sha256 md5 size =
  let '(v', ret, ev) :=
    ReleaseVersion.updateUrl v status releaseDate architecture imageType board
      url sha256 md5 size in
  (ReleaseManager.set_releases m
     (pre ++ Release.set_versions r (vpre ++ v' :: vpost)
               (Release.m_selectedVersion r) :: post),
   ret, ev).
Proof.
  intros Hk Ht Hm Hpre Hr Hvs Hvpre Hv.
  rewrite (updateUrl_known_passes m name version status releaseDate architecture
             imageType board url sha256 md5 size Hk Ht).
  rewrite Hm, (updateUrl_loop_first name version status releaseDate architecture
                 imageType board url sha256 md5 size pre post r Hpre Hr).
  unfold Release.updateUrl.
  rewrite Hvs, (updateUrl_scan_first version status releaseDate architecture
                  imageType board url sha256 md5 size vpre vpost v 0 Hvpre Hv).
  now destruct (ReleaseVersion.updateUrl v _ _ _ _ _ _ _ _ _) as [[v' b] e].
Qed.

Lemma updateUrl_scan_none (vs : list ReleaseVersion.t) (n : Z) :
  Forall (fun x => ReleaseVersion.m_number x <> version) vs ->
  exists k,
    Release.updateUrl_scan vs version status releaseDate architecture imageType
      board url sha256 md5 size n = inr k.
Proof.
  intro H. revert n. induction H as [|v vs Hne _ IH]; intro n; simpl; [eauto|].
  rewrite (proj2 (String.eqb_neq _ _) Hne).
  destruct (IH (if ReleaseVersion.is_FINAL (ReleaseVersion.m_status v)
                then n + 1 else n)) as [k ->]. eauto.
Qed.

(** [Release::updateUrl] on a number that the release does not hold and that
    is not below "0": it returns true and the release holds the new version. *)
Lemma Release_updateUrl_new_version (r : Release.t) :
  Forall (fun x => ReleaseVersion.m_number x <> version) (Release.m_versions r) ->
  QString.lt version "0" = false ->
  snd (fst (Release.updateUrl r version status releaseDate architecture imageType
              board url sha256 md5 size)) = true /\
  In ver
    (Release.m_versions
       (fst (fst (Release.updateUrl r version status releaseDate architecture
                    imageType board url sha256 md5 size)))).
Proof.
  intros Hnone Hlt.
  destruct (updateUrl_scan_none (Release.m_versions r) 0 Hnone) as [n Hscan].
  split.
  - destruct (Release.updateUrl r _ _ _ _ _ _ _ _ _ _) as [[r' b] e] eqn:E.
    exact (Release_updateUrl_created _ _ _ _ _ _ _ _ _ _ _ _ _ _ _ Hscan E).
  - rewrite (Release_updateUrl_fresh _ _ _ _ _ _ _ _ _ _ r n Hscan). cbv zeta.
    destruct (addVersion_versions r ver) as (pre & post & Hr & Hr1 & _ & _).
    assert (Hin : In ver (Release.m_versions (fst (Release.addVersion r ver)))).
    { rewrite Hr1. apply in_or_app. right. now left. }
    destruct (2 <? _); [|exact Hin].
    unfold Release.removeVersion.
    destruct (Release.updateUrl_min _ _ _ _) as [idx|] eqn:Emin; [|exact Hin].
    destruct (idx <? _)%nat; [|exact Hin].
    assert (Hkeep : In ver (QList_removeAt idx
                              (Release.m_versions (fst (Release.addVersion r ver))))).
    { apply QList_removeAt_keeps with (p := List.length pre).
      - rewrite Hr1, nth_error_app2, Nat.sub_diag by lia. reflexivity.
      - intros ->.
        destruct (updateUrl_min_spec _ _ _ _ _ Emin)
          as [Hk | (j & w & Hj & Hw & Hw0)]; [discriminate|].
        simpl in Hj; subst j.
        rewrite Hr1, nth_error_app2, Nat.sub_diag in Hw by lia.
        injection Hw as <-. simpl in Hw0. congruence. }
    now destruct (Release.m_selectedVersion _ =? _).
Qed.

(** [ReleaseManager::updateUrl] on a record of a known architecture and
    image type whose key is held and whose number is not, and is not below
    "0": the first release of the key holds the new version afterwards, and
    true is returned. *)
Lemma updateUrl_creates_version (m : ReleaseManager.t) (pre post : list Release.t)
    (r : Release.t) :
  ReleaseArchitecture.isKnown architecture = true ->
  ReleaseImageType.is_UNKNOWN imageType = false ->
  ReleaseManager.m_releases m = pre ++ r :: post ->
  Forall (fun x => matchesKey name x = false) pre ->
  matchesKey name r = true ->
  Forall (fun x => ReleaseVersion.m_number x <> version) (Release.m_versions r) ->
  QString.lt version "0" = false ->
  exists r',
    fst (fst (ReleaseManager.updateUrl m name version status releaseDate
                architecture imageType board url sha256 md5 size))
      = ReleaseManager.set_releases m (pre ++ r' :: post) /\
    snd (fst (ReleaseManager.updateUrl m name version status releaseDate
                architecture imageType board url sha256 md5 size)) = true /\
    In ver (Release.m_versions r').
Proof.
  intros Hk Ht Hm Hpre Hr Hnone Hlt.
  rewrite (updateUrl_known_passes m name version status releaseDate architecture
             imageType board url sha256 md5 size Hk Ht).
  rewrite Hm, (updateUrl_loop_first name version status releaseDate architecture
                 imageType board url sha256 md5 size pre post r Hpre Hr).
  destruct (Release_updateUrl_new_version r Hnone Hlt) as [Hret Hin].
  destruct (Release.updateUrl r _ _ _ _ _ _ _ _ _ _) as [[r' b] e].
  exists r'. repeat split; assumption.
Qed.

End Record.

(** C10. The abbreviation list of the UNKNOWN architecture contains the empty
    string, so [isKnown] holds of the empty string and of "unknown", both are
    looked up as UNKNOWN, [fromFilename] finds an architecture for every file
    name, and the precheck of [ReleaseManager::updateUrl] lets a record of
    such an abbreviation through to the release loop.  There the record is
    merged under the UNKNOWN architecture, in every catalog.  When the first
    release of its key holds its version number and the status is no
    regression, the first version of this number takes the status and the
    date and holds afterwards a variant of architecture UNKNOWN and of the
    board of the record, with the address, the hash and the size of the
    record where these are given; this variant is the new one made of the
    record, and true is returned, when the version held none of UNKNOWN and
    this board.  When the release does not hold the number, and the number
    is not below "0", true is returned and the release holds afterwards the
    new version, whose one variant is the one made of the record, of
    architecture UNKNOWN.  On the sample catalog such a record creates
    version "9" with one variant of architecture UNKNOWN. *)
Theorem unknown_architecture_accepted :
  ReleaseArchitecture.isKnown "" = true /\
  ReleaseArchitecture.isKnown "unknown" = true /\
  ReleaseArchitecture.fromAbbreviation "" = Some ReleaseArchitecture.UNKNOWN /\
  ReleaseArchitecture.fromAbbreviation "unknown" = Some ReleaseArchitecture.UNKNOWN /\
  (forall filename, exists a, ReleaseArchitecture.fromFilename filename = Some a) /\
  (forall m name version status releaseDate architecture imageType board url
          sha256 md5 size,
      architecture = "" \/ architecture = "unknown" ->
      ReleaseImageType.is_UNKNOWN imageType = false ->
      ReleaseManager.updateUrl m name version status releaseDate architecture
        imageType board url sha256 md5 size =
      match ReleaseManager.updateUrl_loop (ReleaseManager.m_releases m) name
              version status releaseDate architecture imageType board url sha256
              md5 size with
      | Some (l, ret, ev) => (ReleaseManager.set_releases m l, ret, ev)
      | None => (m, false, [])
      end) /\
  (forall architecture,
      architecture = "" \/ architecture = "unknown" ->
      let '(m, ret, _) := feed sampleCatalog "9" "0" architecture in
      ret = true /\
      option_map
        (fun r =>
           map (fun v => (ReleaseVersion.m_number v,
                          map ReleaseVariant.m_arch (ReleaseVersion.m_variants v)))
             (Release.m_versions r))
        (firstRelease m)
      = Some [("9", [Some ReleaseArchitecture.UNKNOWN])]) /\
  (forall m name version status releaseDate architecture imageType board url
          sha256 md5 size pre r post vpre v vpost,
      architecture = "" \/ architecture = "unknown" ->
      ReleaseImageType.is_UNKNOWN imageType = false ->
      ReleaseManager.m_releases m = pre ++ r :: post ->
      Forall (fun x => matchesKey name x = false) pre ->
      matchesKey name r = true ->
      Release.m_versions r = vpre ++ v :: vpost ->
      Forall (fun x => ReleaseVersion.m_number x <> version) vpre ->
      ReleaseVersion.m_number v = version ->
      ReleaseVersion.Status_leb (ReleaseVersion.statusOfText status)
        (ReleaseVersion.m_status v) = true ->
      exists l x,
        fst (fst (ReleaseManager.updateUrl m name version status releaseDate
                    architecture imageType board url sha256 md5 size))
          = ReleaseManager.set_releases m
              (pre ++ Release.set_versions r
                        (vpre ++ ReleaseVersion.set_variants
                                   (afterStatusAndDate v status releaseDate) l
                              :: vpost)
                        (Release.m_selectedVersion r) :: post) /\
        In x l /\
        ReleaseVariant.m_arch x = Some ReleaseArchitecture.UNKNOWN /\
        ReleaseVariant.m_board x = board /\
        (QString.isEmpty url = false ->
         QString.trimmed (ReleaseVariant.m_url x) = QString.trimmed url) /\
        (QString.isEmpty sha256 = false ->
         QString.trimmed (ReleaseVariant.m_shaHash x) = QString.trimmed sha256) /\
        (size <> 0 -> ReleaseVariant.m_size x = size) /\
        (Forall (fun y => variantMatches (Some ReleaseArchitecture.UNKNOWN) board y
                          = false)
           (ReleaseVersion.m_variants v) ->
         x = ReleaseVariant.new url sha256 md5 size
               (Some ReleaseArchitecture.UNKNOWN) imageType board /\
         snd (fst (ReleaseManager.updateUrl m name version status releaseDate
                     architecture imageType board url sha256 md5 size)) = true)) /\
  (forall m name version status releaseDate architecture imageType board url
          sha256 md5 size pre r post,
      architecture = "" \/ architecture = "unknown" ->
      ReleaseImageType.is_UNKNOWN imageType = false ->
      ReleaseManager.m_releases m = pre ++ r :: post ->
      Forall (fun x => matchesKey name x = false) pre ->
      matchesKey name r = true ->
      Forall (fun x => ReleaseVersion.m_number x <> version) (Release.m_versions r) ->
      QString.lt version "0" = false ->
      exists r' ver,
        fst (fst (ReleaseManager.updateUrl m name version status releaseDate
                    architecture imageType board url sha256 md5 size))
          = ReleaseManager.set_releases m (pre ++ r' :: post) /\
        snd (fst (ReleaseManager.updateUrl m name version status releaseDate
                    architecture imageType board url sha256 md5 size)) = true /\
        In ver (Release.m_versions r') /\
        ReleaseVersion.m_number ver = version /\
        ReleaseVersion.m_status ver = ReleaseVersion.statusOfText status /\
        ReleaseVersion.m_releaseDate ver = releaseDate /\
        ReleaseVersion.m_variants ver
          = [ReleaseVariant.new url sha256 md5 size
               (Some ReleaseArchitecture.UNKNOWN) imageType board]).
Proof.
  assert (Hunknown : forall architecture,
             architecture = "" \/ architecture = "unknown" ->
             ReleaseArchitecture.isKnown architecture = true /\
             ReleaseArchitecture.fromAbbreviation architecture
               = Some ReleaseArchitecture.UNKNOWN).
  { intros architecture [-> | ->]; split; reflexivity. }
  do 5 (split; [try reflexivity|]); [|split; [|split; [|split]]].
  - intro filename. apply fromFilename_loop_total.
    unfold ReleaseArchitecture.m_all.
    do 8 apply Exists_cons_tl. apply Exists_cons_hd. simpl. auto.
  - intros m name version status releaseDate architecture imageType board url
      sha256 md5 size Ha Ht.
    apply updateUrl_known_passes; [|exact Ht].
    exact (proj1 (Hunknown _ Ha)).
  - intros architecture [-> | ->]; split; reflexivity.
  - intros m name version status releaseDate architecture imageType board url
      sha256 md5 size pre r post vpre v vpost Ha Ht Hm Hpre Hr Hvs Hvpre Hv Hs.
    destruct (Hunknown _ Ha) as [Hk Hab].
    rewrite (updateUrl_reaches_version name version status releaseDate
               architecture imageType board url sha256 md5 size m pre post r
               vpre vpost v Hk Ht Hm Hpre Hr Hvs Hvpre Hv).
    destruct (ReleaseVersion_updateUrl_variant status releaseDate architecture
                imageType board url sha256 md5 size v Hs)
      as (l & x & H1 & H2 & H3 & H4 & H5 & H6 & H7 & H8).
    rewrite Hab in H3, H8.
    destruct (ReleaseVersion.updateUrl v _ _ _ _ _ _ _ _ _) as [[v' b] e].
    cbn [fst snd] in *. subst v'.
    exists l, x. split; [reflexivity|]. do 6 (split; [assumption|]). exact H8.
  - intros m name version status releaseDate architecture imageType board url
      sha256 md5 size pre r post Ha Ht Hm Hpre Hr Hnone Hlt.
    destruct (Hunknown _ Ha) as [Hk Hab].
    destruct (updateUrl_creates_version name version status releaseDate
                architecture imageType board url sha256 md5 size m pre post r
                Hk Ht Hm Hpre Hr Hnone Hlt) as (r' & H1 & H2 & H3).
    exists r', (newVersion version status releaseDate architecture imageType
                  board url sha256 md5 size).
    split; [exact H1|]. split; [exact H2|]. split; [exact H3|].
    unfold newVersion. rewrite Hab. repeat split.
Qed.

Lemma unknown_architecture_accepted_witness :
  let r := nth 0 (ReleaseManager.m_releases catalog9) emptyRelease in
  let v := nth 0 (Release.m_versions r) (finalVersion "") in
  exists l x,
    fst (fst (feed catalog9 "9" "0" ""))
      = ReleaseManager.set_releases catalog9
          ([] ++ Release.set_versions r
                   ([] ++ ReleaseVersion.set_variants
                            (afterStatusAndDate v "0" None) l :: [])
                   (Release.m_selectedVersion r)
              :: tl (ReleaseManager.m_releases catalog9)) /\
    In x l /\
    ReleaseVariant.m_arch x = Some ReleaseArchitecture.UNKNOWN /\
    ReleaseVariant.m_board x = "PC" /\
    (QString.isEmpty "http://getalt.org/alt.iso" = false ->
     QString.trimmed (ReleaseVariant.m_url x)
       = QString.trimmed "http://getalt.org/alt.iso") /\
    (QString.isEmpty "" = false ->
     QString.trimmed (ReleaseVariant.m_shaHash x) = QString.trimmed "") /\
    (0 <> 0 -> ReleaseVariant.m_size x = 0) /\
    (Forall (fun y => variantMatches (Some ReleaseArchitecture.UNKNOWN) "PC" y
                      = false)
       (ReleaseVersion.m_variants v) ->
     x = ReleaseVariant.new "http://getalt.org/alt.iso" "" "" 0
           (Some ReleaseArchitecture.UNKNOWN) ReleaseImageType.ISO "PC" /\
     snd (fst (feed catalog9 "9" "0" "")) = true).
Proof.
  destruct unknown_architecture_accepted as (_ & _ & _ & _ & _ & _ & _ & H & _).
  refine (H catalog9 "alt-workstation" "9" "0" None "" ReleaseImageType.ISO "PC"
            "http://getalt.org/alt.iso" "" "" 0 [] _ _ [] _ [] _ _ _ _ _ _ _ _ _).
  - left; reflexivity.
  - reflexivity.
  - reflexivity.
  - constructor.
  - reflexivity.
  - reflexivity.
  - constructor.
  - reflexivity.
  - reflexivity.
Defined.

(** The record of the empty abbreviation for the version "9" that the
    workstation release holds with a variant of x86-64: the version holds
    both variants afterwards, the new one last. *)
Example unknown_architecture_second_variant :
  let '(m, ret, _) := feed catalog9 "9" "0" "" in
  ret = true /\
  option_map
    (fun r =>
       map (fun v => (ReleaseVersion.m_number v,
                      map ReleaseVariant.m_arch (ReleaseVersion.m_variants v)))
         (Release.m_versions r))
    (firstRelease m)
  = Some [("9", [Some ReleaseArchitecture.X86_64; Some ReleaseArchitecture.UNKNOWN])].
Proof. split; reflexivity. Qed.

End UnknownArchitecture.
